(** * Puzzle-grid compositing engine: shallow embedding and verified claims

    The repository holds two near-duplicate engines:
    - [Ikko]      : [puzzle-ultimate-ikko (2)/App.tsx] with [utils/canvasUtils.ts];
    - [Ultimate]  : [puzzle-ultimate/App.tsx] with its canvas service.

    Conventions of the embedding
    - a JavaScript string is the list of its UTF-16 code units ([list N]);
    - integral JavaScript numbers are [Z]; array lengths and indices are [nat];
    - fractional numbers (aspect ratio, JPEG ratio, text anchors) are exact
      rationals [Q]; the square root of the combine step lives in [R].
      Binary floating point rounding is not modelled;
    - [NaN] results of [parseInt] are [None]. *)

From Stdlib Require Import ZArith NArith QArith Qround Reals Lra Lqa Lia List String Ascii.
From Stdlib Require Import DecimalString DecimalN DecimalPos.
From stdpp Require Import base list gmap.

#[local] Set Warnings "-clear-no-such-hyp".

(* ===================================================================== *)
(** * Part I. Definitions *)
(* ===================================================================== *)

(** ** JavaScript strings and the primitives the parser uses *)

Module Js.

Abbreviation jsstr := (list N).

Definition ofString (s : string) : jsstr :=
  map N_of_ascii (list_ascii_of_string s).

Local Open Scope N_scope.

(** ECMAScript [WhiteSpace] and [LineTerminator] code units: what [\s]
    matches, what [trim] strips and what [parseInt] skips. *)
Definition isWhiteSpace (c : N) : bool :=
  (c =? 9) || (c =? 10) || (c =? 11) || (c =? 12) || (c =? 13) || (c =? 32)
  || (c =? 160) || (c =? 5760)
  || ((8192 <=? c) && (c <=? 8202))
  || (c =? 8232) || (c =? 8233) || (c =? 8239) || (c =? 8287)
  || (c =? 12288) || (c =? 65279).

Definition isEmpty (s : jsstr) : bool :=
  match s with [] => true | _ => false end.

(** [String.prototype.trim]. *)
Fixpoint trimStart (s : jsstr) : jsstr :=
  match s with
  | c :: s' => if isWhiteSpace c then trimStart s' else s
  | [] => []
  end.

Definition trim (s : jsstr) : jsstr := rev (trimStart (rev (trimStart s))).

(** [s.split(/[set]+/)]: cut at every maximal run of code units of [sep].
    Leading and trailing runs leave an empty piece, the empty string yields
    the one-element array holding the empty string. *)
Fixpoint splitRuns (sep : N -> bool) (inRun : bool) (acc : jsstr) (s : jsstr)
  : list jsstr :=
  match s with
  | [] => [rev acc]
  | c :: s' =>
      if sep c then
        if inRun then splitRuns sep true acc s'
        else rev acc :: splitRuns sep true [] s'
      else splitRuns sep false (c :: acc) s'
  end.

Definition splitRegexRuns (sep : N -> bool) (s : jsstr) : list jsstr :=
  splitRuns sep false [] s.

(** [s.split(ch)] for a one-character separator: every occurrence cuts. *)
Fixpoint splitCharAux (ch : N) (acc : jsstr) (s : jsstr) : list jsstr :=
  match s with
  | [] => [rev acc]
  | c :: s' =>
      if c =? ch then rev acc :: splitCharAux ch [] s'
      else splitCharAux ch (c :: acc) s'
  end.

Definition splitChar (ch : N) (s : jsstr) : list jsstr := splitCharAux ch [] s.

(** [s.includes(ch)] for a one-character needle. *)
Definition includesChar (ch : N) (s : jsstr) : bool :=
  existsb (fun c => c =? ch) s.

(** [s.replace(/[set]/g, ch)]. *)
Definition replaceAll (set : N -> bool) (ch : N) (s : jsstr) : jsstr :=
  map (fun c => if set c then ch else c) s.

(** Value of a code unit as a digit of the given radix. *)
Definition digitValue (radix : N) (c : N) : option N :=
  let v :=
    if (48 <=? c) && (c <=? 57) then Some (c - 48)
    else if (97 <=? c) && (c <=? 122) then Some (c - 97 + 10)
    else if (65 <=? c) && (c <=? 90) then Some (c - 65 + 10)
    else None in
  match v with
  | Some d => if d <? radix then Some d else None
  | None => None
  end.

(** Longest prefix of digits, accumulated left to right; [None] when there is
    no digit at all. *)
Fixpoint digitsPrefix (radix : N) (acc : option N) (s : jsstr) : option N :=
  match s with
  | [] => acc
  | c :: s' =>
      match digitValue radix c with
      | Some d =>
          digitsPrefix radix
            (Some (match acc with Some a => a * radix + d | None => d end)) s'
      | None => acc
      end
  end.

(** [parseInt(s)] with no radix argument: skip white space, take a sign, take
    a [0x]/[0X] prefix as radix 16, read the longest digit prefix.  [None] is
    [NaN]. *)
Definition parseInt (s : jsstr) : option Z :=
  let s1 := trimStart s in
  let '(neg, s2) :=
    match s1 with
    | 45 :: r => (true, r)
    | 43 :: r => (false, r)
    | _ => (false, s1)
    end in
  let '(radix, s3) :=
    match s2 with
    | 48 :: 120 :: r => (16, r)
    | 48 :: 88 :: r => (16, r)
    | _ => (10, s2)
    end in
  match digitsPrefix radix None s3 with
  | Some n => Some (if neg then (- Z.of_N n)%Z else Z.of_N n)
  | None => None
  end.

(** [String(n)] for a non-negative integer below 10^21. *)
Definition numberToString (n : N) : jsstr :=
  ofString (NilZero.string_of_uint (N.to_uint n)).

(** [Math.ceil(n / d)] on integers.  [None] stands for the non-finite results
    ([Infinity], [NaN]) of a division by zero. *)
Definition ceilDiv (n d : Z) : option Z :=
  if (d =? 0)%Z then None else Some (- ((- n) / d))%Z.

(** [a.slice(start, end)] for [0 <= start] and [0 <= end]. *)
Definition slice {A} (l : list A) (s e : nat) : list A :=
  take (e - s) (drop s l).

End Js.

(** ** The index parser (identical in both engines) *)

Module IndexParser.
Import Js.

Local Open Scope N_scope.

(** The separator class [[,，、\s]]. *)
Definition isSeparator (c : N) : bool :=
  (c =? 44) || (c =? 65292) || (c =? 12289) || isWhiteSpace c.

(** The dash class [[~—–]]. *)
Definition isDashLike (c : N) : bool :=
  (c =? 126) || (c =? 8212) || (c =? 8211).

Definition hyphen : N := 45.

(** [for (let k = Math.min(s, e); k <= Math.max(s, e); k++) indices.push(k)] *)
Definition pushRange (s e : Z) : list Z :=
  let lo := Z.min s e in
  let hi := Z.max s e in
  map (fun i => (lo + Z.of_nat i)%Z) (seq 0 (Z.to_nat (hi - lo + 1))).

(** The body of the [forEach] callback: the numbers one part pushes. *)
Definition parsePart (part : jsstr) : list Z :=
  let part := trim part in
  if isEmpty part then []
  else
    let standardPart := replaceAll isDashLike hyphen part in
    if includesChar hyphen standardPart then
      match splitChar hyphen standardPart with
      | [p0; p1] =>
          match parseInt p0, parseInt p1 with
          | Some s, Some e => pushRange s e
          | _, _ => []
          end
      | _ => []
      end
    else
      match parseInt standardPart with
      | Some num => [num]
      | None => []
      end.

Definition parseMaskIndices (input : jsstr) : list Z :=
  flat_map parsePart (splitRegexRuns isSeparator input).

(** [maskIndices.includes(n)] *)
Definition includes (maskIndices : list Z) (n : Z) : bool :=
  existsb (Z.eqb n) maskIndices.

End IndexParser.

(** ** Polling the cancellation flag

    [isCancelledRef.current] is reset when a run starts and is set by the
    cancel button while the run is suspended in an [await].  A run only ever
    reads the flag, so the environment is the sequence of values its
    successive reads return: [sigma k] is what the [k]-th read of the run
    sees.  The monad threads the number of reads made so far. *)

Module Poll.

Definition M (A : Type) : Type := (nat -> bool) -> nat -> A * nat.

#[global] Instance poll_ret : MRet M := fun A a _ n => (a, n).
#[global] Instance poll_bind : MBind M :=
  fun A B f m sigma n => let '(a, n') := m sigma n in f a sigma n'.

(** One read of the flag. *)
Definition isCancelled : M bool := fun sigma n => (sigma n, S n).

Definition run {A} (m : M A) (sigma : nat -> bool) : A * nat := m sigma 0.

(** The flag is sticky during a run. *)
Definition sticky (sigma : nat -> bool) : Prop :=
  forall i j, i <= j -> sigma i = true -> sigma j = true.

Definition never : nat -> bool := fun _ => false.
Definition from (k : nat) : nat -> bool := fun i => k <=? i.

End Poll.

(** ** What is drawn on the raster surface

    Colours, fonts and line widths are left out; positions, sizes, the number
    printed and the kind of decoration are kept. *)

Module Canvas.

Local Open Scope Z_scope.

Inductive MaskMode := ModeLine | ModeImage.
Inductive LineStyle := Cross | Slash.
Inductive FontPos :=
  BottomCenter | BottomLeft | BottomRight | Center | TopLeft | TopRight.
Inductive TextAlign := AlignLeft | AlignRight | AlignCenter.

(** [fontPos.includes('top')], [.includes('left')], [.includes('right')] *)
Definition includesTop (p : FontPos) : bool :=
  match p with TopLeft | TopRight => true | _ => false end.
Definition includesLeft (p : FontPos) : bool :=
  match p with BottomLeft | TopLeft => true | _ => false end.
Definition includesRight (p : FontPos) : bool :=
  match p with BottomRight | TopRight => true | _ => false end.
Definition isCenter (p : FontPos) : bool :=
  match p with Center => true | _ => false end.

Record Rect := mkRect { rx : Z; ry : Z; rw : Z; rh : Z }.

(** A decoded picture: its pixel width and height. *)
Record Bitmap := mkBitmap { bw : Z; bh : Z }.

Inductive DrawOp :=
| SetSize (w h : Z)
| Scale (s : Q)
| FillWhite (w h : Z)
| ErrorTile (cell : Rect)
| CoverImage (src : list N) (clip : Rect) (dx dy dw dh : Q)
| StrokeText (n : Z) (tx ty : Q) (a : TextAlign)
| FillText (n : Z) (tx ty : Q) (a : TextAlign) (shadow : bool)
| MaskLines (cell : Rect) (segments : list (Q * Q * Q * Q))
| MaskSticker (cell : Rect) (dx dy sw sh : Q)
| Overlay (w h : Z) (opacity : Q).

Definition isMaskOp (op : DrawOp) : bool :=
  match op with
  | MaskLines _ _ | MaskSticker _ _ _ _ _ => true
  | _ => false
  end.

(** The rectangle of the cell an image, a placeholder or a mask is put in. *)
Definition cellOf (op : DrawOp) : option Rect :=
  match op with
  | ErrorTile r | CoverImage _ r _ _ _ _ | MaskLines r _
  | MaskSticker r _ _ _ _ => Some r
  | _ => None
  end.

Definition q (z : Z) : Q := inject_Z z.

(** Object-cover placement of a [iw] x [ih] picture in the cell at [(x, y)]
    of size [w] x [h]. *)
Definition coverImage (src : list N) (iw ih : Z) (x y w h : Z) : DrawOp :=
  let iRatio := (q iw / q ih)%Q in
  let cRatio := (q w / q h)%Q in
  if Qlt_le_dec cRatio iRatio then
    let drawW := (q h * iRatio)%Q in
    CoverImage src (mkRect x y w h)
      (q x - (drawW - q w) / 2)%Q (q y) drawW (q h)
  else
    let drawH := (q w / iRatio)%Q in
    CoverImage src (mkRect x y w h)
      (q x) (q y - (drawH - q h) / 2)%Q (q w) drawH.

(** The numbering block, the same text in both engines. *)
Definition drawNumber (showNum enableStroke enableShadow : bool)
    (fontPos : FontPos) (fontSize : Z) (currentNum : Z) (x y w h : Z)
  : list DrawOp :=
  if showNum then
    let ty :=
      if isCenter fontPos then (q y + q h / 2 + q fontSize / 3)%Q
      else if includesTop fontPos then (q y + q fontSize + 20)%Q
      else (q y + q h - q fontSize / 2)%Q in
    let '(tx, align) :=
      if includesLeft fontPos then ((q x + 20)%Q, AlignLeft)
      else if includesRight fontPos then ((q x + q w - 20)%Q, AlignRight)
      else ((q x + q w / 2)%Q, AlignCenter) in
    (if enableStroke then [StrokeText currentNum tx ty align] else [])
    ++ [FillText currentNum tx ty align enableShadow]
  else [].

(** The decoration of a masked cell.  In sticker mode nothing is drawn
    without a sticker picture. *)
Definition drawMask (maskMode : MaskMode) (lineStyle : LineStyle)
    (sticker : option Bitmap) (stickerSize stickerX stickerY : Z)
    (x y w h : Z) : list DrawOp :=
  match maskMode with
  | ModeLine =>
      let x2 := (q x + q w * (2 # 10))%Q in
      let x8 := (q x + q w * (8 # 10))%Q in
      let y2 := (q y + q h * (2 # 10))%Q in
      let y8 := (q y + q h * (8 # 10))%Q in
      match lineStyle with
      | Cross =>
          [MaskLines (mkRect x y w h) [(x2, y2, x8, y8); (x8, y2, x2, y8)]]
      | Slash => [MaskLines (mkRect x y w h) [(x2, y8, x8, y2)]]
      end
  | ModeImage =>
      match sticker with
      | Some st =>
          let sPct := (q stickerSize / 100)%Q in
          let xPct := (q stickerX / 100)%Q in
          let yPct := (q stickerY / 100)%Q in
          let sw := (q w * sPct)%Q in
          let sh := (sw * (q (bh st) / q (bw st)))%Q in
          [MaskSticker (mkRect x y w h)
             (q x + q w * xPct - sw / 2)%Q (q y + q h * yPct - sh / 2)%Q sw sh]
      | None => []
      end
  end.

Inductive Mime := ImagePng | ImageJpeg.

(** An encoded page: its format, the ratio handed to the encoder, the size of
    the surface when it was encoded and what had been drawn on it. *)
Record Blob := mkBlob {
  mimeType : Mime;
  qVal : option Q;
  width : Z;
  height : Z;
  surface : list DrawOp
}.

(** Size of the surface as the last call to [drawAsync] left it. *)
Definition surfaceSize (l : list DrawOp) : Z * Z :=
  match l with
  | SetSize w h :: _ => (w, h)
  | _ => (300, 150)
  end.

(** [canvas.toBlob(resolve, mime, ratio)] when it delivers a blob. *)
Definition toBlob (mime : Mime) (ratio : option Q) (l : list DrawOp) : Blob :=
  mkBlob mime ratio (fst (surfaceSize l)) (snd (surfaceSize l)) l.

End Canvas.

(** ** Engine [Ultimate]: the canvas service ([drawAsync]) and its types *)

Module Ultimate.
Import Js IndexParser Poll Canvas.

Local Open Scope Z_scope.

(** [file] stands for the payload through what decoding it yields: [None]
    when both [createImageBitmap] and the fallback image element fail. *)
Record ImageItem := mkImageItem {
  id : jsstr;
  url : jsstr;
  file : option Bitmap;
  name : jsstr;
  size : N
}.

Record AppSettings := mkAppSettings {
  cols : Z;
  groupRows : Z;
  aspectRatio : Q;
  gap : Z;
  showNum : bool;
  startNumber : Z;
  fontSize : Z;
  enableStroke : bool;
  enableShadow : bool;
  fontPos : FontPos;
  overlayOpacity : Q;
  maskIndices : jsstr;
  maskMode : MaskMode;
  lineStyle : LineStyle;
  stickerSize : Z;
  stickerX : Z;
  stickerY : Z;
  quality : Z;
  qualityPreset : jsstr
}.

Definition MAX_CANVAS_DIMENSION : Z := 12000.
Definition MAX_SAFE_HEIGHT : Z := 16000.
Definition CONCURRENCY : nat := 4.

(** [let cellW = 1500; if (cols * cellW > MAX) cellW = floor((MAX - cols*gap) / cols)] *)
Definition cellW (s : AppSettings) : Z :=
  if cols s * 1500 >? MAX_CANVAS_DIMENSION
  then (MAX_CANVAS_DIMENSION - cols s * gap s) / cols s
  else 1500.

(** [const cellH = Math.floor(cellW / aspectRatio)] *)
Definition cellH (s : AppSettings) : Z :=
  Qfloor (q (cellW s) / aspectRatio s).

Definition currentNum (s : AppSettings) (globalOffset : Z) (idx : nat) : Z :=
  startNumber s + globalOffset + Z.of_nat idx.

(** Column and row of the cell of index [idx], and its top-left corner. *)
Definition cellCol (s : AppSettings) (idx : nat) : Z := Z.rem (Z.of_nat idx) (cols s).
Definition cellRow (s : AppSettings) (idx : nat) : Z := Z.of_nat idx / cols s.
Definition cellX (s : AppSettings) (idx : nat) : Z := cellCol s idx * (cellW s + gap s).
Definition cellY (s : AppSettings) (idx : nat) : Z := cellRow s idx * (cellH s + gap s).

(** The draw sequence of one cell: picture or placeholder, number, mask. *)
Definition drawCell (images : list ImageItem) (s : AppSettings)
    (globalOffset : Z) (maskIdx : list Z) (stickerImg : option Bitmap)
    (idx : nat) : list DrawOp :=
  let x := cellX s idx in
  let y := cellY s idx in
  match images !! idx with
  | None => []
  | Some item =>
      match file item with
      | Some bitmap =>
          if (bw bitmap =? 0) || (bh bitmap =? 0) then []
          else [coverImage (url item) (bw bitmap) (bh bitmap) x y (cellW s) (cellH s)]
      | None => [ErrorTile (mkRect x y (cellW s) (cellH s))]
      end
      ++ drawNumber (showNum s) (enableStroke s) (enableShadow s) (fontPos s)
           (fontSize s) (currentNum s globalOffset idx) x y (cellW s) (cellH s)
      ++ (if includes maskIdx (currentNum s globalOffset idx)
          then drawMask (maskMode s) (lineStyle s) stickerImg
                 (stickerSize s) (stickerX s) (stickerY s) x y (cellW s) (cellH s)
          else [])
  end.

(** What a call has put on the surface, and whether it ran to its end
    ([finished = false]: it returned early on cancellation). *)
Record DrawResult := mkDrawResult { ops : list DrawOp; finished : bool }.

(** The values [i] takes in [for (let i = 0; i < len; i += CONCURRENCY)]. *)
Definition chunkStarts (len : nat) : list nat :=
  map (fun k => (k * CONCURRENCY)%nat) (seq 0 ((len + 3) / 4)%nat).

(** The indices [i .. min(i + CONCURRENCY, len) - 1] of one chunk. *)
Definition chunkIndices (len i : nat) : list nat :=
  seq i (Nat.min (i + CONCURRENCY) len - i).

Fixpoint drawChunks (cell : nat -> list DrawOp) (len : nat)
    (starts : list nat) (acc : list DrawOp) : M DrawResult :=
  match starts with
  | [] => mret (mkDrawResult acc true)
  | i :: rest =>
      c1 ← isCancelled;
      if c1 : bool then mret (mkDrawResult acc false)
      else
        (* the chunk is decoded here *)
        c2 ← isCancelled;
        if c2 : bool then mret (mkDrawResult acc false)
        else drawChunks cell len rest (acc ++ flat_map cell (chunkIndices len i))
  end.

(** Size of the composed page before scaling; [None] when [cols = 0] makes
    the row count non-finite. *)
Definition pageRows (len : nat) (s : AppSettings) : option Z :=
  ceilDiv (Z.of_nat len) (cols s).

Definition totalW (s : AppSettings) : Z :=
  cols s * cellW s + (cols s - 1) * gap s.
Definition totalH (rows : Z) (s : AppSettings) : Z :=
  rows * cellH s + (rows - 1) * gap s.

Definition scaleFactor (totH : Z) : Q :=
  if totH >? MAX_SAFE_HEIGHT then (q MAX_SAFE_HEIGHT / q totH)%Q else 1%Q.

Definition drawAsync (images : list ImageItem) (s : AppSettings)
    (globalOffset : Z) (maskIdx : list Z)
    (stickerImg overlayImg : option Bitmap) : M (option DrawResult) :=
  match pageRows (length images) s with
  | None => mret None
  | Some rows =>
      let totH := totalH rows s in
      let totW := totalW s in
      let sf := scaleFactor totH in
      let targetW := Qfloor (q totW * sf) in
      let targetH := Qfloor (q totH * sf) in
      let setup := [SetSize targetW targetH; Scale sf; FillWhite totW totH] in
      r ← drawChunks (drawCell images s globalOffset maskIdx stickerImg)
            (length images) (chunkStarts (length images)) setup;
      if finished r then
        mret (Some (mkDrawResult
                      (ops r ++ match overlayImg with
                                | Some _ => [Overlay totW totH (overlayOpacity s)]
                                | None => []
                                end) true))
      else mret (Some r)
  end.

(** The cells of a rendered page that carry a mask decoration. *)
Definition maskedCells (images : list ImageItem) (s : AppSettings)
    (globalOffset : Z) (maskIdx : list Z) (stickerImg : option Bitmap)
  : list nat :=
  filter (fun i => existsb isMaskOp (drawCell images s globalOffset maskIdx stickerImg i) = true)
    (seq 0 (length images)).

End Ultimate.

(** ** Engine [Ultimate]: the application ([App.tsx]) *)

Module UltimateApp.
Import Js IndexParser Poll Canvas Ultimate.

Local Open Scope Z_scope.

Inductive OpType := Normal | Apply | Repack.

(** The part of the component state that generation and duplicate removal
    touch, with the two module-level pictures [stickerImg] and
    [globalOverlayImg]. *)
Record AppState := mkAppState {
  images : list ImageItem;
  settings : AppSettings;
  generatedBlobs : list Blob;
  stickerImg : option Bitmap;
  globalOverlayImg : option Bitmap
}.

Definition setImages (st : AppState) (l : list ImageItem) : AppState :=
  mkAppState l (settings st) (generatedBlobs st) (stickerImg st) (globalOverlayImg st).

Definition setGeneratedBlobs (st : AppState) (l : list Blob) : AppState :=
  mkAppState (images st) (settings st) l (stickerImg st) (globalOverlayImg st).

(** *** [removeDuplicates] *)

(** [item.name + item.size]: string concatenation of the name and the
    decimal rendering of the size. *)
Definition dupKey (item : ImageItem) : jsstr :=
  name item ++ numberToString (size item).

(** The [forEach] over [images]: [seen] is the set of keys met so far; the
    result is [(keep, removeIds)]. *)
Fixpoint dedupLoop (items : list ImageItem) (seen : gset (list N))
  : list ImageItem * list jsstr :=
  match items with
  | [] => ([], [])
  | item :: rest =>
      if decide (dupKey item ∈ seen) then
        let '(keep, removeIds) := dedupLoop rest seen in
        (keep, id item :: removeIds)
      else
        let '(keep, removeIds) := dedupLoop rest ({[dupKey item]} ∪ seen) in
        (item :: keep, removeIds)
  end.

Definition removeDuplicates (st : AppState) : AppState :=
  setImages st (fst (dedupLoop (images st) ∅)).

(** *** [startGeneration] *)

Definition MAX_CANVAS_DIM : Z := 12000.
Definition SAFE_H : Z := 15500.

(** The estimate of the cell size made for the automatic row count. *)
Definition cW (s : AppSettings) : Z :=
  if cols s * 1500 >? MAX_CANVAS_DIM
  then (MAX_CANVAS_DIM - cols s * gap s) / cols s
  else 1500.

Definition cH (s : AppSettings) : Q := (q (cW s) / aspectRatio s)%Q.

(** [Math.max(1, Math.floor((SAFE_H + gap) / (cH + gap)))] *)
Definition autoRows (cellHeight : Q) (gapPx : Z) : Z :=
  let calculated := Qfloor ((q SAFE_H + q gapPx) / (cellHeight + q gapPx)) in
  Z.max 1 calculated.

(** The local [groupRows] after the automatic calculation. *)
Definition effectiveGroupRows (s : AppSettings) : Z :=
  if groupRows s <=? 0 then autoRows (cH s) (gap s) else groupRows s.

Definition batchSize (s : AppSettings) : Z := cols s * effectiveGroupRows s.

(** Number of turns of [for (b = 0; b < totalBatches; b++)] with
    [totalBatches = Math.ceil(len / batchSize)].  [None]: the bound is
    [Infinity] and the loop has no end of its own. *)
Definition totalBatches (len : nat) (bsz : Z) : option nat :=
  match ceilDiv (Z.of_nat len) bsz with
  | Some t => Some (Z.to_nat t)
  | None => if (len =? 0)%nat then Some 0%nat else None
  end.

(** [targetIndices], filtered for the strip-and-repack operation. *)
Definition targetIndices (st : AppState) (op : OpType) : list nat :=
  let all := seq 0 (length (images st)) in
  let maskTargetIndices := parseMaskIndices (maskIndices (settings st)) in
  match op with
  | Repack =>
      filter (fun idx => includes maskTargetIndices
                           (startNumber (settings st) + Z.of_nat idx) = false) all
  | _ => all
  end.

(** [targetIndices.slice(b * batchSize, Math.min((b + 1) * batchSize, len))] *)
Definition batchIndices (targets : list nat) (bsz : Z) (b : nat) : list nat :=
  slice targets (Z.to_nat (Z.of_nat b * bsz))
    (Z.to_nat (Z.min ((Z.of_nat b + 1) * bsz) (Z.of_nat (length targets)))).

(** [batchIndices.map(i => images[i])] *)
Definition batchImages (imgs : list ImageItem) (targets : list nat) (bsz : Z)
    (b : nat) : list ImageItem :=
  omap (fun i => imgs !! i) (batchIndices targets bsz b).

Definition isPng (s : AppSettings) : bool :=
  bool_decide (qualityPreset s = ofString "1.0").

Definition pageMime (s : AppSettings) : Mime :=
  if isPng s then ImagePng else ImageJpeg.

Definition pageQVal (s : AppSettings) : option Q :=
  if isPng s then None else Some (q (quality s) / 100)%Q.

Definition encodePage (s : AppSettings) (l : list DrawOp) : Blob :=
  toBlob (pageMime s) (pageQVal s) l.

(** The page loop.  [encodes b] tells whether [canvas.toBlob] delivers a
    blob for page [b].  The result is the local array [newBlobs]; [None]
    when [drawAsync] has no finite geometry. *)
Fixpoint batchLoop (st : AppState) (targets : list nat) (bsz : Z)
    (maskTargetIndices : list Z) (encodes : nat -> bool)
    (bs : list nat) (newBlobs : list Blob) : M (option (list Blob)) :=
  match bs with
  | [] => mret (Some newBlobs)
  | b :: rest =>
      c1 ← isCancelled;
      if c1 : bool then mret (Some newBlobs)
      else
        r ← drawAsync (batchImages (images st) targets bsz b) (settings st)
              (Z.of_nat b * bsz) maskTargetIndices
              (stickerImg st) (globalOverlayImg st);
        match r with
        | None => mret None
        | Some page =>
            c2 ← isCancelled;
            if c2 : bool then mret (Some newBlobs)
            else
              batchLoop st targets bsz maskTargetIndices encodes rest
                (if encodes b
                 then newBlobs ++ [encodePage (settings st) (ops page)]
                 else newBlobs)
        end
  end.

(** The state after a run together with the run's local [newBlobs]. *)
Record Run := mkRun { after : AppState; newBlobs : list Blob }.

Definition startGeneration (st : AppState) (op : OpType)
    (encodes : nat -> bool) : M (option Run) :=
  if (length (images st) =? 0)%nat then mret (Some (mkRun st []))
  else
    let st0 := setGeneratedBlobs st [] in
    let targets := targetIndices st op in
    let maskTargetIndices := parseMaskIndices (maskIndices (settings st)) in
    let bsz := batchSize (settings st) in
    match totalBatches (length targets) bsz with
    | None => mret None
    | Some total =>
        r ← batchLoop st targets bsz maskTargetIndices encodes (seq 0 total) [];
        match r with
        | None => mret None
        | Some blobs =>
            c ← isCancelled;
            if c : bool then mret (Some (mkRun st0 blobs))
            else mret (Some (mkRun (setGeneratedBlobs st0 blobs) blobs))
        end
    end.

(** *** [handleDownload('combine')] *)

Definition MAX_SAFE_TOTAL_HEIGHT : Z := 28000.
Definition PIXEL_LIMIT : Z := 80 * 1000 * 1000.

Record Combined := mkCombined {
  finalW : Z;
  finalH : Z;
  scale : R;
  (** for every page, the vertical offset and the height it is drawn with *)
  strips : list (Z * Z)
}.

Definition sumHeights (blobs : list Blob) : Z :=
  fold_left (fun acc b => acc + height b) blobs 0.

Definition needsDownscale (maxW totH : Z) : bool :=
  (totH >? MAX_SAFE_TOTAL_HEIGHT) || (maxW * totH >? PIXEL_LIMIT).

Definition combineScale (maxW totH : Z) : R :=
  if needsDownscale maxW totH then
    let scaleH := (IZR MAX_SAFE_TOTAL_HEIGHT / IZR totH)%R in
    let scaleP := sqrt (IZR PIXEL_LIMIT / IZR (maxW * totH)) in
    Rmin scaleH scaleP
  else 1%R.

(** [Math.floor] on a real. *)
Definition floorR (x : R) : Z := Int_part x.

Fixpoint drawStrips (sc : R) (blobs : list Blob) (y : Z) : list (Z * Z) :=
  match blobs with
  | [] => []
  | b :: rest =>
      let drawH := floorR (IZR (height b) * sc) in
      (y, drawH) :: drawStrips sc rest (y + drawH)
  end.

(** [None]: nothing was generated and the handler only alerts. *)
Definition combine (blobs : list Blob) : option Combined :=
  match blobs with
  | [] => None
  | first :: _ =>
      let maxW := width first in
      let totH := sumHeights blobs in
      let sc := combineScale maxW totH in
      Some (if needsDownscale maxW totH
            then mkCombined (floorR (IZR maxW * sc)) (floorR (IZR totH * sc)) sc
                   (drawStrips sc blobs 0)
            else mkCombined maxW totH sc (drawStrips sc blobs 0))
  end.

End UltimateApp.

(** ** Engine [Ikko]: [utils/canvasUtils.ts] and its types *)

Module Ikko.
Import Js IndexParser Poll Canvas.

Local Open Scope Z_scope.

Record ImageData := mkImageData {
  id : jsstr;
  url : jsstr;
  name : jsstr;
  size : N
}.

Record AppSettings := mkAppSettings {
  aspectRatio : Q;
  isCustomRatio : bool;
  customW : Z;
  customH : Z;
  gap : Z;
  cols : Z;
  groupRows : Z;
  showNum : bool;
  startNumber : Z;
  fontSize : Z;
  enableStroke : bool;
  enableShadow : bool;
  fontPos : FontPos;
  exportQuality : Z;
  overlayImgUrl : option jsstr;
  overlayOpacity : Q;
  maskIndicesStr : jsstr;
  maskMode : MaskMode;
  lineStyle : LineStyle;
  stickerImgUrl : option jsstr;
  stickerSize : Z;
  stickerX : Z;
  stickerY : Z
}.

Definition MAX_CANVAS_DIMENSION : Z := 8192.

Definition calculateCellDimensions (cols : Z) (ratio : Q) (gap : Z) : Z * Z :=
  let cellW :=
    if cols * 1500 >? MAX_CANVAS_DIMENSION
    then (MAX_CANVAS_DIMENSION - cols * gap) / cols
    else 1500 in
  let cellH := Qfloor (q cellW / ratio) in
  (cellW, cellH).

Record DrawOptions := mkDrawOptions {
  images : list jsstr;
  rows : Z;
  dcols : Z;
  w : Z;
  h : Z;
  dgap : Z;
  globalOffset : Z;
  startNum : Z;
  maskIndices : list Z;
  dsettings : AppSettings;
  applyMask : bool
}.

Section Draw.

(** What [img.decode()] makes of a URL; [None]: it fails, or the picture has
    no width.  A sticker or overlay URL that fails to decode is treated like
    a missing one. *)
Variable decode : jsstr -> option Bitmap.

Definition stickerImgEl (s : AppSettings) : option Bitmap :=
  match maskMode s, stickerImgUrl s with
  | ModeImage, Some u => decode u
  | _, _ => None
  end.

Definition overlayImgEl (s : AppSettings) : option Bitmap :=
  match overlayImgUrl s with
  | Some u => decode u
  | None => None
  end.

Definition cellCol (o : DrawOptions) (i : nat) : Z := Z.rem (Z.of_nat i) (dcols o).
Definition cellRow (o : DrawOptions) (i : nat) : Z := Z.of_nat i / dcols o.
Definition cellX (o : DrawOptions) (i : nat) : Z := cellCol o i * (w o + dgap o).
Definition cellY (o : DrawOptions) (i : nat) : Z := cellRow o i * (h o + dgap o).
Definition currentNum (o : DrawOptions) (i : nat) : Z :=
  startNum o + globalOffset o + Z.of_nat i.

(** What the task of picture [i] draws once it is started. *)
Definition task (o : DrawOptions) (i : nat) : list DrawOp :=
  let s := dsettings o in
  let x := cellX o i in
  let y := cellY o i in
  match images o !! i with
  | None => []
  | Some imgUrl =>
      match decode imgUrl with
      | None => [ErrorTile (mkRect x y (w o) (h o))]
      | Some img => [coverImage imgUrl (bw img) (bh img) x y (w o) (h o)]
      end
      ++ drawNumber (showNum s) (enableStroke s) (enableShadow s) (fontPos s)
           (fontSize s) (currentNum o i) x y (w o) (h o)
      ++ (if applyMask o && includes (maskIndices o) (currentNum o i)
          then drawMask (maskMode s) (lineStyle s) (stickerImgEl s)
                 (stickerSize s) (stickerX s) (stickerY s) x y (w o) (h o)
          else [])
  end.

(** [for (const task of tasks) { if (isCancelled()) break; task() ... }],
    where a task gives up at once when it reads the flag set.  The blocks of
    the started tasks reach the surface in the order their pictures finish
    decoding; they are listed here in task order. *)
Fixpoint runTasks (o : DrawOptions) (idxs : list nat) (acc : list DrawOp)
  : M (list DrawOp) :=
  match idxs with
  | [] => mret acc
  | i :: rest =>
      c1 ← isCancelled;
      if c1 : bool then mret acc
      else
        c2 ← isCancelled;
        runTasks o rest (if c2 : bool then acc else acc ++ task o i)
  end.

Definition canvasWidth (o : DrawOptions) : Z := dcols o * w o + (dcols o - 1) * dgap o.
Definition canvasHeight (o : DrawOptions) : Z := rows o * h o + (rows o - 1) * dgap o.

Definition drawAsync (o : DrawOptions) : M (list DrawOp) :=
  let setup :=
    [SetSize (canvasWidth o) (canvasHeight o);
     FillWhite (canvasWidth o) (canvasHeight o)] in
  drawn ← runTasks o (seq 0 (length (images o))) setup;
  mret (drawn ++ match overlayImgEl (dsettings o) with
                 | Some _ => [Overlay (canvasWidth o) (canvasHeight o)
                                (overlayOpacity (dsettings o))]
                 | None => []
                 end).

Definition maskedCells (o : DrawOptions) : list nat :=
  filter (fun i => existsb isMaskOp (task o i) = true)
    (seq 0 (length (images o))).

End Draw.

End Ikko.

(** ** Engine [Ikko]: the application ([App.tsx]) *)

Module IkkoApp.
Import Js IndexParser Poll Canvas Ikko.

Local Open Scope Z_scope.

Inductive OpType := Normal | Repack | Apply.

Record AppState := mkAppState {
  images : list ImageData;
  settings : AppSettings;
  generatedBlobs : list Blob
}.

Definition setGeneratedBlobs (st : AppState) (l : list Blob) : AppState :=
  mkAppState (images st) (settings st) l.

(** *** [generate] *)

(** [x || d] on a number: [d] replaces zero. *)
Definition orDefault (x d : Z) : Z := if x =? 0 then d else x.

Definition getRatio (s : AppSettings) : Q :=
  if isCustomRatio s
  then (q (orDefault (customW s) 1000) / q (orDefault (customH s) 1500))%Q
  else aspectRatio s.

(** [images.map(d => d.url)], filtered for the strip-and-repack operation. *)
Definition targets (st : AppState) (op : OpType) : list jsstr :=
  let all := map url (images st) in
  let maskIdx := parseMaskIndices (maskIndicesStr (settings st)) in
  match op with
  | Repack =>
      omap (fun p => if includes maskIdx (startNumber (settings st) + Z.of_nat (fst p))
                     then None else Some (snd p))
        (imap pair all)
  | _ => all
  end.

Definition finalApplyMask (s : AppSettings) (op : OpType) : bool :=
  match op with
  | Apply => true
  | Normal => negb (isEmpty (maskIndicesStr s))
  | Repack => false
  end.

(** [groupRows > 0 ? groupRows : Math.ceil(targets.length / cols)] *)
Definition effectiveGroupRows (s : AppSettings) (len : nat) : option Z :=
  if groupRows s >? 0 then Some (groupRows s)
  else ceilDiv (Z.of_nat len) (cols s).

Definition totalBatches (len : nat) (bsz : Z) : option nat :=
  match ceilDiv (Z.of_nat len) bsz with
  | Some t => Some (Z.to_nat t)
  | None => if (len =? 0)%nat then Some 0%nat else None
  end.

(** [targets.slice(b * batchSize, Math.min((b + 1) * batchSize, len))] *)
Definition currentImgs (tg : list jsstr) (bsz : Z) (b : nat) : list jsstr :=
  slice tg (Z.to_nat (Z.of_nat b * bsz))
    (Z.to_nat (Z.min ((Z.of_nat b + 1) * bsz) (Z.of_nat (length tg)))).

Definition qualityVal (s : AppSettings) : Z :=
  if exportQuality s >? 100 then 100 else exportQuality s.

Definition isPng (s : AppSettings) : bool := qualityVal s =? 100.

Definition pageMime (s : AppSettings) : Mime :=
  if isPng s then ImagePng else ImageJpeg.

Definition pageQVal (s : AppSettings) : option Q :=
  if isPng s then None else Some (q (qualityVal s) / 100)%Q.

Section Generate.

Variable decode : jsstr -> option Bitmap.
(** [encodes b]: [canvas.toBlob] delivers a blob for page [b]. *)
Variable encodes : nat -> bool.

Definition drawOptions (st : AppState) (op : OpType) (tg : list jsstr)
    (bsz : Z) (b : nat) (rws : Z) : DrawOptions :=
  let s := settings st in
  let '(cellW, cellH) := calculateCellDimensions (cols s) (getRatio s) (gap s) in
  mkDrawOptions (currentImgs tg bsz b) rws (cols s) cellW cellH (gap s)
    (Z.of_nat b * bsz) (startNumber s)
    (parseMaskIndices (maskIndicesStr s)) s (finalApplyMask s op).

Fixpoint batchLoop (st : AppState) (op : OpType) (tg : list jsstr) (bsz : Z)
    (bs : list nat) (blobs : list Blob) : M (option (list Blob)) :=
  match bs with
  | [] => mret (Some blobs)
  | b :: rest =>
      c1 ← isCancelled;
      if c1 : bool then mret (Some blobs)
      else
        match ceilDiv (Z.of_nat (length (currentImgs tg bsz b))) (cols (settings st)) with
        | None => mret None
        | Some rws =>
            page ← drawAsync decode (drawOptions st op tg bsz b rws);
            c2 ← isCancelled;
            if c2 : bool then mret (Some blobs)
            else
              batchLoop st op tg bsz rest
                (if encodes b
                 then blobs ++ [toBlob (pageMime (settings st)) (pageQVal (settings st)) page]
                 else blobs)
        end
  end.

Record Run := mkRun { after : AppState; blobsOf : list Blob }.

Definition generate (st : AppState) (op : OpType) : M (option Run) :=
  if (length (images st) =? 0)%nat then mret (Some (mkRun st []))
  else
    let st0 := setGeneratedBlobs st [] in
    let tg := targets st op in
    match effectiveGroupRows (settings st) (length tg) with
    | None => mret None
    | Some eff =>
        let bsz := cols (settings st) * eff in
        match totalBatches (length tg) bsz with
        | None => mret None
        | Some total =>
            r ← batchLoop st op tg bsz (seq 0 total) [];
            match r with
            | None => mret None
            | Some blobs =>
                c ← isCancelled;
                if c : bool then mret (Some (mkRun st0 blobs))
                else mret (Some (mkRun (setGeneratedBlobs st0 blobs) blobs))
            end
        end
    end.

End Generate.

End IkkoApp.

(** ** Helpers of the statements, and sample data *)

Module Aux.
Import Js Canvas.

(** The slice of page [b] for a page capacity [P], on natural numbers. *)
Definition pageSlice {A} (l : list A) (P b : nat) : list A :=
  slice l (b * P) (Nat.min ((b + 1) * P) (length l)).

(** The numbers printed on a surface and the pictures drawn on it, in
    drawing order. *)
Definition printedNumbers (l : list DrawOp) : list Z :=
  omap (fun op => match op with FillText n _ _ _ _ => Some n | _ => None end) l.

Definition drawnSources (l : list DrawOp) : list (list N) :=
  omap (fun op => match op with CoverImage src _ _ _ _ _ => Some src | _ => None end) l.

(** An operation that is tied to a cell is tied to the cell [r]. *)
Definition located (r : Rect) (op : DrawOp) : Prop :=
  cellOf op = None \/ cellOf op = Some r.

(** The set of the duplicate-detection keys of a list of items. *)
Definition keysOf (l : list Ultimate.ImageItem) : gset (list N) :=
  list_to_set (map UltimateApp.dupKey l).

End Aux.

Module Samples.
Import Js Canvas.

Local Open Scope Z_scope.

(** [DEFAULT_SETTINGS] of engine [Ultimate]. *)
Definition ULTIMATE_DEFAULT : Ultimate.AppSettings :=
  Ultimate.mkAppSettings 3 0 (75 # 100) 0 true 1 350 true true BottomCenter 1
    (ofString "") ModeLine Cross 50 50 50 80 (ofString "0.80").

(** Settings that differ from the defaults in the layout, the mask text and
    mode, and the quality fields. *)
Definition ultimateSettings (cols groupRows gap : Z) (ratio : Q)
    (mask : string) (mode : MaskMode) (quality : Z) (preset : string)
  : Ultimate.AppSettings :=
  Ultimate.mkAppSettings cols groupRows ratio gap true 1 350 true true
    BottomCenter 1 (ofString mask) mode Cross 50 50 50 quality (ofString preset).

Definition ikkoSettings (cols groupRows gap : Z) (ratio : Q)
    (mask : string) (mode : MaskMode) (quality : Z) : Ikko.AppSettings :=
  Ikko.mkAppSettings ratio false 1000 1500 gap cols groupRows true 1 350 true
    true BottomCenter quality None 1 (ofString mask) mode Cross None 50 50 50.

Definition ultimateItem (nm : string) (sz : N) : Ultimate.ImageItem :=
  Ultimate.mkImageItem (ofString nm) (ofString nm) (Some (mkBitmap 800 600))
    (ofString nm) sz.

Definition ikkoItem (nm : string) (sz : N) : Ikko.ImageData :=
  Ikko.mkImageData (ofString nm) (ofString nm) (ofString nm) sz.

Definition names5 : list string := ["a"; "b"; "c"; "d"; "e"]%string.

Definition ultimateGallery (n : nat) : list Ultimate.ImageItem :=
  map (fun nm => ultimateItem nm 1000) (take n names5).

Definition ikkoGallery (n : nat) : list Ikko.ImageData :=
  map (fun nm => ikkoItem nm 1000) (take n names5).

Definition ultimateState (n : nat) (s : Ultimate.AppSettings)
  : UltimateApp.AppState :=
  UltimateApp.mkAppState (ultimateGallery n) s [] None None.

Definition ikkoState (n : nat) (s : Ikko.AppSettings) : IkkoApp.AppState :=
  IkkoApp.mkAppState (ikkoGallery n) s [].

(** Every URL decodes to an 800 x 600 picture; every page encodes. *)
Definition decodeAll : list N -> option Bitmap := fun _ => Some (mkBitmap 800 600).
Definition encodeAll : nat -> bool := fun _ => true.

End Samples.

(** ** Observing a run *)

Module Observe.
Import Js Poll Canvas Aux Samples.

(** Per page: the pictures drawn and the numbers printed, in drawing order. *)
Definition pagesSummary (blobs : list Blob) : list (list (list N) * list Z) :=
  map (fun b => (drawnSources (surface b), printedNumbers (surface b))) blobs.

(** The published pages ([generatedBlobs]) and the local array of a run of
    the [Ultimate] engine under the flag readings [sigma]. *)
Definition ultimatePublished (st : UltimateApp.AppState) (op : UltimateApp.OpType)
    (encodes : nat -> bool) (sigma : nat -> bool) : option (list Blob) :=
  match fst (run (UltimateApp.startGeneration st op encodes) sigma) with
  | Some r => Some (UltimateApp.generatedBlobs (UltimateApp.after r))
  | None => None
  end.

Definition ultimateLocal (st : UltimateApp.AppState) (op : UltimateApp.OpType)
    (encodes : nat -> bool) (sigma : nat -> bool) : option (list Blob) :=
  match fst (run (UltimateApp.startGeneration st op encodes) sigma) with
  | Some r => Some (UltimateApp.newBlobs r)
  | None => None
  end.

(** Number of reads of the flag the run makes. *)
Definition ultimateReads (st : UltimateApp.AppState) (op : UltimateApp.OpType)
    (encodes : nat -> bool) (sigma : nat -> bool) : nat :=
  snd (run (UltimateApp.startGeneration st op encodes) sigma).

Definition ikkoPublished (decode : list N -> option Bitmap) (st : IkkoApp.AppState)
    (op : IkkoApp.OpType) (encodes : nat -> bool) (sigma : nat -> bool)
  : option (list Blob) :=
  match fst (run (IkkoApp.generate decode encodes st op) sigma) with
  | Some r => Some (IkkoApp.generatedBlobs (IkkoApp.after r))
  | None => None
  end.

Definition ikkoLocal (decode : list N -> option Bitmap) (st : IkkoApp.AppState)
    (op : IkkoApp.OpType) (encodes : nat -> bool) (sigma : nat -> bool)
  : option (list Blob) :=
  match fst (run (IkkoApp.generate decode encodes st op) sigma) with
  | Some r => Some (IkkoApp.blobsOf r)
  | None => None
  end.

Definition ikkoReads (decode : list N -> option Bitmap) (st : IkkoApp.AppState)
    (op : IkkoApp.OpType) (encodes : nat -> bool) (sigma : nat -> bool) : nat :=
  snd (run (IkkoApp.generate decode encodes st op) sigma).

(** Five pictures [a .. e], start number 1, mask text ["2"]. *)
Definition ultimateRepack5 : UltimateApp.AppState :=
  ultimateState 5 (ultimateSettings 3 0 0 (75 # 100) "2" ModeLine 80 "0.80").

Definition ikkoRepack5 : IkkoApp.AppState :=
  ikkoState 5 (ikkoSettings 3 0 0 (75 # 100) "2" ModeLine 80).

(** Per page: the format and the ratio handed to the encoder. *)
Definition pagesFormat (blobs : list Blob) : list (Mime * option Q) :=
  map (fun b => (mimeType b, qVal b)) blobs.

(** Quality typed as 100 under the preset "custom" (engine [Ultimate]);
    quality typed as 150 (engine [Ikko]). *)
Definition customQuality100 : Ultimate.AppSettings :=
  ultimateSettings 3 0 0 (75 # 100) "" ModeLine 100 "custom".

Definition quality150 : Ikko.AppSettings :=
  ikkoSettings 3 0 0 (75 # 100) "" ModeLine 150.

(** The format rule of each engine, as a property of a blob. *)
Definition ultimateFormatRule (s : Ultimate.AppSettings) (b : Blob) : Prop :=
  if decide (Ultimate.qualityPreset s = ofString "1.0")
  then mimeType b = ImagePng /\ qVal b = None
  else mimeType b = ImageJpeg
       /\ qVal b = Some (q (Ultimate.quality s) / 100)%Q.

Definition ikkoFormatRule (s : Ikko.AppSettings) (b : Blob) : Prop :=
  if decide (100 <= Ikko.exportQuality s)%Z
  then mimeType b = ImagePng /\ qVal b = None
  else mimeType b = ImageJpeg
       /\ qVal b = Some (q (Ikko.exportQuality s) / 100)%Q.

(** Three pictures, one column, one row per page: three planned pages.  In
    both engines the first page costs four reads of the flag (loop head, two
    inside [drawAsync], one before encoding), so read number 4 is the first
    one after page 1 has been encoded. *)
Definition threePagesUltimate : UltimateApp.AppState :=
  ultimateState 3 (ultimateSettings 1 1 0 (75 # 100) "" ModeLine 80 "0.80").

Definition threePagesIkko : IkkoApp.AppState :=
  ikkoState 3 (ikkoSettings 1 1 0 (75 # 100) "" ModeLine 80).

Definition afterFirstPage : nat -> bool := from 4.

(** The mask scenario: start number 1, global offset 0, mask text ["2"],
    four pictures, two columns; line mode, then sticker mode with no sticker
    picture loaded. *)
Definition maskScenario (mode : MaskMode) : Ultimate.AppSettings :=
  ultimateSettings 2 0 0 (75 # 100) "2" mode 80 "0.80".

(** The options engine [Ikko] hands to [drawAsync] for the only page of a
    run over [n] pictures with two columns and mask text ["2"]. *)
Definition ikkoMaskOptions (n : nat) (op : IkkoApp.OpType) : Ikko.DrawOptions :=
  let st := ikkoState n (ikkoSettings 2 0 0 (75 # 100) "2" ModeLine 80) in
  IkkoApp.drawOptions st op (IkkoApp.targets st op) 4 0 2.

(** Two pictures whose names and sizes differ but whose keys coincide:
    "img1" with 2048 bytes and "img" with 12048 bytes both have the key
    "img12048". *)
Definition collidingGallery : UltimateApp.AppState :=
  UltimateApp.mkAppState [ultimateItem "img1" 2048; ultimateItem "img" 12048]
    ULTIMATE_DEFAULT [] None None.

(** One encoded page of 1000 x 30000 pixels: taller than the combine
    ceiling. *)
Definition tallPage : Blob := mkBlob ImageJpeg (Some (8 # 10)) 1000 30000 [].

(** A cell taller than the safe height: custom ratio 100 : 2000. *)
Definition tallCellSettings : Ultimate.AppSettings :=
  ultimateSettings 3 0 0 (1 # 20) "" ModeLine 80 "0.80".

End Observe.

(** ** Measures used in statements about the parser *)

Module Measures.
Import Js IndexParser.

(** Number of dash characters of a part: hyphens and the characters that
    are normalised to a hyphen. *)
Definition dashes (s : jsstr) : nat :=
  length (filter (fun c => isDashLike c || (c =? hyphen)%N = true) s).

(** A code unit a number token is made of: no separator, no white space, no
    dash. *)
Definition plainChar (c : N) : bool :=
  negb (isSeparator c || isDashLike c || (c =? hyphen)%N).

End Measures.

(** ** The gallery handlers of the two applications *)

Module Gallery.
Import Js Canvas.

(** [const [moved] = list.splice(i, 1)]: the element taken out, if there is
    one, and the list without it. *)
Definition spliceOut {A} (l : list A) (i : nat) : option A * list A :=
  (l !! i, delete i l).

(** [list.splice(i, 0, x)]: the insertion index is clamped to the length. *)
Definition spliceIn {A} (l : list A) (i : nat) (x : A) : list A :=
  take i l ++ x :: drop i l.

(** The [onEnd] handler of the sortable grid in engine [Ultimate], for an
    event that carries both indices.  [None]: [oldIndex] is out of range,
    [moved] is [undefined] and the list would hold an [undefined] entry. *)
Definition ultimateOnEnd {A} (prev : list A) (oldIndex newIndex : nat)
  : option (list A) :=
  let '(moved, list) := spliceOut prev oldIndex in
  match moved with
  | Some m => Some (spliceIn list newIndex m)
  | None => None
  end.

(** The same handler in engine [Ikko], which ignores a drop in place. *)
Definition ikkoOnEnd {A} (prev : list A) (oldIndex newIndex : nat)
  : option (list A) :=
  if (oldIndex =? newIndex)%nat then Some prev
  else
    let '(removed, newItems) := spliceOut prev oldIndex in
    match removed with
    | Some m => Some (spliceIn newItems newIndex m)
    | None => None
    end.

(** *** Engine [Ultimate]: the duplicate counter *)

(** [images.length - new Set(images.map(i => i.name + i.size)).size] *)
Definition duplicateCount (st : UltimateApp.AppState) : Z :=
  (Z.of_nat (length (UltimateApp.images st))
   - Z.of_nat (size (list_to_set (map UltimateApp.dupKey (UltimateApp.images st))
                     : gset (list N))))%Z.

(** The ids [removeDuplicates] hands to [deleteImageFromDB]. *)
Definition removeIds (st : UltimateApp.AppState) : list jsstr :=
  snd (UltimateApp.dedupLoop (UltimateApp.images st) ∅).

(** *** Engine [Ultimate]: [deleteImage], [replaceImage] *)

(** The handlers once the user has confirmed.  [None] stands for
    [activeImgIndex === null]; an index out of range makes the handler throw
    before it sets the state. *)
Definition deleteImage (st : UltimateApp.AppState) (activeImgIndex : option nat)
  : UltimateApp.AppState :=
  match activeImgIndex with
  | Some i =>
      match UltimateApp.images st !! i with
      | Some _ => UltimateApp.setImages st (delete i (UltimateApp.images st))
      | None => st
      end
  | None => st
  end.

(** [{...oldItem, url: newUrl, file, name: file.name, size: file.size}] *)
Definition replaceImage (st : UltimateApp.AppState) (activeImgIndex : option nat)
    (newUrl : jsstr) (file : option Bitmap) (fileName : jsstr) (fileSize : N)
  : UltimateApp.AppState :=
  match activeImgIndex with
  | Some i =>
      match UltimateApp.images st !! i with
      | Some oldItem =>
          UltimateApp.setImages st
            (<[i := Ultimate.mkImageItem (Ultimate.id oldItem) newUrl file
                      fileName fileSize]> (UltimateApp.images st))
      | None => st
      end
  | None => st
  end.

(** *** Engine [Ultimate]: the saved order and [restoreSession] *)

(** The effect that saves the order: the list of ids, or nothing for an
    empty gallery. *)
Definition savedOrder (images : list Ultimate.ImageItem) : option (list jsstr) :=
  match images with
  | [] => None
  | _ => Some (map Ultimate.id images)
  end.

(** A [Map] keeps its keys in insertion order; setting a key that is present
    replaces the value in place. *)
Fixpoint mapSet (m : list (jsstr * Ultimate.ImageItem)) (k : jsstr)
    (v : Ultimate.ImageItem) : list (jsstr * Ultimate.ImageItem) :=
  match m with
  | [] => [(k, v)]
  | (k', v') :: rest =>
      if decide (k' = k) then (k, v) :: rest else (k', v') :: mapSet rest k v
  end.

(** [new Map(savedImages.map(img => [img.id, img]))] *)
Definition newMap (entries : list Ultimate.ImageItem)
  : list (jsstr * Ultimate.ImageItem) :=
  fold_left (fun m img => mapSet m (Ultimate.id img) img) entries [].

Fixpoint mapGet (m : list (jsstr * Ultimate.ImageItem)) (k : jsstr)
  : option Ultimate.ImageItem :=
  match m with
  | [] => None
  | (k', v) :: rest => if decide (k' = k) then Some v else mapGet rest k
  end.

Definition mapDelete (m : list (jsstr * Ultimate.ImageItem)) (k : jsstr)
  : list (jsstr * Ultimate.ImageItem) :=
  filter (fun p => fst p <> k) m.

(** [orderIds.forEach(id => { if (imgMap.has(id)) { orderedImages.push(
    imgMap.get(id)); imgMap.delete(id); } })] *)
Fixpoint orderLoop (orderIds : list jsstr) (imgMap : list (jsstr * Ultimate.ImageItem))
    (orderedImages : list Ultimate.ImageItem)
  : list Ultimate.ImageItem * list (jsstr * Ultimate.ImageItem) :=
  match orderIds with
  | [] => (orderedImages, imgMap)
  | i :: rest =>
      match mapGet imgMap i with
      | Some img => orderLoop rest (mapDelete imgMap i) (orderedImages ++ [img])
      | None => orderLoop rest imgMap orderedImages
      end
  end.

(** [savedImages] is what [loadImagesFromDB] returned, [orderIds] the parsed
    order list when one is stored. *)
Definition restoreSession (st : UltimateApp.AppState)
    (savedImages : list Ultimate.ImageItem) (orderIds : option (list jsstr))
  : UltimateApp.AppState :=
  if (0 <? length savedImages)%nat then
    match orderIds with
    | Some ids =>
        let '(orderedImages, imgMap) := orderLoop ids (newMap savedImages) [] in
        UltimateApp.setImages st (orderedImages ++ map snd imgMap)
    | None => UltimateApp.setImages st savedImages
    end
  else st.

End Gallery.

(** ** Importing files *)

Module FileImport.
Import Js Poll Canvas.

(** A [File]: its MIME type, its name, its size, and what decoding it
    yields. *)
Record File := mkFile {
  ftype : jsstr;
  fname : jsstr;
  fsize : N;
  fdecoded : option Bitmap
}.

(** [s.startsWith(p)] *)
Definition startsWith (s p : jsstr) : bool :=
  bool_decide (take (length p) s = p).

(** Case folding of a regular expression with the [i] flag and without the
    [u] flag, on the code units that can match an ASCII letter. *)
Definition foldCase (c : N) : N :=
  if ((65 <=? c) && (c <=? 90))%N then (c + 32)%N else c.

(** [s] ends with [suffix], ignoring the case of ASCII letters. *)
Definition endsWithFold (s suffix : jsstr) : bool :=
  bool_decide (map foldCase (drop (length s - length suffix) s) = suffix)
  && (length suffix <=? length s)%nat.

(** [name.match(/\.(jpg|jpeg|png|gif|webp)$/i)] *)
Definition imageExtension (name : jsstr) : bool :=
  existsb (fun ext => endsWithFold name (ofString ext))
    [".jpg"; ".jpeg"; ".png"; ".gif"; ".webp"]%string.

(** Engine [Ultimate]: [f.type.startsWith('image/')] *)
Definition ultimateAccepts (f : File) : bool :=
  startsWith (ftype f) (ofString "image/").

(** Engine [Ikko]: the type test or the name test. *)
Definition ikkoAccepts (f : File) : bool :=
  startsWith (ftype f) (ofString "image/") || imageExtension (fname f).

Section Importing.

(** The random id and the object URL made for the file at position [k] of
    the selection. *)
Variable freshId : nat -> jsstr.
Variable objectUrl : nat -> jsstr.

(** *** Engine [Ultimate]: [handleFileSelect] *)

Definition ultimateItemAt (files : list File) (k : nat) : list Ultimate.ImageItem :=
  match files !! k with
  | Some f =>
      if ultimateAccepts f
      then [Ultimate.mkImageItem (freshId k) (objectUrl k) (fdecoded f)
              (fname f) (fsize f)]
      else []
  | None => []
  end.

Definition handleFileSelect (st : UltimateApp.AppState) (files : list File)
  : UltimateApp.AppState :=
  match files with
  | [] => st
  | _ =>
      UltimateApp.setImages st
        (UltimateApp.images st
         ++ flat_map (ultimateItemAt files) (seq 0 (length files)))
  end.

(** *** Engine [Ikko]: [handleFiles] *)

Definition CHUNK_SIZE : nat := 40.

Definition ikkoItemAt (files : list File) (k : nat) : list Ikko.ImageData :=
  match files !! k with
  | Some f =>
      if ikkoAccepts f
      then [Ikko.mkImageData (freshId k) (objectUrl k) (fname f) (fsize f)]
      else []
  | None => []
  end.

(** The pictures made from [fileList.slice(startIndex, endIndex)]. *)
Definition chunkImages (files : list File) (startIndex : nat) : list Ikko.ImageData :=
  let endIndex := Nat.min (startIndex + CHUNK_SIZE) (length files) in
  flat_map (ikkoItemAt files) (seq startIndex (endIndex - startIndex)).

(** The values [startIndex] takes below the length of the selection. *)
Definition chunkStarts (len : nat) : list nat :=
  map (fun k => k * CHUNK_SIZE) (seq 0 ((len + (CHUNK_SIZE - 1)) / CHUNK_SIZE)).

(** [processNextChunk]: every call reads the flag first; the call whose
    [startIndex] has reached the length only reads it. *)
Fixpoint processNextChunk (files : list File) (starts : list nat)
    (images : list Ikko.ImageData) : M (list Ikko.ImageData) :=
  match starts with
  | [] => c ← isCancelled; mret images
  | startIndex :: rest =>
      c ← isCancelled;
      if c : bool then mret images
      else processNextChunk files rest (images ++ chunkImages files startIndex)
  end.

Definition handleFiles (st : IkkoApp.AppState) (files : list File)
  : M IkkoApp.AppState :=
  match files with
  | [] => mret st
  | _ =>
      images ← processNextChunk files (chunkStarts (length files)) (IkkoApp.images st);
      mret (IkkoApp.mkAppState images (IkkoApp.settings st) (IkkoApp.generatedBlobs st))
  end.

End Importing.

End FileImport.

(** ** Downloading the pages *)

Module Downloads.
Import Js Canvas.

Local Open Scope Z_scope.

Inductive Ext := ExtPng | ExtJpg.

(** A file name [拼图_Part_<number>.<ext>]: its number and its extension. *)
Definition PartName : Type := nat * Ext.

(** [blob.type.includes('png') ? 'png' : 'jpg'] *)
Definition extOfBlob (b : Blob) : Ext :=
  match mimeType b with ImagePng => ExtPng | ImageJpeg => ExtJpg end.

(** *** Engine [Ultimate]: [handleDownload] *)

(** [settings.qualityPreset === '1.0' ? 'png' : 'jpg'] *)
Definition ultimateExt (s : Ultimate.AppSettings) : Ext :=
  if UltimateApp.isPng s then ExtPng else ExtJpg.

(** The entries of the archive made by [handleDownload('zip')]. *)
Definition ultimateZipNames (st : UltimateApp.AppState) : list (PartName * Blob) :=
  imap (fun i b => ((S i, ultimateExt (UltimateApp.settings st)), b))
    (UltimateApp.generatedBlobs st).

(** The files sent by [handleDownload('parts')]. *)
Definition ultimatePartsNames (st : UltimateApp.AppState) : list (PartName * Blob) :=
  imap (fun i b => ((S i, extOfBlob b), b)) (UltimateApp.generatedBlobs st).

(** *** Engine [Ikko]: [downloadZip], [downloadParts], [combineAndDownload] *)

(** [settings.exportQuality === 100 ? 'png' : 'jpg'] *)
Definition ikkoExt (s : Ikko.AppSettings) : Ext :=
  if Ikko.exportQuality s =? 100 then ExtPng else ExtJpg.

(** [downloadZip] and [downloadParts] name the pages alike. *)
Definition ikkoPartNames (st : IkkoApp.AppState) : list (PartName * Blob) :=
  imap (fun i b => ((S i, ikkoExt (IkkoApp.settings st)), b))
    (IkkoApp.generatedBlobs st).

Definition COMBINE_MAX_IMAGES : nat := 100.
Definition COMBINE_PIXELS : Z := 50000000.

(** The picture made by [combineAndDownload]: the size of the surface, where
    every page is drawn (its vertical offset and its height, unscaled), the
    format and the ratio handed to the encoder, and the extension of the
    file name. *)
Record IkkoCombined := mkIkkoCombined {
  cWidth : Z;
  cHeight : Z;
  cStrips : list (Z * Z);
  cMime : Mime;
  cRatio : Q;
  cExt : Ext
}.

(** [for (const bmp of bitmaps) { ctx.drawImage(bmp, 0, y); y += bmp.height; }] *)
Fixpoint stack (blobs : list Blob) (y : Z) : list (Z * Z) :=
  match blobs with
  | [] => []
  | b :: rest => (y, height b) :: stack rest (y + height b)
  end.

(** [None]: the handler refuses (more than 100 pictures in the gallery) or
    gives up with an alert (no page, or more than 50 million pixels). *)
Definition combineAndDownload (st : IkkoApp.AppState) : option IkkoCombined :=
  if (COMBINE_MAX_IMAGES <? length (IkkoApp.images st))%nat then None
  else
    match IkkoApp.generatedBlobs st with
    | [] => None
    | first :: _ =>
        let totalH :=
          fold_left (fun sum b => sum + height b) (IkkoApp.generatedBlobs st) 0 in
        let maxW := width first in
        if maxW * totalH >? COMBINE_PIXELS then None
        else
          let s := IkkoApp.settings st in
          Some (mkIkkoCombined maxW totalH
                  (stack (IkkoApp.generatedBlobs st) 0)
                  (if Ikko.exportQuality s =? 100 then ImagePng else ImageJpeg)
                  (Canvas.q (Ikko.exportQuality s) / 100)%Q
                  (ikkoExt s))
    end.

End Downloads.

(** ** The previews *)

Module Preview.
Import Js Poll Canvas.

Local Open Scope Z_scope.

(** *** The sticker preview ([drawPreviewContent]) *)

(** Where the preview of engine [Ultimate] draws the sticker on a surface of
    [w] x [h]: [(dx, dy, sw, sh)].  Nothing is drawn without a sticker
    picture of non-zero width. *)
Definition ultimatePreviewSticker (stickerImg : option Bitmap)
    (s : Ultimate.AppSettings) (w h : Z) : option (Q * Q * Q * Q) :=
  match stickerImg with
  | Some st =>
      if bw st =? 0 then None
      else
        let sPct := (q (Ultimate.stickerSize s) / 100)%Q in
        let xPct := (q (Ultimate.stickerX s) / 100)%Q in
        let yPct := (q (Ultimate.stickerY s) / 100)%Q in
        let sw := (q w * sPct)%Q in
        let sh := (sw * (q (bh st) / q (bw st)))%Q in
        let dx := (q w * xPct - sw / 2)%Q in
        let dy := (q h * yPct - sh / 2)%Q in
        Some (dx, dy, sw, sh)
  | None => None
  end.

(** The same for engine [Ikko]. *)
Definition ikkoPreviewSticker (stickerImgRef : option Bitmap)
    (s : Ikko.AppSettings) (w h : Z) : option (Q * Q * Q * Q) :=
  match stickerImgRef with
  | Some img =>
      let sizePct := (q (Ikko.stickerSize s) / 100)%Q in
      let sw := (q w * sizePct)%Q in
      let sh := (sw * (q (bh img) / q (bw img)))%Q in
      let dx := (q w * q (Ikko.stickerX s) / 100 - sw / 2)%Q in
      let dy := (q h * q (Ikko.stickerY s) / 100 - sh / 2)%Q in
      Some (dx, dy, sw, sh)
  | None => None
  end.

(** *** Engine [Ikko]: [previewOverlay] *)

(** [{ ...settings, showNum: false }] *)
Definition withoutNumbers (s : Ikko.AppSettings) : Ikko.AppSettings :=
  Ikko.mkAppSettings (Ikko.aspectRatio s) (Ikko.isCustomRatio s) (Ikko.customW s)
    (Ikko.customH s) (Ikko.gap s) (Ikko.cols s) (Ikko.groupRows s) false
    (Ikko.startNumber s) (Ikko.fontSize s) (Ikko.enableStroke s)
    (Ikko.enableShadow s) (Ikko.fontPos s) (Ikko.exportQuality s)
    (Ikko.overlayImgUrl s) (Ikko.overlayOpacity s) (Ikko.maskIndicesStr s)
    (Ikko.maskMode s) (Ikko.lineStyle s) (Ikko.stickerImgUrl s)
    (Ikko.stickerSize s) (Ikko.stickerX s) (Ikko.stickerY s).

(** The first nine pictures, padded with the first one:
    [while (previewImgs.length < 9 && images.length > 0) previewImgs.push(images[0].url)] *)
Definition previewImgs (images : list Ikko.ImageData) : list jsstr :=
  let first9 := map Ikko.url (take 9 images) in
  match images with
  | [] => first9
  | img0 :: _ => first9 ++ replicate (9 - length first9)%nat (Ikko.url img0)
  end.

Definition previewOptions (st : IkkoApp.AppState) : Ikko.DrawOptions :=
  let s := IkkoApp.settings st in
  Ikko.mkDrawOptions (previewImgs (IkkoApp.images st)) 3 3 200
    (Qfloor (200 / IkkoApp.getRatio s)) (Z.max 0 (Ikko.gap s / 5)) 0 1 []
    (withoutNumbers s) false.

(** What the preview surface carries; [None]: the handler only alerts (no
    picture, or no overlay picture chosen).  The render is never
    cancelled. *)
Definition previewOverlay (decode : jsstr -> option Bitmap) (st : IkkoApp.AppState)
  : option (list DrawOp) :=
  match IkkoApp.images st, Ikko.overlayImgUrl (IkkoApp.settings st) with
  | _ :: _, Some _ =>
      Some (fst (Ikko.drawAsync decode (previewOptions st) never 0%nat))
  | _, _ => None
  end.

End Preview.

(** ** Measures used in statements about the combined picture *)

Module StripMeasures.

Local Open Scope Z_scope.

(** Summed height of the strips, and: every strip starts where the one
    before it ends, the first one at [y0]. *)
Definition stripsHeight (l : list (Z * Z)) : Z :=
  fold_right (fun p acc => snd p + acc) 0 l.

Fixpoint contiguous (y0 : Z) (l : list (Z * Z)) : Prop :=
  match l with
  | [] => True
  | (y, h) :: rest => y = y0 /\ contiguous (y0 + h) rest
  end.

End StripMeasures.

(** ** Runs and renders used as instances *)

Module Scenes.
Import Js Poll Canvas Aux Samples Observe.

(** A render of five pictures that finds the flag set at its fourth read,
    that is after the first chunk of four. *)
Definition interruptedRender : option Ultimate.DrawResult * nat :=
  Ultimate.drawAsync (ultimateGallery 5) ULTIMATE_DEFAULT 0 [] None None (from 3) 0.

Definition interruptedResult : Ultimate.DrawResult :=
  match fst interruptedRender with
  | Some r => r
  | None => Ultimate.mkDrawResult [] true
  end.

(** Uninterrupted runs over three pictures, one per page. *)
Definition wholeRunUltimate : UltimateApp.Run :=
  match fst (UltimateApp.startGeneration threePagesUltimate UltimateApp.Normal
               encodeAll never 0) with
  | Some r => r
  | None => UltimateApp.mkRun threePagesUltimate []
  end.

Definition wholeRunIkko : IkkoApp.Run :=
  match fst (IkkoApp.generate decodeAll encodeAll threePagesIkko IkkoApp.Normal
               never 0) with
  | Some r => r
  | None => IkkoApp.mkRun threePagesIkko []
  end.

(** Settings with an overlay picture chosen. *)
Definition withOverlay (s : Ikko.AppSettings) : Ikko.AppSettings :=
  Ikko.mkAppSettings (Ikko.aspectRatio s) (Ikko.isCustomRatio s) (Ikko.customW s)
    (Ikko.customH s) (Ikko.gap s) (Ikko.cols s) (Ikko.groupRows s) (Ikko.showNum s)
    (Ikko.startNumber s) (Ikko.fontSize s) (Ikko.enableStroke s)
    (Ikko.enableShadow s) (Ikko.fontPos s) (Ikko.exportQuality s)
    (Some (ofString "overlay")) (Ikko.overlayOpacity s) (Ikko.maskIndicesStr s)
    (Ikko.maskMode s) (Ikko.lineStyle s) (Ikko.stickerImgUrl s)
    (Ikko.stickerSize s) (Ikko.stickerX s) (Ikko.stickerY s).

End Scenes.

(* ===================================================================== *)
(** * Part II. Theorems *)
(* ===================================================================== *)

Import Js IndexParser Poll Canvas Aux Samples Observe.

(** ** The index parser *)

Section ParserFacts.

Local Open Scope Z_scope.

Lemma includes_In (l : list Z) (n : Z) : includes l n = true <-> In n l.
Proof.
  unfold includes. rewrite existsb_exists. split.
  - intros [x [Hx Heq]]. apply Z.eqb_eq in Heq. by subst.
  - intros H. exists n. split; [done | apply Z.eqb_refl].
Qed.

Lemma includes_false (l : list Z) (n : Z) : includes l n = false <-> ~ In n l.
Proof.
  rewrite <- includes_In. destruct (includes l n); split; intros; congruence.
Qed.

Lemma parse_example_list :
  parseMaskIndices (ofString "5, 12, 1-3") = [5; 12; 1; 2; 3].
Proof. vm_compute. reflexivity. Qed.

Lemma parse_reversed_list : parseMaskIndices (ofString "3-1") = [1; 2; 3].
Proof. vm_compute. reflexivity. Qed.

Lemma parse_garbage_list : parseMaskIndices (ofString "abc, 5") = [5].
Proof. vm_compute. reflexivity. Qed.

End ParserFacts.

(** C7.  As sets of members: [parse("5, 12, 1-3") = {1,2,3,5,12}],
    [parse("") = {}], [parse("3-1") = {1,2,3}] (a reversed range is
    normalised) and [parse("abc, 5") = {5}] (the non-numeric token is
    skipped, nothing is raised: the parser is a total function). *)
Theorem C7_index_parser_examples :
  (forall k : Z, In k (parseMaskIndices (ofString "5, 12, 1-3"))
                 <-> In k [1; 2; 3; 5; 12]%Z)
  /\ (forall k : Z, In k (parseMaskIndices (ofString "")) <-> In k [])
  /\ (forall k : Z, In k (parseMaskIndices (ofString "3-1")) <-> In k [1; 2; 3]%Z)
  /\ (forall k : Z, In k (parseMaskIndices (ofString "abc, 5")) <-> In k [5]%Z).
Proof.
  rewrite parse_example_list, parse_reversed_list, parse_garbage_list.
  change (parseMaskIndices (ofString "")) with (@nil Z).
  repeat split; simpl; intros; tauto.
Qed.

(** ** Slicing a list into pages *)

Section Slices.

Context {A : Type}.
Implicit Types (l : list A) (P t b : nat).

Lemma pageSlice_length l P b :
  length (pageSlice l P b) = Nat.min ((b + 1) * P) (length l) - b * P.
Proof.
  unfold pageSlice, slice. rewrite length_take, length_drop. lia.
Qed.

Lemma pageSlice_full l P b :
  (b + 1) * P <= length l -> length (pageSlice l P b) = P.
Proof. intros H. rewrite pageSlice_length. lia. Qed.

Lemma pageSlices_take l P t :
  concat (map (pageSlice l P) (seq 0 t)) = take (t * P) l.
Proof.
  induction t as [|t IH]; [done|].
  rewrite seq_S, map_app, concat_app, IH. simpl. rewrite app_nil_r.
  unfold pageSlice, slice. rewrite take_take_drop.
  destruct (decide ((t + 1) * P <= length l)) as [Hle|Hgt].
  - f_equal. lia.
  - rewrite !take_ge by lia. done.
Qed.

Lemma pageSlices_concat l P t :
  length l <= t * P -> concat (map (pageSlice l P) (seq 0 t)) = l.
Proof. intros H. rewrite pageSlices_take. by apply take_ge. Qed.

End Slices.

Section Ceil.

Local Open Scope Z_scope.

(** [ceilDiv] is the least multiple count covering [n]. *)
Lemma ceilDiv_pos (n d : Z) :
  0 < d -> exists t, ceilDiv n d = Some t /\ n <= t * d < n + d.
Proof.
  intros Hd. unfold ceilDiv. destruct (Z.eqb_spec d 0) as [->|_]; [lia|].
  eexists; split; [reflexivity|].
  pose proof (Z.div_mod (- n) d ltac:(lia)) as E.
  pose proof (Z.mod_pos_bound (- n) d Hd) as B.
  nia.
Qed.

Lemma ceil_unique (n d t t' : Z) :
  0 < d -> n <= t * d < n + d -> n <= t' * d < n + d -> t = t'.
Proof. intros. nia. Qed.

Lemma ceilDiv_formula (n d : Z) :
  0 < d -> ceilDiv n d = Some ((n + d - 1) / d).
Proof.
  intros Hd. destruct (ceilDiv_pos n d Hd) as (t & -> & Ht). f_equal.
  apply (ceil_unique n d); [done..|].
  pose proof (Z.div_mod (n + d - 1) d ltac:(lia)) as E.
  pose proof (Z.mod_pos_bound (n + d - 1) d Hd) as B.
  nia.
Qed.

End Ceil.

(** ** The batch partitioner *)

Section Partition.

Local Open Scope Z_scope.

Lemma slice_bounds_nat (b len : nat) (bsz : Z) :
  0 <= bsz ->
  Z.to_nat (Z.of_nat b * bsz) = (b * Z.to_nat bsz)%nat
  /\ Z.to_nat (Z.min ((Z.of_nat b + 1) * bsz) (Z.of_nat len))
     = Nat.min ((b + 1) * Z.to_nat bsz) len.
Proof. intros H. split; nia. Qed.

Lemma batchIndices_pageSlice (targets : list nat) (bsz : Z) (b : nat) :
  0 <= bsz ->
  UltimateApp.batchIndices targets bsz b = pageSlice targets (Z.to_nat bsz) b.
Proof.
  intros H. unfold UltimateApp.batchIndices, pageSlice.
  destruct (slice_bounds_nat b (length targets) bsz H) as [-> ->]. done.
Qed.

Lemma currentImgs_pageSlice (tg : list jsstr) (bsz : Z) (b : nat) :
  0 <= bsz -> IkkoApp.currentImgs tg bsz b = pageSlice tg (Z.to_nat bsz) b.
Proof.
  intros H. unfold IkkoApp.currentImgs, pageSlice.
  destruct (slice_bounds_nat b (length tg) bsz H) as [-> ->]. done.
Qed.

Lemma totalBatches_pos (len : nat) (bsz : Z) :
  1 <= bsz ->
  exists t, UltimateApp.totalBatches len bsz = Some t
    /\ IkkoApp.totalBatches len bsz = Some t
    /\ Z.of_nat t = (Z.of_nat len + bsz - 1) / bsz
    /\ Z.of_nat len <= Z.of_nat t * bsz < Z.of_nat len + bsz.
Proof.
  intros H. unfold UltimateApp.totalBatches, IkkoApp.totalBatches.
  destruct (ceilDiv_pos (Z.of_nat len) bsz ltac:(lia)) as (t & E & B).
  rewrite E. exists (Z.to_nat t).
  assert (0 <= t) by nia.
  rewrite Z2Nat.id by done. repeat split; try done; try lia.
  rewrite ceilDiv_formula in E by lia. congruence.
Qed.

(** Sizes of the pages of a list of [N >= 1] items for a capacity [P >= 1]:
    [t] full pages or [t - 1] full pages and a shorter last one. *)
Lemma pageSlice_sizes {A} (l : list A) (bsz : Z) (t : nat) :
  1 <= bsz -> (1 <= length l)%nat ->
  Z.of_nat (length l) <= Z.of_nat t * bsz < Z.of_nat (length l) + bsz ->
  (forall b, (b + 1 < t)%nat ->
     Z.of_nat (length (pageSlice l (Z.to_nat bsz) b)) = bsz)
  /\ Z.of_nat (length (pageSlice l (Z.to_nat bsz) (t - 1)))
     = (if Z.of_nat (length l) mod bsz =? 0 then bsz
        else Z.of_nat (length l) mod bsz).
Proof.
  intros Hb Hl Ht. split.
  - intros b Hbt. rewrite pageSlice_full; [lia|]. nia.
  - rewrite pageSlice_length.
    assert (1 <= t)%nat by nia.
    pose proof (Z.div_mod (Z.of_nat (length l)) bsz ltac:(lia)) as E.
    pose proof (Z.mod_pos_bound (Z.of_nat (length l)) bsz ltac:(lia)) as B.
    set (qq := Z.of_nat (length l) / bsz) in *.
    set (r := Z.of_nat (length l) mod bsz) in *.
    destruct (Z.eqb_spec r 0) as [E0|E0].
    + assert (Z.of_nat t = qq) by nia. nia.
    + assert (Z.of_nat t = qq + 1) by nia. nia.
Qed.

End Partition.

Section PartitionPages.

Local Open Scope Z_scope.

Lemma targetIndices_valid (st : UltimateApp.AppState) (op : UltimateApp.OpType) :
  Forall (fun i => (i < length (UltimateApp.images st))%nat)
    (UltimateApp.targetIndices st op).
Proof.
  assert (Forall (fun i => (i < length (UltimateApp.images st))%nat)
            (seq 0 (length (UltimateApp.images st)))) as Hall.
  { apply Forall_forall. intros i Hi. apply elem_of_seq in Hi. lia. }
  unfold UltimateApp.targetIndices. destruct op; try done.
  apply Forall_forall. intros i Hi. apply list_elem_of_filter in Hi as [_ Hi].
  apply elem_of_seq in Hi. lia.
Qed.

Lemma omap_lookup_length {A} (imgs : list A) (l : list nat) :
  Forall (fun i => (i < length imgs)%nat) l ->
  length (omap (fun i => imgs !! i) l) = length l.
Proof.
  induction 1 as [|i l Hi _ IH]; [done|].
  change (i :: l) with ([i] ++ l). rewrite omap_app, length_app, IH.
  simpl. by destruct (lookup_lt_is_Some_2 imgs i Hi) as [x ->].
Qed.

Lemma omap_concat {A B} (f : A -> option B) (ls : list (list A)) :
  omap f (concat ls) = concat (map (omap f) ls).
Proof.
  induction ls as [|l ls IH]; [done|]. simpl. by rewrite omap_app, IH.
Qed.

Lemma pageSlice_Forall {A} (P : A -> Prop) (l : list A) (n b : nat) :
  Forall P l -> Forall P (pageSlice l n b).
Proof. intros H. unfold pageSlice, slice. by apply Forall_take, Forall_drop. Qed.

End PartitionPages.

(** C3.  For [N >= 1] items (after the optional filter) and a page capacity
    [P >= 1], both engines make [ceil(N / P)] pages; every page but the last
    holds [P] items, the last holds [N mod P] items when that is not zero
    (and [P] otherwise); the pages concatenated in page order are the
    filtered list. *)
Theorem C3_batch_partition
    (st : UltimateApp.AppState) (op : UltimateApp.OpType)
    (ist : IkkoApp.AppState) (iop : IkkoApp.OpType) (P : Z) :
  (1 <= P)%Z ->
  (1 <= length (UltimateApp.targetIndices st op))%nat ->
  (1 <= length (IkkoApp.targets ist iop))%nat ->
  (exists t : nat,
      UltimateApp.totalBatches (length (UltimateApp.targetIndices st op)) P = Some t
      /\ Z.of_nat t = ((Z.of_nat (length (UltimateApp.targetIndices st op)) + P - 1) / P)%Z
      /\ (forall b, (b + 1 < t)%nat ->
            Z.of_nat (length (UltimateApp.batchImages (UltimateApp.images st)
                                (UltimateApp.targetIndices st op) P b)) = P)
      /\ Z.of_nat (length (UltimateApp.batchImages (UltimateApp.images st)
                             (UltimateApp.targetIndices st op) P (t - 1)))
         = (if (Z.of_nat (length (UltimateApp.targetIndices st op)) mod P =? 0)%Z
            then P
            else (Z.of_nat (length (UltimateApp.targetIndices st op)) mod P)%Z)
      /\ concat (map (UltimateApp.batchImages (UltimateApp.images st)
                        (UltimateApp.targetIndices st op) P) (seq 0 t))
         = omap (fun i => UltimateApp.images st !! i) (UltimateApp.targetIndices st op))
  /\ (exists t : nat,
      IkkoApp.totalBatches (length (IkkoApp.targets ist iop)) P = Some t
      /\ Z.of_nat t = ((Z.of_nat (length (IkkoApp.targets ist iop)) + P - 1) / P)%Z
      /\ (forall b, (b + 1 < t)%nat ->
            Z.of_nat (length (IkkoApp.currentImgs (IkkoApp.targets ist iop) P b)) = P)
      /\ Z.of_nat (length (IkkoApp.currentImgs (IkkoApp.targets ist iop) P (t - 1)))
         = (if (Z.of_nat (length (IkkoApp.targets ist iop)) mod P =? 0)%Z
            then P
            else (Z.of_nat (length (IkkoApp.targets ist iop)) mod P)%Z)
      /\ concat (map (IkkoApp.currentImgs (IkkoApp.targets ist iop) P) (seq 0 t))
         = IkkoApp.targets ist iop).
Proof.
  intros HP HU HI. split.
  - set (targets := UltimateApp.targetIndices st op) in *.
    destruct (totalBatches_pos (length targets) P HP) as (t & Et & _ & Ef & Eb).
    destruct (pageSlice_sizes targets P t HP HU Eb) as [Hfull Hlast].
    assert (forall b, length (UltimateApp.batchImages (UltimateApp.images st) targets P b)
                      = length (pageSlice targets (Z.to_nat P) b)) as Hlen.
    { intros b. unfold UltimateApp.batchImages.
      rewrite batchIndices_pageSlice by lia.
      apply omap_lookup_length, pageSlice_Forall, targetIndices_valid. }
    exists t. split; [done|]. split; [done|]. split; [|split].
    + intros b Hb. rewrite Hlen. by apply Hfull.
    + by rewrite Hlen.
    + unfold UltimateApp.batchImages.
      transitivity (omap (fun i => UltimateApp.images st !! i)
                      (concat (map (pageSlice targets (Z.to_nat P)) (seq 0 t)))).
      * rewrite omap_concat, map_map. f_equal.
        apply map_ext. intros b. by rewrite batchIndices_pageSlice by lia.
      * f_equal. apply pageSlices_concat. nia.
  - set (tg := IkkoApp.targets ist iop) in *.
    destruct (totalBatches_pos (length tg) P HP) as (t & _ & Et & Ef & Eb).
    destruct (pageSlice_sizes tg P t HP HI Eb) as [Hfull Hlast].
    exists t. split; [done|]. split; [done|]. split; [|split].
    + intros b Hb. rewrite currentImgs_pageSlice by lia. by apply Hfull.
    + by rewrite currentImgs_pageSlice by lia.
    + transitivity (concat (map (pageSlice tg (Z.to_nat P)) (seq 0 t))).
      * f_equal. apply map_ext. intros b.
        by rewrite currentImgs_pageSlice by lia.
      * apply pageSlices_concat. nia.
Qed.

(** ** Strip-and-repack *)

Section Repack.

Local Open Scope Z_scope.

Lemma pageSlice_lookup {A} (l : list A) (P b j : nat) :
  (j < P)%nat -> (b * P + j < length l)%nat ->
  pageSlice l P b !! j = l !! (b * P + j)%nat.
Proof.
  intros Hj Hlen. unfold pageSlice, slice.
  rewrite lookup_take_lt by lia. by rewrite lookup_drop.
Qed.

Lemma omap_ext_in {A B} (f g : A -> option B) (l : list A) :
  (forall x, x ∈ l -> f x = g x) -> omap f l = omap g l.
Proof.
  induction l as [|x l IH]; [done|]. intros H.
  change (x :: l) with ([x] ++ l). rewrite !omap_app. f_equal.
  - simpl. rewrite (H x); [done | by left].
  - apply IH. intros y Hy. apply H. by right.
Qed.

(** Filtering the pairs (position, item) is filtering the positions. *)
Lemma omap_imap_filter {A} (f : nat -> bool) (l : list A) :
  omap (fun p : nat * A => if f (fst p) then None else Some (snd p)) (imap pair l)
  = omap (fun i => l !! i) (filter (fun i => f i = false) (seq 0 (length l))).
Proof.
  induction l as [|x l IH] using rev_ind; [done|].
  rewrite imap_app, omap_app, length_app, Nat.add_comm. simpl length.
  rewrite seq_S, filter_app, omap_app, IH. simpl seq. f_equal.
  - apply omap_ext_in. intros i Hi.
    apply list_elem_of_filter in Hi as [_ Hi]. apply elem_of_seq in Hi.
    by rewrite lookup_app_l by lia.
  - simpl. rewrite filter_cons, filter_nil.
    case_decide as E; rewrite Nat.add_0_r in *.
    + rewrite E. simpl. by rewrite list_lookup_middle.
    + by destruct (f (length l)).
Qed.

Lemma ikko_targets_repack (ist : IkkoApp.AppState) :
  IkkoApp.targets ist IkkoApp.Repack
  = omap (fun i => Ikko.url <$> IkkoApp.images ist !! i)
      (filter (fun i => includes (parseMaskIndices (Ikko.maskIndicesStr (IkkoApp.settings ist)))
                          (Ikko.startNumber (IkkoApp.settings ist) + Z.of_nat i) = false)
         (seq 0 (length (IkkoApp.images ist)))).
Proof.
  unfold IkkoApp.targets.
  rewrite (omap_imap_filter
             (fun i => includes (parseMaskIndices (Ikko.maskIndicesStr (IkkoApp.settings ist)))
                         (Ikko.startNumber (IkkoApp.settings ist) + Z.of_nat i))).
  rewrite length_map. apply omap_ext_in. intros i _.
  by rewrite list_lookup_fmap.
Qed.

End Repack.

(** C4.  Strip-and-repack removes exactly the positions whose sequence
    number (start number + position) is in the mask set, before the list is
    cut into pages, and keeps the order of the others; in the pages the
    remaining items are numbered contiguously from the same start number:
    the item at local index [j] of page [b] is the [(b * P + j)]-th remaining
    item and carries the number [start + b * P + j].  With start number 1
    and mask text ["2"], five pictures [a .. e] give the four pictures
    [a, c, d, e] numbered [1, 2, 3, 4]. *)
Theorem C4_strip_and_repack
    (st : UltimateApp.AppState) (ist : IkkoApp.AppState) (P : Z) (b j : nat)
    (rws : Z) :
  (1 <= P)%Z -> (Z.of_nat j < P)%Z ->
  (* engine Ultimate *)
  ((forall i : nat,
       i ∈ UltimateApp.targetIndices st UltimateApp.Repack
       <-> (i < length (UltimateApp.images st))%nat
           /\ ~ In (Ultimate.startNumber (UltimateApp.settings st) + Z.of_nat i)%Z
                  (parseMaskIndices (Ultimate.maskIndices (UltimateApp.settings st))))
   /\ UltimateApp.targetIndices st UltimateApp.Repack
        `sublist_of` seq 0 (length (UltimateApp.images st))
   /\ ((b * Z.to_nat P + j < length (UltimateApp.targetIndices st UltimateApp.Repack))%nat ->
       UltimateApp.batchIndices (UltimateApp.targetIndices st UltimateApp.Repack) P b !! j
       = UltimateApp.targetIndices st UltimateApp.Repack !! (b * Z.to_nat P + j)%nat)
   /\ Ultimate.currentNum (UltimateApp.settings st) (Z.of_nat b * P) j
      = (Ultimate.startNumber (UltimateApp.settings st)
         + Z.of_nat (b * Z.to_nat P + j))%Z)
  (* engine Ikko *)
  /\ (IkkoApp.targets ist IkkoApp.Repack
      = omap (fun i => Ikko.url <$> IkkoApp.images ist !! i)
          (filter (fun i => includes
                              (parseMaskIndices (Ikko.maskIndicesStr (IkkoApp.settings ist)))
                              (Ikko.startNumber (IkkoApp.settings ist) + Z.of_nat i) = false)
             (seq 0 (length (IkkoApp.images ist))))
      /\ ((b * Z.to_nat P + j < length (IkkoApp.targets ist IkkoApp.Repack))%nat ->
          IkkoApp.currentImgs (IkkoApp.targets ist IkkoApp.Repack) P b !! j
          = IkkoApp.targets ist IkkoApp.Repack !! (b * Z.to_nat P + j)%nat)
      /\ Ikko.currentNum
           (IkkoApp.drawOptions ist IkkoApp.Repack
              (IkkoApp.targets ist IkkoApp.Repack) P b rws) j
         = (Ikko.startNumber (IkkoApp.settings ist)
            + Z.of_nat (b * Z.to_nat P + j))%Z)
  (* the scenario, on whole runs that are not cancelled *)
  /\ option_map pagesSummary
       (ultimatePublished ultimateRepack5 UltimateApp.Repack encodeAll never)
     = Some [(map ofString ["a"; "c"; "d"; "e"]%string, [1; 2; 3; 4]%Z)]
  /\ option_map pagesSummary
       (ikkoPublished decodeAll ikkoRepack5 IkkoApp.Repack encodeAll never)
     = Some [(map ofString ["a"; "c"; "d"; "e"]%string, [1; 2; 3; 4]%Z)].
Proof.
  intros HP Hj. split; [|split; [|split]].
  - split; [|split; [|split]].
    + intros i. unfold UltimateApp.targetIndices.
      rewrite list_elem_of_filter, elem_of_seq, includes_false. split.
      * intros [H1 H2]. split; [lia | done].
      * intros [H1 H2]. split; [done | lia].
    + unfold UltimateApp.targetIndices. apply sublist_filter.
    + intros Hlen. rewrite batchIndices_pageSlice by lia.
      apply pageSlice_lookup; [lia | done].
    + unfold Ultimate.currentNum. nia.
  - split; [|split].
    + apply ikko_targets_repack.
    + intros Hlen. rewrite currentImgs_pageSlice by lia.
      apply pageSlice_lookup; [lia | done].
    + unfold IkkoApp.drawOptions.
      destruct (Ikko.calculateCellDimensions _ _ _) as [cw ch].
      unfold Ikko.currentNum. simpl. nia.
  - vm_compute. reflexivity.
  - vm_compute. reflexivity.
Qed.

(** ** The automatic row count *)

Section AutoRows.

Import UltimateApp.

Lemma step_pos (cellHeight : Q) (gapPx : Z) :
  (1 <= cellHeight)%Q -> (0 <= gapPx)%Z -> (0 < cellHeight + q gapPx)%Q.
Proof.
  intros Hcell Hgap. unfold q. rewrite Zle_Qle in Hgap.
  change (inject_Z 0) with 0%Q in Hgap. Lqa.lra.
Qed.

Lemma room_split (room step : Q) : (0 < step)%Q -> (room / step * step == room)%Q.
Proof. intros Hs. field. Lqa.lra. Qed.

Lemma autoRows_min (cellHeight : Q) (gapPx : Z) :
  (1 <= autoRows cellHeight gapPx)%Z.
Proof. unfold autoRows. lia. Qed.

Lemma autoRows_maximal (cellHeight : Q) (gapPx : Z) :
  (1 <= cellHeight)%Q -> (0 <= gapPx)%Z ->
  (q SAFE_H + q gapPx
   < (q (autoRows cellHeight gapPx) + 1) * (cellHeight + q gapPx))%Q.
Proof.
  intros Hcell Hgap. pose proof (step_pos _ _ Hcell Hgap) as Hs.
  set (step := (cellHeight + q gapPx)%Q) in *.
  set (room := (q SAFE_H + q gapPx)%Q).
  pose proof (room_split room step Hs) as Hr.
  pose proof (Qlt_floor (room / step)) as Hf.
  assert (room / step < q (autoRows cellHeight gapPx) + 1)%Q as Hlt.
  { eapply Qlt_le_trans; [exact Hf|].
    unfold autoRows. fold step room. unfold q.
    rewrite <- (inject_Z_plus _ 1). rewrite <- Zle_Qle. lia. }
  apply Qle_lt_trans with (room / step * step)%Q.
  - rewrite Hr. apply Qle_refl.
  - apply Qmult_lt_compat_r; done.
Qed.

Lemma autoRows_fits (cellHeight : Q) (gapPx : Z) :
  (1 <= cellHeight)%Q -> (0 <= gapPx)%Z ->
  (cellHeight <= q SAFE_H)%Q ->
  (q (autoRows cellHeight gapPx) * (cellHeight + q gapPx)
   <= q SAFE_H + q gapPx)%Q.
Proof.
  intros Hcell Hgap Hle. pose proof (step_pos _ _ Hcell Hgap) as Hs.
  unfold autoRows.
  set (step := (cellHeight + q gapPx)%Q) in *.
  set (room := (q SAFE_H + q gapPx)%Q).
  pose proof (room_split room step Hs) as Hr.
  assert (1 <= room / step)%Q as H1.
  { apply Qle_shift_div_l; [done|]. unfold room, step. Lqa.lra. }
  assert (1 <= Qfloor (room / step))%Z as Hc.
  { change 1%Z with (Qfloor (inject_Z 1)). apply Qfloor_resp_le. exact H1. }
  rewrite Z.max_r by lia.
  apply Qle_trans with (room / step * step)%Q.
  - apply Qmult_le_compat_r; [apply Qfloor_le | Lqa.lra].
  - rewrite Hr. apply Qle_refl.
Qed.

Lemma autoRows_clamped (cellHeight : Q) (gapPx : Z) :
  (1 <= cellHeight)%Q -> (0 <= gapPx)%Z ->
  (q SAFE_H < cellHeight)%Q ->
  autoRows cellHeight gapPx = 1%Z
  /\ ~ (q (autoRows cellHeight gapPx) * (cellHeight + q gapPx)
        <= q SAFE_H + q gapPx)%Q.
Proof.
  intros Hcell Hgap Hlt. pose proof (step_pos _ _ Hcell Hgap) as Hs.
  assert (autoRows cellHeight gapPx = 1%Z) as E.
  { unfold autoRows.
    set (step := (cellHeight + q gapPx)%Q) in *.
    set (room := (q SAFE_H + q gapPx)%Q).
    assert (room / step < 1)%Q as H1.
    { apply Qlt_shift_div_r; [done|]. unfold room, step. Lqa.lra. }
    assert (Qfloor (room / step) < 1)%Z as Hc.
    { rewrite Zlt_Qlt. eapply Qle_lt_trans; [apply Qfloor_le|]. exact H1. }
    lia. }
  split; [done|]. rewrite E. unfold q in *.
  change (inject_Z 1) with 1%Q. Lqa.lra.
Qed.

End AutoRows.



(** ** The dimension planner *)

Section Planner.

Local Open Scope Z_scope.

(** The shrunk cell width [floor((M - c * g) / c)] is [floor(M / c) - g]. *)
Lemma shrunk_width (M c g : Z) : 0 < c -> (M - c * g) / c = M / c - g.
Proof.
  intros Hc. replace (M - c * g) with (M + (- g) * c) by ring.
  rewrite Z.div_add by lia. ring.
Qed.

Lemma shrunk_width_mono (M c1 c2 g : Z) :
  0 <= M -> 0 < c1 -> c1 < c2 ->
  (M - c2 * g) / c2 <= (M - c1 * g) / c1.
Proof.
  intros HM H1 H2. rewrite !shrunk_width by lia.
  pose proof (Z.div_le_compat_l M c1 c2 HM ltac:(lia)). lia.
Qed.

Lemma shrunk_width_strict (M c1 c2 g : Z) :
  0 <= M -> 0 < c1 -> c1 < c2 -> c1 * c2 <= M * (c2 - c1) ->
  (M - c2 * g) / c2 < (M - c1 * g) / c1.
Proof.
  intros HM H1 H2 Hfar. rewrite !shrunk_width by lia.
  pose proof (Z.div_mod M c1 ltac:(lia)) as E1.
  pose proof (Z.mod_pos_bound M c1 ltac:(lia)) as B1.
  pose proof (Z.div_mod M c2 ltac:(lia)) as E2.
  pose proof (Z.mod_pos_bound M c2 ltac:(lia)) as B2.
  set (a := M / c1) in *. set (b := M / c2) in *.
  set (r1 := M mod c1) in *. set (r2 := M mod c2) in *.
  assert (0 <= a) by (subst a; apply Z.div_pos; lia).
  destruct (Z.lt_ge_cases b a) as [Hlt|Hge]; [lia|exfalso].
  assert (c2 * a <= M) by nia.
  assert ((c2 - c1) * a < c1) by nia.
  assert (M * (c2 - c1) < c1 * c2) by nia.
  lia.
Qed.

Lemma ikko_cellW_shrunk (c g : Z) (ratio : Q) :
  Ikko.MAX_CANVAS_DIMENSION < c * 1500 ->
  fst (Ikko.calculateCellDimensions c ratio g)
  = (Ikko.MAX_CANVAS_DIMENSION - c * g) / c.
Proof.
  intros H. unfold Ikko.calculateCellDimensions. simpl.
  destruct (Z.gtb_spec (c * 1500) Ikko.MAX_CANVAS_DIMENSION); [done | lia].
Qed.

Lemma ultimate_cellW_shrunk (s : Ultimate.AppSettings) :
  Ultimate.MAX_CANVAS_DIMENSION < Ultimate.cols s * 1500 ->
  Ultimate.cellW s
  = (Ultimate.MAX_CANVAS_DIMENSION - Ultimate.cols s * Ultimate.gap s) / Ultimate.cols s.
Proof.
  intros H. unfold Ultimate.cellW.
  destruct (Z.gtb_spec (Ultimate.cols s * 1500) Ultimate.MAX_CANVAS_DIMENSION);
    [done | lia].
Qed.

End Planner.

(** C9 (as amended).  Beyond the point where [columns * 1500] exceeds the
    maximum page width, a larger column count never gives a wider cell, for
    any fixed gap [>= 0]; the cell is strictly narrower whenever
    [c1 * c2 <= maxWidth * (c2 - c1)] (the two quotients [maxWidth / c]
    differ by at least one).  For columns = 3, ratio 0.75 and gap 0 the cell
    is 1500 x 2000, whose ratio is exactly 0.75. *)
Theorem C9_dimension_planner
    (c1 c2 gapPx : Z) (ratio : Q) (s1 s2 : Ultimate.AppSettings) :
  (c1 < c2)%Z -> (0 <= gapPx)%Z ->
  Ultimate.cols s1 = c1 -> Ultimate.cols s2 = c2 ->
  Ultimate.gap s1 = gapPx -> Ultimate.gap s2 = gapPx ->
  ((Ikko.MAX_CANVAS_DIMENSION < c1 * 1500)%Z ->
     (fst (Ikko.calculateCellDimensions c2 ratio gapPx)
      <= fst (Ikko.calculateCellDimensions c1 ratio gapPx))%Z
     /\ ((c1 * c2 <= Ikko.MAX_CANVAS_DIMENSION * (c2 - c1))%Z ->
         (fst (Ikko.calculateCellDimensions c2 ratio gapPx)
          < fst (Ikko.calculateCellDimensions c1 ratio gapPx))%Z))
  /\ ((Ultimate.MAX_CANVAS_DIMENSION < c1 * 1500)%Z ->
     (Ultimate.cellW s2 <= Ultimate.cellW s1)%Z
     /\ ((c1 * c2 <= Ultimate.MAX_CANVAS_DIMENSION * (c2 - c1))%Z ->
         (Ultimate.cellW s2 < Ultimate.cellW s1)%Z))
  /\ Ikko.calculateCellDimensions 3 (75 # 100) 0 = (1500, 2000)%Z
  /\ (Ultimate.cellW ULTIMATE_DEFAULT, Ultimate.cellH ULTIMATE_DEFAULT) = (1500, 2000)%Z
  /\ (q 1500 / q 2000 == 75 # 100)%Q.
Proof.
  intros Hlt Hgap E1 E2 G1 G2. split; [|split; [|split; [|split]]].
  - intros Hbig. unfold Ikko.MAX_CANVAS_DIMENSION in *.
    rewrite !ikko_cellW_shrunk by (unfold Ikko.MAX_CANVAS_DIMENSION; lia).
    split.
    + apply shrunk_width_mono; unfold Ikko.MAX_CANVAS_DIMENSION; lia.
    + intros Hfar. apply shrunk_width_strict;
        unfold Ikko.MAX_CANVAS_DIMENSION; lia.
  - intros Hbig. unfold Ultimate.MAX_CANVAS_DIMENSION in *.
    rewrite !ultimate_cellW_shrunk
      by (unfold Ultimate.MAX_CANVAS_DIMENSION; lia).
    rewrite E1, E2, G1, G2. split.
    + apply shrunk_width_mono; unfold Ultimate.MAX_CANVAS_DIMENSION; lia.
    + intros Hfar. apply shrunk_width_strict;
        unfold Ultimate.MAX_CANVAS_DIMENSION; lia.
  - vm_compute. reflexivity.
  - vm_compute. reflexivity.
  - vm_compute. reflexivity.
Qed.

(** The strict decrease of C9 fails once the quotients stop moving: 100 and
    101 columns both get cells 81 wide in engine [Ikko] (limit 8192), 132 and
    133 columns both get cells 90 wide in engine [Ultimate] (limit 12000). *)
Lemma C9_counterexample_plateau :
  (100 < 101)%Z
  /\ (Ikko.MAX_CANVAS_DIMENSION < 100 * 1500)%Z
  /\ fst (Ikko.calculateCellDimensions 100 (75 # 100) 0) = 81%Z
  /\ fst (Ikko.calculateCellDimensions 101 (75 # 100) 0) = 81%Z
  /\ ~ (fst (Ikko.calculateCellDimensions 101 (75 # 100) 0)
        < fst (Ikko.calculateCellDimensions 100 (75 # 100) 0))%Z
  /\ (Ultimate.MAX_CANVAS_DIMENSION < 132 * 1500)%Z
  /\ ~ (Ultimate.cellW (ultimateSettings 133 0 0 (75 # 100) "" ModeLine 80 "0.80")
        < Ultimate.cellW (ultimateSettings 132 0 0 (75 # 100) "" ModeLine 80 "0.80"))%Z.
Proof.
  repeat split; try (vm_compute; congruence).
Qed.

(** ** The page loop: format of the encoded pages *)

Ltac poll_step :=
  unfold mbind, mret, poll_bind, poll_ret, isCancelled in *; cbn beta iota in *.

Section Format.

Lemma ultimate_encodePage_rule (s : Ultimate.AppSettings) (l : list DrawOp) :
  ultimateFormatRule s (UltimateApp.encodePage s l).
Proof.
  unfold ultimateFormatRule, UltimateApp.encodePage, toBlob,
    UltimateApp.pageMime, UltimateApp.pageQVal, UltimateApp.isPng. simpl.
  case_decide as E.
  - by rewrite bool_decide_eq_true_2.
  - by rewrite bool_decide_eq_false_2.
Qed.

Lemma ikko_toBlob_rule (s : Ikko.AppSettings) (l : list DrawOp) :
  ikkoFormatRule s (toBlob (IkkoApp.pageMime s) (IkkoApp.pageQVal s) l).
Proof.
  unfold ikkoFormatRule, toBlob, IkkoApp.pageMime, IkkoApp.pageQVal,
    IkkoApp.isPng, IkkoApp.qualityVal. simpl.
  destruct (Z.gtb_spec (Ikko.exportQuality s) 100) as [Hgt|Hle].
  - rewrite decide_True by lia. done.
  - destruct (Z.eqb_spec (Ikko.exportQuality s) 100) as [E|E].
    + rewrite decide_True by lia. done.
    + rewrite decide_False by lia. done.
Qed.

Lemma ultimate_batchLoop_Forall (P : Blob -> Prop) st targets bsz mask enc :
  (forall l, P (UltimateApp.encodePage (UltimateApp.settings st) l)) ->
  forall bs acc sigma n blobs n',
    UltimateApp.batchLoop st targets bsz mask enc bs acc sigma n = (Some blobs, n') ->
    Forall P acc -> Forall P blobs.
Proof.
  intros HP. induction bs as [|b bs IH]; intros acc sigma n blobs n' Hrun Hacc.
  - simpl in Hrun. poll_step. by inversion Hrun; subst.
  - simpl in Hrun. poll_step.
    destruct (sigma n); [by inversion Hrun; subst|].
    destruct (Ultimate.drawAsync _ _ _ _ _ _ sigma (S n)) as [[page|] n1];
      [|by inversion Hrun].
    destruct (sigma n1); [by inversion Hrun; subst|].
    eapply IH; [exact Hrun|].
    destruct (enc b); [|done].
    apply Forall_app. split; [done|]. by apply Forall_singleton.
Qed.

Lemma ikko_batchLoop_Forall (P : Blob -> Prop) decode enc st op tg bsz :
  (forall l, P (toBlob (IkkoApp.pageMime (IkkoApp.settings st))
                  (IkkoApp.pageQVal (IkkoApp.settings st)) l)) ->
  forall bs acc sigma n blobs n',
    IkkoApp.batchLoop decode enc st op tg bsz bs acc sigma n = (Some blobs, n') ->
    Forall P acc -> Forall P blobs.
Proof.
  intros HP. induction bs as [|b bs IH]; intros acc sigma n blobs n' Hrun Hacc.
  - simpl in Hrun. poll_step. by inversion Hrun; subst.
  - simpl in Hrun. poll_step.
    destruct (sigma n); [by inversion Hrun; subst|].
    destruct (ceilDiv _ _) as [rws|]; [|by inversion Hrun].
    destruct (Ikko.drawAsync _ _ sigma (S n)) as [page n1].
    destruct (sigma n1); [by inversion Hrun; subst|].
    eapply IH; [exact Hrun|].
    destruct (enc b); [|done].
    apply Forall_app. split; [done|]. by apply Forall_singleton.
Qed.

End Format.

(** ** Shape of a run *)

Section RunShape.

(** A run that ends either did nothing (empty gallery) or went through the
    page loop and then read the flag once more: that last read decides
    whether the local array is published. *)
Lemma ultimate_run_inv st op enc sigma n0 r n :
  UltimateApp.startGeneration st op enc sigma n0 = (Some r, n) ->
  (UltimateApp.images st = [] /\ r = UltimateApp.mkRun st [] /\ n = n0)
  \/ (UltimateApp.images st <> []
      /\ exists total blobs n1,
        UltimateApp.totalBatches
          (length (UltimateApp.targetIndices st op))
          (UltimateApp.batchSize (UltimateApp.settings st)) = Some total
        /\ UltimateApp.batchLoop st (UltimateApp.targetIndices st op)
             (UltimateApp.batchSize (UltimateApp.settings st))
             (parseMaskIndices (Ultimate.maskIndices (UltimateApp.settings st)))
             enc (seq 0 total) [] sigma n0 = (Some blobs, n1)
        /\ n = S n1
        /\ UltimateApp.newBlobs r = blobs
        /\ UltimateApp.generatedBlobs (UltimateApp.after r)
           = (if sigma n1 then [] else blobs)).
Proof.
  unfold UltimateApp.startGeneration. intros Hrun.
  destruct (UltimateApp.images st) as [|x l] eqn:Eimg.
  - left. simpl in Hrun. poll_step. by inversion Hrun.
  - right. split; [done|]. cbn [length Nat.eqb] in Hrun.
    destruct (UltimateApp.totalBatches _ _) as [total|]; poll_step;
      [|by inversion Hrun].
    destruct (UltimateApp.batchLoop _ _ _ _ _ _ _ sigma n0)
      as [[blobs|] n1] eqn:Eloop; [|by inversion Hrun].
    exists total, blobs, n1. split; [done|]. split; [exact Eloop|].
    destruct (sigma n1); inversion Hrun; subst; done.
Qed.

Lemma ikko_run_inv decode enc st op sigma n0 r n :
  IkkoApp.generate decode enc st op sigma n0 = (Some r, n) ->
  (IkkoApp.images st = [] /\ r = IkkoApp.mkRun st [] /\ n = n0)
  \/ (IkkoApp.images st <> []
      /\ exists eff total blobs n1,
        IkkoApp.effectiveGroupRows (IkkoApp.settings st)
          (length (IkkoApp.targets st op)) = Some eff
        /\ IkkoApp.totalBatches (length (IkkoApp.targets st op))
             (Ikko.cols (IkkoApp.settings st) * eff) = Some total
        /\ IkkoApp.batchLoop decode enc st op (IkkoApp.targets st op)
             (Ikko.cols (IkkoApp.settings st) * eff) (seq 0 total) [] sigma n0
           = (Some blobs, n1)
        /\ n = S n1
        /\ IkkoApp.blobsOf r = blobs
        /\ IkkoApp.generatedBlobs (IkkoApp.after r)
           = (if sigma n1 then [] else blobs)).
Proof.
  unfold IkkoApp.generate. intros Hrun.
  destruct (IkkoApp.images st) as [|x l] eqn:Eimg.
  - left. simpl in Hrun. poll_step. by inversion Hrun.
  - right. split; [done|]. cbn [length Nat.eqb] in Hrun.
    destruct (IkkoApp.effectiveGroupRows _ _) as [eff|] eqn:Eeff; poll_step;
      [|by inversion Hrun].
    destruct (IkkoApp.totalBatches _ _) as [total|] eqn:Etot; poll_step;
      [|by inversion Hrun].
    destruct (IkkoApp.batchLoop _ _ _ _ _ _ _ _ sigma n0)
      as [[blobs|] n1] eqn:Eloop; [|by inversion Hrun].
    exists eff, total, blobs, n1. split; [done|]. split; [exact Etot|].
    split; [exact Eloop|].
    destruct (sigma n1); inversion Hrun; subst; done.
Qed.

End RunShape.

(** C6 (as amended).  Every page a run encodes has the format its engine
    derives from the settings: in engine [Ultimate] PNG exactly when the
    quality preset is ["1.0"], otherwise JPEG at ratio [quality / 100]; in
    engine [Ikko] PNG exactly when the export quality is 100 or more (the
    value is clamped to 100), otherwise JPEG at ratio [exportQuality / 100]. *)
Theorem C6_page_format
    (st : UltimateApp.AppState) (op : UltimateApp.OpType)
    (enc sigma : nat -> bool) (ublobs : list Blob)
    (decode : list N -> option Bitmap)
    (ist : IkkoApp.AppState) (iop : IkkoApp.OpType)
    (ienc isigma : nat -> bool) (iblobs : list Blob) :
  ultimateLocal st op enc sigma = Some ublobs ->
  ikkoLocal decode ist iop ienc isigma = Some iblobs ->
  Forall (ultimateFormatRule (UltimateApp.settings st)) ublobs
  /\ Forall (ikkoFormatRule (IkkoApp.settings ist)) iblobs.
Proof.
  unfold ultimateLocal, ikkoLocal, run. intros HU HI. split.
  - destruct (UltimateApp.startGeneration st op enc sigma 0) as [[r|] n] eqn:E;
      [|done]. simpl in HU. inversion HU; subst. clear HU.
    apply ultimate_run_inv in E as [(_ & -> & _)|(_ & total & blobs & n1 & _ & Hloop & _ & <- & _)].
    + constructor.
    + eapply ultimate_batchLoop_Forall; [|exact Hloop|constructor].
      apply ultimate_encodePage_rule.
  - destruct (IkkoApp.generate decode ienc ist iop isigma 0) as [[r|] n] eqn:E;
      [|done]. simpl in HI. inversion HI; subst. clear HI.
    apply ikko_run_inv in E as [(_ & -> & _)|(_ & eff & total & blobs & n1 & _ & _ & Hloop & _ & <- & _)].
    + constructor.
    + eapply ikko_batchLoop_Forall; [|exact Hloop|constructor].
      apply ikko_toBlob_rule.
Qed.

(** The format does not follow the quality value alone.  Engine [Ultimate]:
    quality 100 under the preset "custom" gives a JPEG page at ratio 1.
    Engine [Ikko]: quality 150 gives a PNG page. *)
Lemma C6_counterexample_quality_value :
  Ultimate.quality customQuality100 = 100%Z
  /\ option_map pagesFormat
       (ultimatePublished (ultimateState 1 customQuality100)
          UltimateApp.Normal encodeAll never)
     = Some [(ImageJpeg, Some (q 100 / 100)%Q)]
  /\ Ikko.exportQuality quality150 = 150%Z
  /\ option_map pagesFormat
       (ikkoPublished decodeAll (ikkoState 1 quality150)
          IkkoApp.Normal encodeAll never)
     = Some [(ImagePng, None)].
Proof.
  repeat split; vm_compute; reflexivity.
Qed.

(** ** Cancellation *)

Section Cancellation.

Lemma sticky_last (sigma : nat -> bool) (n1 : nat) :
  sticky sigma -> (exists k, k < S n1 /\ sigma k = true) -> sigma n1 = true.
Proof. intros Hs (k & Hk & E). apply (Hs k n1); [lia | done]. Qed.

Lemma quiet_last (sigma : nat -> bool) (n1 : nat) :
  (forall k, k < S n1 -> sigma k = false) -> sigma n1 = false.
Proof. intros H. apply H. lia. Qed.

End Cancellation.

(** C1 (as amended).  A run publishes its pages only when the flag is still
    clear after the page loop.  If cancellation is signalled at any read of a
    run over a non-empty gallery, the in-progress and following pages are
    abandoned and nothing is published: the published list stays empty, as
    it was reset when the run started; the pages completed before the
    signal exist only in the run's local array.  A run that is never
    cancelled publishes its whole local array.  In the scenario of three
    planned pages with the signal right after page 1 was encoded, the local
    array holds exactly 1 page and 0 pages are published. *)
Theorem C1_cancellation_publishes_nothing
    (st : UltimateApp.AppState) (op : UltimateApp.OpType)
    (decode : list N -> option Bitmap)
    (ist : IkkoApp.AppState) (iop : IkkoApp.OpType)
    (enc sigma : nat -> bool) (upub ipub uloc iloc : list Blob) :
  sticky sigma ->
  UltimateApp.images st <> [] -> IkkoApp.images ist <> [] ->
  ultimatePublished st op enc sigma = Some upub ->
  ultimateLocal st op enc sigma = Some uloc ->
  ikkoPublished decode ist iop enc sigma = Some ipub ->
  ikkoLocal decode ist iop enc sigma = Some iloc ->
  ((exists k, k < ultimateReads st op enc sigma /\ sigma k = true) -> upub = [])
  /\ ((forall k, k < ultimateReads st op enc sigma -> sigma k = false) -> upub = uloc)
  /\ ((exists k, k < ikkoReads decode ist iop enc sigma /\ sigma k = true) -> ipub = [])
  /\ ((forall k, k < ikkoReads decode ist iop enc sigma -> sigma k = false) -> ipub = iloc)
  /\ (option_map length (ultimatePublished threePagesUltimate UltimateApp.Normal encodeAll never) = Some 3
      /\ option_map length (ultimateLocal threePagesUltimate UltimateApp.Normal encodeAll afterFirstPage) = Some 1
      /\ option_map length (ultimatePublished threePagesUltimate UltimateApp.Normal encodeAll afterFirstPage) = Some 0)
  /\ (option_map length (ikkoPublished decodeAll threePagesIkko IkkoApp.Normal encodeAll never) = Some 3
      /\ option_map length (ikkoLocal decodeAll threePagesIkko IkkoApp.Normal encodeAll afterFirstPage) = Some 1
      /\ option_map length (ikkoPublished decodeAll threePagesIkko IkkoApp.Normal encodeAll afterFirstPage) = Some 0).
Proof.
  unfold ultimatePublished, ultimateLocal, ultimateReads,
    ikkoPublished, ikkoLocal, ikkoReads, run.
  intros Hs HUne HIne HUp HUl HIp HIl.
  split; [|split; [|split; [|split; [|split]]]].
  1,2: destruct (UltimateApp.startGeneration st op enc sigma 0) as [[r|] n] eqn:E;
      [|done]; simpl in *;
      apply ultimate_run_inv in E
        as [(Hnil & _)|(_ & total & blobs & n1 & _ & _ & -> & Hloc & Hpub)];
      [done|];
      inversion HUp; inversion HUl; subst; rewrite Hpub; intros Hk.
  - by rewrite (sticky_last sigma n1 Hs Hk).
  - by rewrite (quiet_last sigma n1 Hk).
  - destruct (IkkoApp.generate decode enc ist iop sigma 0) as [[r|] n] eqn:E;
      [|done]; simpl in *.
    apply ikko_run_inv in E
      as [(Hnil & _)|(_ & eff & total & blobs & n1 & _ & _ & _ & -> & Hloc & Hpub)];
      [done|].
    inversion HIp; inversion HIl; subst; rewrite Hpub; intros Hk.
    by rewrite (sticky_last sigma n1 Hs Hk).
  - destruct (IkkoApp.generate decode enc ist iop sigma 0) as [[r|] n] eqn:E;
      [|done]; simpl in *.
    apply ikko_run_inv in E
      as [(Hnil & _)|(_ & eff & total & blobs & n1 & _ & _ & _ & -> & Hloc & Hpub)];
      [done|].
    inversion HIp; inversion HIl; subst; rewrite Hpub; intros Hk.
    by rewrite (quiet_last sigma n1 Hk).
  - repeat split; vm_compute; reflexivity.
  - repeat split; vm_compute; reflexivity.
Qed.

(** The claim of C1 fails on both engines: three pages are planned, the
    signal comes right after page 1 was encoded (seen by read 4 at the head
    of the loop, or by read 5 inside the second [drawAsync]), and the run
    publishes 0 pages, not 1.  A signal seen by read 3 comes before page 1
    is encoded. *)
Lemma C1_counterexample_zero_pages :
  option_map length
    (ultimatePublished threePagesUltimate UltimateApp.Normal encodeAll never) = Some 3
  /\ option_map length
       (ultimateLocal threePagesUltimate UltimateApp.Normal encodeAll afterFirstPage) = Some 1
  /\ option_map length
       (ultimateLocal threePagesUltimate UltimateApp.Normal encodeAll (from 3)) = Some 0
  /\ ultimatePublished threePagesUltimate UltimateApp.Normal encodeAll afterFirstPage
     = Some []
  /\ option_map length
       (ikkoLocal decodeAll threePagesIkko IkkoApp.Normal encodeAll afterFirstPage) = Some 1
  /\ ikkoPublished decodeAll threePagesIkko IkkoApp.Normal encodeAll afterFirstPage
     = Some []
  /\ ultimatePublished threePagesUltimate UltimateApp.Normal encodeAll (from 5)
     = Some []
  /\ ikkoPublished decodeAll threePagesIkko IkkoApp.Normal encodeAll (from 5)
     = Some [].
Proof.
  repeat split; vm_compute; reflexivity.
Qed.

(** ** The page compositor *)

Section Compositor.

Local Open Scope Z_scope.

(** The chunks of four cover the indices of the page, in order. *)
Lemma chunkIndices_pageSlice (len k : nat) :
  Ultimate.chunkIndices len (k * Ultimate.CONCURRENCY)
  = pageSlice (seq 0 len) Ultimate.CONCURRENCY k.
Proof.
  unfold Ultimate.chunkIndices, pageSlice, slice.
  rewrite drop_seq, take_seq, length_seq. simpl. f_equal; lia.
Qed.

Lemma chunks_cover (len : nat) :
  flat_map (Ultimate.chunkIndices len) (Ultimate.chunkStarts len) = seq 0 len.
Proof.
  unfold Ultimate.chunkStarts. rewrite flat_map_concat_map, map_map.
  erewrite map_ext; [|intros k; apply chunkIndices_pageSlice].
  rewrite pageSlices_concat; [done|].
  rewrite length_seq. unfold Ultimate.CONCURRENCY.
  pose proof (Nat.div_mod_eq (len + 3) 4).
  pose proof (Nat.mod_upper_bound (len + 3) 4). lia.
Qed.

Lemma flat_map_flat_map {A B C} (f : B -> list C) (g : A -> list B) (l : list A) :
  flat_map f (flat_map g l) = flat_map (fun a => flat_map f (g a)) l.
Proof.
  induction l as [|a l IH]; [done|]. simpl. by rewrite flat_map_app, IH.
Qed.

(** A render during which every read of the flag finds it clear draws every
    chunk. *)
Lemma drawChunks_quiet (cell : nat -> list DrawOp) (len : nat)
    (sigma : nat -> bool) :
  (forall k, sigma k = false) ->
  forall starts acc n,
    Ultimate.drawChunks cell len starts acc sigma n
    = (Ultimate.mkDrawResult
         (acc ++ flat_map (fun i => flat_map cell (Ultimate.chunkIndices len i)) starts)
         true,
       (n + 2 * length starts)%nat).
Proof.
  intros Hq. induction starts as [|i rest IH]; intros acc n.
  - simpl. poll_step. rewrite app_nil_r. f_equal. lia.
  - simpl. poll_step. rewrite !Hq. rewrite IH. rewrite <- app_assoc.
    simpl length. f_equal. lia.
Qed.

Lemma ultimate_drawAsync_quiet images s off mask sticker overlay sigma n rows :
  (forall k, sigma k = false) ->
  Ultimate.pageRows (length images) s = Some rows ->
  fst (Ultimate.drawAsync images s off mask sticker overlay sigma n)
  = Some (Ultimate.mkDrawResult
      ([SetSize (Qfloor (q (Ultimate.totalW s) * Ultimate.scaleFactor (Ultimate.totalH rows s)))
                (Qfloor (q (Ultimate.totalH rows s) * Ultimate.scaleFactor (Ultimate.totalH rows s)));
        Scale (Ultimate.scaleFactor (Ultimate.totalH rows s));
        FillWhite (Ultimate.totalW s) (Ultimate.totalH rows s)]
       ++ flat_map (Ultimate.drawCell images s off mask sticker) (seq 0 (length images))
       ++ match overlay with
          | Some _ => [Overlay (Ultimate.totalW s) (Ultimate.totalH rows s)
                         (Ultimate.overlayOpacity s)]
          | None => []
          end) true).
Proof.
  intros Hq Hrows. unfold Ultimate.drawAsync. rewrite Hrows. poll_step.
  rewrite (drawChunks_quiet _ _ sigma Hq). simpl.
  rewrite <- flat_map_flat_map, chunks_cover. done.
Qed.

Lemma runTasks_quiet decode (o : Ikko.DrawOptions) (sigma : nat -> bool) :
  (forall k, sigma k = false) ->
  forall idxs acc n,
    Ikko.runTasks decode o idxs acc sigma n
    = (acc ++ flat_map (Ikko.task decode o) idxs, (n + 2 * length idxs)%nat).
Proof.
  intros Hq. induction idxs as [|i rest IH]; intros acc n.
  - simpl. poll_step. rewrite app_nil_r. f_equal. lia.
  - simpl. poll_step. rewrite !Hq. rewrite IH, <- app_assoc.
    simpl length. f_equal. lia.
Qed.

Lemma ikko_drawAsync_quiet decode (o : Ikko.DrawOptions) sigma n :
  (forall k, sigma k = false) ->
  fst (Ikko.drawAsync decode o sigma n)
  = [SetSize (Ikko.canvasWidth o) (Ikko.canvasHeight o);
     FillWhite (Ikko.canvasWidth o) (Ikko.canvasHeight o)]
    ++ flat_map (Ikko.task decode o) (seq 0 (length (Ikko.images o)))
    ++ match Ikko.overlayImgEl decode (Ikko.dsettings o) with
       | Some _ => [Overlay (Ikko.canvasWidth o) (Ikko.canvasHeight o)
                      (Ikko.overlayOpacity (Ikko.dsettings o))]
       | None => []
       end.
Proof.
  intros Hq. unfold Ikko.drawAsync. poll_step.
  rewrite (runTasks_quiet decode o sigma Hq). simpl. done.
Qed.

(** Which operations of a cell are mask decorations. *)
Lemma coverImage_cell src iw ih x y w h :
  isMaskOp (coverImage src iw ih x y w h) = false
  /\ cellOf (coverImage src iw ih x y w h) = Some (mkRect x y w h).
Proof. unfold coverImage. by destruct (Qlt_le_dec _ _). Qed.

Lemma drawNumber_plain showNum stroke shadow pos fs num x y w h :
  existsb isMaskOp (drawNumber showNum stroke shadow pos fs num x y w h) = false
  /\ Forall (fun op => cellOf op = None)
       (drawNumber showNum stroke shadow pos fs num x y w h).
Proof.
  unfold drawNumber. destruct showNum; [|by split].
  destruct (if includesLeft pos then _ else _) as [tx al].
  destruct stroke; simpl; split; try done; repeat constructor.
Qed.

Lemma drawMask_spec mode style sticker ss sx sy x y w h :
  existsb isMaskOp (drawMask mode style sticker ss sx sy x y w h)
  = match mode with
    | ModeLine => true
    | ModeImage => match sticker with Some _ => true | None => false end
    end
  /\ Forall (fun op => cellOf op = Some (mkRect x y w h))
       (drawMask mode style sticker ss sx sy x y w h).
Proof.
  unfold drawMask. destruct mode.
  - destruct style; simpl; split; try done; repeat constructor.
  - destruct sticker; simpl; split; try done; repeat constructor.
Qed.

End Compositor.

Section Cells.

Local Open Scope Z_scope.

Lemma existsb_isMaskOp_app (l1 l2 : list DrawOp) :
  existsb isMaskOp (l1 ++ l2) = existsb isMaskOp l1 || existsb isMaskOp l2.
Proof. apply existsb_app. Qed.

(** Row and column of a cell for a positive column count. *)
Lemma ultimate_row_col (s : Ultimate.AppSettings) (i : nat) :
  1 <= Ultimate.cols s ->
  Ultimate.cellRow s i = Z.of_nat i / Ultimate.cols s
  /\ Ultimate.cellCol s i = Z.of_nat i mod Ultimate.cols s.
Proof.
  intros H. split; [done|]. unfold Ultimate.cellCol.
  apply Z.rem_mod_nonneg; lia.
Qed.

Lemma ikko_row_col (o : Ikko.DrawOptions) (i : nat) :
  1 <= Ikko.dcols o ->
  Ikko.cellRow o i = Z.of_nat i / Ikko.dcols o
  /\ Ikko.cellCol o i = Z.of_nat i mod Ikko.dcols o.
Proof.
  intros H. split; [done|]. unfold Ikko.cellCol.
  apply Z.rem_mod_nonneg; lia.
Qed.

Lemma located_weaken_none (r : Rect) (l : list DrawOp) :
  Forall (fun op => cellOf op = None) l -> Forall (located r) l.
Proof. intros H. eapply Forall_impl; [exact H|]. intros op Hop. by left. Qed.

Lemma located_weaken_some (r : Rect) (l : list DrawOp) :
  Forall (fun op => cellOf op = Some r) l -> Forall (located r) l.
Proof. intros H. eapply Forall_impl; [exact H|]. intros op Hop. by right. Qed.

Lemma drawnSources_app (l1 l2 : list DrawOp) :
  drawnSources (l1 ++ l2) = drawnSources l1 ++ drawnSources l2.
Proof. apply omap_app. Qed.

Lemma drawnSources_unlocated (l : list DrawOp) :
  Forall (fun op => cellOf op = None) l -> drawnSources l = [].
Proof.
  induction 1 as [|op l Hop _ IH]; [done|].
  change (op :: l) with ([op] ++ l). rewrite drawnSources_app, IH.
  by destruct op.
Qed.

Lemma drawnSources_mask mode style sticker ss sx sy x y w h :
  drawnSources (drawMask mode style sticker ss sx sy x y w h) = [].
Proof. unfold drawMask. destruct mode; [by destruct style | by destruct sticker]. Qed.

Lemma ultimate_drawCell_spec images s off mask sticker i item :
  images !! i = Some item ->
  let r := mkRect (Ultimate.cellX s i) (Ultimate.cellY s i)
             (Ultimate.cellW s) (Ultimate.cellH s) in
  Forall (located r) (Ultimate.drawCell images s off mask sticker i)
  /\ existsb isMaskOp (Ultimate.drawCell images s off mask sticker i)
     = includes mask (Ultimate.currentNum s off i)
       && match Ultimate.maskMode s with
          | ModeLine => true
          | ModeImage => match sticker with Some _ => true | None => false end
          end
  /\ (Ultimate.file item = None ->
      In (ErrorTile r) (Ultimate.drawCell images s off mask sticker i))
  /\ (forall bitmap, Ultimate.file item = Some bitmap ->
      bw bitmap <> 0 -> bh bitmap <> 0 ->
      drawnSources (Ultimate.drawCell images s off mask sticker i)
      = [Ultimate.url item]).
Proof.
  intros Hi r. unfold Ultimate.drawCell. rewrite Hi. fold r.
  pose proof (drawNumber_plain (Ultimate.showNum s) (Ultimate.enableStroke s)
    (Ultimate.enableShadow s) (Ultimate.fontPos s) (Ultimate.fontSize s)
    (Ultimate.currentNum s off i) (Ultimate.cellX s i) (Ultimate.cellY s i)
    (Ultimate.cellW s) (Ultimate.cellH s)) as [Hn1 Hn2].
  pose proof (drawMask_spec (Ultimate.maskMode s) (Ultimate.lineStyle s) sticker
    (Ultimate.stickerSize s) (Ultimate.stickerX s) (Ultimate.stickerY s)
    (Ultimate.cellX s i) (Ultimate.cellY s i)
    (Ultimate.cellW s) (Ultimate.cellH s)) as [Hm1 Hm2].
  set (num := drawNumber _ _ _ _ _ _ _ _ _ _) in *.
  set (msk := drawMask _ _ _ _ _ _ _ _ _ _) in *.
  assert (forall l, drawnSources (l ++ num ++ (if includes mask (Ultimate.currentNum s off i) then msk else []))
                    = drawnSources l) as Hsrc.
  { intros l. rewrite !drawnSources_app, (drawnSources_unlocated num Hn2).
    destruct (includes _ _); [subst msk; rewrite drawnSources_mask|];
      by rewrite !app_nil_r. }
  split; [|split; [|split]].
  - apply Forall_app. split; [|apply Forall_app; split].
    + destruct (Ultimate.file item) as [bitmap|].
      * destruct (_ || _); [constructor|]. constructor; [|constructor].
        right. apply coverImage_cell.
      * constructor; [by right | constructor].
    + by apply located_weaken_none.
    + destruct (includes _ _); [by apply located_weaken_some | constructor].
  - rewrite !existsb_isMaskOp_app, Hn1.
    assert (existsb isMaskOp
              match Ultimate.file item with
              | Some bitmap =>
                  if (bw bitmap =? 0) || (bh bitmap =? 0) then []
                  else [coverImage (Ultimate.url item) (bw bitmap) (bh bitmap)
                          (Ultimate.cellX s i) (Ultimate.cellY s i)
                          (Ultimate.cellW s) (Ultimate.cellH s)]
              | None => [ErrorTile r]
              end = false) as ->.
    { destruct (Ultimate.file item) as [bitmap|]; [|done].
      destruct (_ || _); [done|]. simpl.
      by rewrite (proj1 (coverImage_cell _ _ _ _ _ _ _)). }
    simpl. destruct (includes _ _); [by rewrite Hm1 | done].
  - intros ->. apply in_or_app. left. by left.
  - intros bitmap -> Hw Hh. rewrite Hsrc.
    destruct (Z.eqb_spec (bw bitmap) 0); [done|].
    destruct (Z.eqb_spec (bh bitmap) 0); [done|]. simpl.
    unfold coverImage. by destruct (Qlt_le_dec _ _).
Qed.

End Cells.

Section IkkoCells.

Local Open Scope Z_scope.

Lemma ikko_task_spec decode (o : Ikko.DrawOptions) i imgUrl :
  Ikko.images o !! i = Some imgUrl ->
  let r := mkRect (Ikko.cellX o i) (Ikko.cellY o i) (Ikko.w o) (Ikko.h o) in
  Forall (located r) (Ikko.task decode o i)
  /\ existsb isMaskOp (Ikko.task decode o i)
     = Ikko.applyMask o
       && includes (Ikko.maskIndices o) (Ikko.currentNum o i)
       && match Ikko.maskMode (Ikko.dsettings o) with
          | ModeLine => true
          | ModeImage =>
              match Ikko.stickerImgEl decode (Ikko.dsettings o) with
              | Some _ => true
              | None => false
              end
          end
  /\ (decode imgUrl = None -> In (ErrorTile r) (Ikko.task decode o i))
  /\ (decode imgUrl <> None -> drawnSources (Ikko.task decode o i) = [imgUrl]).
Proof.
  intros Hi r. unfold Ikko.task. rewrite Hi. fold r.
  set (s := Ikko.dsettings o).
  pose proof (drawNumber_plain (Ikko.showNum s) (Ikko.enableStroke s)
    (Ikko.enableShadow s) (Ikko.fontPos s) (Ikko.fontSize s)
    (Ikko.currentNum o i) (Ikko.cellX o i) (Ikko.cellY o i)
    (Ikko.w o) (Ikko.h o)) as [Hn1 Hn2].
  pose proof (drawMask_spec (Ikko.maskMode s) (Ikko.lineStyle s)
    (Ikko.stickerImgEl decode s)
    (Ikko.stickerSize s) (Ikko.stickerX s) (Ikko.stickerY s)
    (Ikko.cellX o i) (Ikko.cellY o i) (Ikko.w o) (Ikko.h o)) as [Hm1 Hm2].
  set (num := drawNumber _ _ _ _ _ _ _ _ _ _) in *.
  set (msk := drawMask _ _ _ _ _ _ _ _ _ _) in *.
  set (gate := Ikko.applyMask o && includes (Ikko.maskIndices o) (Ikko.currentNum o i)).
  split; [|split; [|split]].
  - apply Forall_app. split; [|apply Forall_app; split].
    + destruct (decode imgUrl) as [img|].
      * constructor; [|constructor]. right. apply coverImage_cell.
      * constructor; [by right | constructor].
    + by apply located_weaken_none.
    + destruct gate; [by apply located_weaken_some | constructor].
  - rewrite !existsb_isMaskOp_app, Hn1.
    assert (existsb isMaskOp
              match decode imgUrl with
              | Some img => [coverImage imgUrl (bw img) (bh img)
                               (Ikko.cellX o i) (Ikko.cellY o i) (Ikko.w o) (Ikko.h o)]
              | None => [ErrorTile r]
              end = false) as ->.
    { destruct (decode imgUrl) as [img|]; [|done]. simpl.
      by rewrite (proj1 (coverImage_cell _ _ _ _ _ _ _)). }
    simpl. destruct gate; [by rewrite Hm1 | done].
  - intros ->. apply in_or_app. left. by left.
  - intros Hdec. rewrite !drawnSources_app, (drawnSources_unlocated num Hn2).
    assert (drawnSources (if gate then msk else []) = []) as ->.
    { destruct gate; [subst msk; apply drawnSources_mask | done]. }
    rewrite !app_nil_r. destruct (decode imgUrl) as [img|]; [|done].
    simpl. unfold coverImage. by destruct (Qlt_le_dec _ _).
Qed.

End IkkoCells.

(** C2 (as amended).  In a page with [c >= 1] columns the item at local
    index [i] is drawn (picture, or placeholder when it does not decode)
    into the cell at row [i div c], column [i mod c], and everything tied to
    a cell in its draw sequence is tied to that cell.  The cell gets a mask
    decoration exactly when [startNumber + globalOffset + i] is in the mask
    index set and a decoration can be drawn: line mode, or sticker mode with
    a sticker picture; engine [Ikko] draws masks only when the run applies
    them ([applyMask]).  A render that is not cancelled issues the draw
    sequence of every cell between the set-up and the overlay.  In the scenario
    (start 1, offset 0, mask text ["2"], four pictures, two columns, line
    mode) cell 1, at row 0 and column 1, is the only masked cell. *)
Theorem C2_placement_and_mask
    (images : list Ultimate.ImageItem) (s : Ultimate.AppSettings) (off : Z)
    (mask : list Z) (sticker overlay : option Bitmap)
    (decode : list N -> option Bitmap) (o : Ikko.DrawOptions) (i : nat) :
  (1 <= Ultimate.cols s)%Z -> (1 <= Ikko.dcols o)%Z ->
  (i < length images)%nat -> (i < length (Ikko.images o))%nat ->
  (* engine Ultimate *)
  (Forall (located (mkRect
             ((Z.of_nat i mod Ultimate.cols s) * (Ultimate.cellW s + Ultimate.gap s))
             ((Z.of_nat i / Ultimate.cols s) * (Ultimate.cellH s + Ultimate.gap s))
             (Ultimate.cellW s) (Ultimate.cellH s)))
      (Ultimate.drawCell images s off mask sticker i)
   /\ (forall item, images !! i = Some item ->
       (Ultimate.file item = None ->
        In (ErrorTile (mkRect
              ((Z.of_nat i mod Ultimate.cols s) * (Ultimate.cellW s + Ultimate.gap s))
              ((Z.of_nat i / Ultimate.cols s) * (Ultimate.cellH s + Ultimate.gap s))
              (Ultimate.cellW s) (Ultimate.cellH s)))
           (Ultimate.drawCell images s off mask sticker i))
       /\ (forall bitmap, Ultimate.file item = Some bitmap ->
           bw bitmap <> 0%Z -> bh bitmap <> 0%Z ->
           drawnSources (Ultimate.drawCell images s off mask sticker i)
           = [Ultimate.url item]))
   /\ (existsb isMaskOp (Ultimate.drawCell images s off mask sticker i) = true
       <-> In (Ultimate.startNumber s + off + Z.of_nat i)%Z mask
           /\ (Ultimate.maskMode s = ModeLine \/ sticker <> None))
   /\ exists setup tail,
        fst (Ultimate.drawAsync images s off mask sticker overlay never 0)
        = Some (Ultimate.mkDrawResult
                  (setup
                   ++ flat_map (Ultimate.drawCell images s off mask sticker)
                        (seq 0 (length images))
                   ++ tail) true)
        /\ Forall (fun op => cellOf op = None) setup
        /\ Forall (fun op => cellOf op = None) tail)
  (* engine Ikko *)
  /\ (Forall (located (mkRect
                ((Z.of_nat i mod Ikko.dcols o) * (Ikko.w o + Ikko.dgap o))
                ((Z.of_nat i / Ikko.dcols o) * (Ikko.h o + Ikko.dgap o))
                (Ikko.w o) (Ikko.h o)))
        (Ikko.task decode o i)
      /\ (forall imgUrl, Ikko.images o !! i = Some imgUrl ->
          (decode imgUrl = None ->
           In (ErrorTile (mkRect
                 ((Z.of_nat i mod Ikko.dcols o) * (Ikko.w o + Ikko.dgap o))
                 ((Z.of_nat i / Ikko.dcols o) * (Ikko.h o + Ikko.dgap o))
                 (Ikko.w o) (Ikko.h o)))
              (Ikko.task decode o i))
          /\ (decode imgUrl <> None ->
              drawnSources (Ikko.task decode o i) = [imgUrl]))
      /\ (existsb isMaskOp (Ikko.task decode o i) = true
          <-> Ikko.applyMask o = true
              /\ In (Ikko.startNum o + Ikko.globalOffset o + Z.of_nat i)%Z
                   (Ikko.maskIndices o)
              /\ (Ikko.maskMode (Ikko.dsettings o) = ModeLine
                  \/ Ikko.stickerImgEl decode (Ikko.dsettings o) <> None))
      /\ exists setup tail,
           fst (Ikko.drawAsync decode o never 0)
           = setup ++ flat_map (Ikko.task decode o) (seq 0 (length (Ikko.images o)))
             ++ tail
           /\ Forall (fun op => cellOf op = None) setup
           /\ Forall (fun op => cellOf op = None) tail)
  (* the scenario *)
  /\ (Ultimate.maskedCells (ultimateGallery 4) (maskScenario ModeLine) 0
        (parseMaskIndices (Ultimate.maskIndices (maskScenario ModeLine))) None
      = [1%nat]
      /\ Ultimate.cellRow (maskScenario ModeLine) 1 = 0%Z
      /\ Ultimate.cellCol (maskScenario ModeLine) 1 = 1%Z)
  /\ (Ikko.maskedCells decodeAll (ikkoMaskOptions 4 IkkoApp.Apply) = [1%nat]
      /\ Ikko.cellRow (ikkoMaskOptions 4 IkkoApp.Apply) 1 = 0%Z
      /\ Ikko.cellCol (ikkoMaskOptions 4 IkkoApp.Apply) 1 = 1%Z).
Proof.
  intros Hc Hd Hi Hj.
  destruct (lookup_lt_is_Some_2 images i Hi) as [item Hitem].
  destruct (lookup_lt_is_Some_2 (Ikko.images o) i Hj) as [imgUrl Himg].
  destruct (ultimate_row_col s i Hc) as [Hrow Hcol].
  destruct (ikko_row_col o i Hd) as [Hrow' Hcol'].
  destruct (ultimate_drawCell_spec images s off mask sticker i item Hitem)
    as (U1 & U2 & U3 & U4).
  destruct (ikko_task_spec decode o i imgUrl Himg) as (I1 & I2 & I3 & I4).
  unfold Ultimate.cellX, Ultimate.cellY in U1, U3. rewrite Hrow, Hcol in U1, U3.
  unfold Ikko.cellX, Ikko.cellY in I1, I3. rewrite Hrow', Hcol' in I1, I3.
  split; [|split; [|split]].
  - split; [exact U1|]. split; [|split].
    + intros item' Hitem'. rewrite Hitem in Hitem'. inversion Hitem'; subst.
      split; [exact U3 | exact U4].
    + rewrite U2, andb_true_iff, includes_In. unfold Ultimate.currentNum.
      destruct (Ultimate.maskMode s), sticker; intuition congruence.
    + destruct (ceilDiv_pos (Z.of_nat (length images)) (Ultimate.cols s) ltac:(lia))
        as (rows & Hrows & _).
      eexists _, _. split; [|split].
      * apply (ultimate_drawAsync_quiet images s off mask sticker overlay never 0 rows);
          [done | exact Hrows].
      * repeat constructor.
      * destruct overlay; repeat constructor.
  - split; [exact I1|]. split; [|split].
    + intros imgUrl' Himg'. rewrite Himg in Himg'. inversion Himg'; subst.
      split; [exact I3 | exact I4].
    + rewrite I2, !andb_true_iff, includes_In. unfold Ikko.currentNum.
      destruct (Ikko.maskMode (Ikko.dsettings o)),
        (Ikko.stickerImgEl decode (Ikko.dsettings o)); intuition congruence.
    + eexists _, _. split; [|split].
      * apply (ikko_drawAsync_quiet decode o never 0). done.
      * repeat constructor.
      * destruct (Ikko.overlayImgEl _ _); repeat constructor.
  - repeat split; vm_compute; reflexivity.
  - repeat split; vm_compute; reflexivity.
Qed.

(** The "iff" of C2 fails where the engines gate the decoration: in sticker
    mode with no sticker picture engine [Ultimate] masks no cell although
    cell 1 carries number 2; after strip-and-repack engine [Ikko] masks no
    cell although the renumbered cell 1 carries number 2. *)
Lemma C2_counterexample_gated_mask :
  In (Ultimate.currentNum (maskScenario ModeImage) 0 1)
     (parseMaskIndices (Ultimate.maskIndices (maskScenario ModeImage)))
  /\ Ultimate.maskedCells (ultimateGallery 4) (maskScenario ModeImage) 0
       (parseMaskIndices (Ultimate.maskIndices (maskScenario ModeImage))) None
     = []
  /\ length (Ikko.images (ikkoMaskOptions 5 IkkoApp.Repack)) = 4%nat
  /\ In (Ikko.currentNum (ikkoMaskOptions 5 IkkoApp.Repack) 1)
        (Ikko.maskIndices (ikkoMaskOptions 5 IkkoApp.Repack))
  /\ Ikko.maskedCells decodeAll (ikkoMaskOptions 5 IkkoApp.Repack) = [].
Proof.
  repeat split; vm_compute; auto.
Qed.

(** ** Duplicate removal *)

Section Dedup.

Import UltimateApp.

Lemma dedupLoop_app (l1 l2 : list Ultimate.ImageItem) (seen : gset (list N)) :
  dedupLoop (l1 ++ l2) seen
  = (fst (dedupLoop l1 seen) ++ fst (dedupLoop l2 (seen ∪ keysOf l1)),
     snd (dedupLoop l1 seen) ++ snd (dedupLoop l2 (seen ∪ keysOf l1))).
Proof.
  revert seen. induction l1 as [|x l1 IH]; intros seen.
  - simpl. unfold keysOf. simpl. rewrite (right_id_L ∅ (∪)).
    by destruct (dedupLoop l2 seen).
  - simpl. destruct (decide (dupKey x ∈ seen)) as [Hin|Hout].
    + rewrite IH.
      replace (seen ∪ keysOf (x :: l1)) with (seen ∪ keysOf l1)
        by (unfold keysOf; simpl; set_solver).
      by destruct (dedupLoop l1 seen).
    + rewrite IH.
      replace (seen ∪ keysOf (x :: l1)) with ({[dupKey x]} ∪ seen ∪ keysOf l1)
        by (unfold keysOf; simpl; set_solver).
      by destruct (dedupLoop l1 ({[dupKey x]} ∪ seen)).
Qed.

Lemma dedupLoop_sublist (l : list Ultimate.ImageItem) (seen : gset (list N)) :
  fst (dedupLoop l seen) `sublist_of` l.
Proof.
  revert seen. induction l as [|x l IH]; intros seen; [done|]. simpl.
  destruct (decide (dupKey x ∈ seen)).
  - specialize (IH seen). destruct (dedupLoop l seen). simpl in *.
    by apply sublist_cons.
  - specialize (IH ({[dupKey x]} ∪ seen)).
    destruct (dedupLoop l ({[dupKey x]} ∪ seen)). simpl in *.
    by apply sublist_skip.
Qed.

Lemma dedupLoop_fresh (l : list Ultimate.ImageItem) (seen : gset (list N)) :
  NoDup (map dupKey (fst (dedupLoop l seen)))
  /\ forall x, x ∈ fst (dedupLoop l seen) -> dupKey x ∉ seen.
Proof.
  revert seen. induction l as [|x l IH]; intros seen.
  - simpl. split; [constructor | intros x Hx; by apply elem_of_nil in Hx].
  - simpl. destruct (decide (dupKey x ∈ seen)) as [Hin|Hout].
    + specialize (IH seen). by destruct (dedupLoop l seen).
    + specialize (IH ({[dupKey x]} ∪ seen)).
      destruct (dedupLoop l ({[dupKey x]} ∪ seen)) as [keep ids].
      simpl in *. destruct IH as [Hnd Hfresh]. split.
      * constructor; [|done]. intros Hx.
        apply list_elem_of_fmap in Hx as (y & Hy1 & Hy2).
        apply Hfresh in Hy2. set_solver.
      * intros y Hy. apply elem_of_cons in Hy as [->|Hy]; [done|].
        apply Hfresh in Hy. set_solver.
Qed.

Lemma dedupLoop_covers (l : list Ultimate.ImageItem) (seen : gset (list N)) :
  forall x, x ∈ l ->
    dupKey x ∈ seen \/ dupKey x ∈ map dupKey (fst (dedupLoop l seen)).
Proof.
  revert seen. induction l as [|y l IH]; intros seen x Hx.
  - by apply elem_of_nil in Hx.
  - simpl. apply elem_of_cons in Hx.
    destruct (decide (dupKey y ∈ seen)) as [Hin|Hout].
    + specialize (IH seen x). destruct (dedupLoop l seen).
      destruct Hx as [->|Hx]; [by left | by apply IH].
    + specialize (IH ({[dupKey y]} ∪ seen) x).
      destruct (dedupLoop l ({[dupKey y]} ∪ seen)) as [keep ids]. simpl in *.
      destruct Hx as [->|Hx]; [right; by left|].
      destruct (IH Hx) as [H|H].
      * apply elem_of_union in H as [H|H]; [|by left].
        apply elem_of_singleton in H. right. rewrite H. by left.
      * right. by right.
Qed.

End Dedup.

Section DedupSplit.

Import UltimateApp.

Lemma keysOf_elem (l : list Ultimate.ImageItem) (k : list N) :
  k ∈ keysOf l <-> k ∈ map dupKey l.
Proof. unfold keysOf. apply elem_of_list_to_set. Qed.

Lemma keysOf_snoc (l : list Ultimate.ImageItem) (x : Ultimate.ImageItem) :
  keysOf (l ++ [x]) = {[dupKey x]} ∪ keysOf l.
Proof. unfold keysOf. rewrite map_app, list_to_set_app_L. simpl. set_solver. Qed.

(** The occurrence at position [length l1] is kept exactly when no earlier
    item has its key. *)
Lemma dedupLoop_split (l1 l2 : list Ultimate.ImageItem) (x : Ultimate.ImageItem) :
  fst (dedupLoop (l1 ++ x :: l2) ∅)
  = fst (dedupLoop l1 ∅)
    ++ (if decide (dupKey x ∈ map dupKey l1) then [] else [x])
    ++ fst (dedupLoop l2 (keysOf (l1 ++ [x]))).
Proof.
  rewrite dedupLoop_app. simpl fst. f_equal.
  rewrite (left_id_L ∅ (∪)). simpl. rewrite keysOf_snoc.
  destruct (decide (dupKey x ∈ keysOf l1)) as [Hin|Hout].
  - rewrite decide_True by (by apply keysOf_elem).
    replace ({[dupKey x]} ∪ keysOf l1) with (keysOf l1) by set_solver.
    by destruct (dedupLoop l2 (keysOf l1)).
  - rewrite decide_False by (by rewrite <- keysOf_elem).
    by destruct (dedupLoop l2 ({[dupKey x]} ∪ keysOf l1)).
Qed.

End DedupSplit.

(** What duplicate removal does on the keys the code builds (the display
    name followed by the decimal digits of the byte size, as one string): it
    keeps exactly the first occurrence, in gallery order, of every key,
    removes every later occurrence of the same key, and keeps the relative
    order of the kept items. *)
Lemma removeDuplicates_first_occurrences (st : UltimateApp.AppState) :
  UltimateApp.images (UltimateApp.removeDuplicates st)
    `sublist_of` UltimateApp.images st
  /\ NoDup (map UltimateApp.dupKey (UltimateApp.images (UltimateApp.removeDuplicates st)))
  /\ (forall x, x ∈ UltimateApp.images st ->
        UltimateApp.dupKey x
          ∈ map UltimateApp.dupKey (UltimateApp.images (UltimateApp.removeDuplicates st)))
  /\ (forall l1 x l2, UltimateApp.images st = l1 ++ x :: l2 ->
        UltimateApp.images (UltimateApp.removeDuplicates st)
        = UltimateApp.images (UltimateApp.removeDuplicates (UltimateApp.setImages st l1))
          ++ (if decide (UltimateApp.dupKey x ∈ map UltimateApp.dupKey l1)
              then [] else [x])
          ++ fst (UltimateApp.dedupLoop l2 (keysOf (l1 ++ [x]))))
  /\ (forall item, UltimateApp.dupKey item
        = Ultimate.name item ++ numberToString (Ultimate.size item)).
Proof.
  unfold UltimateApp.removeDuplicates. simpl.
  split; [|split; [|split; [|split]]].
  - apply dedupLoop_sublist.
  - apply dedupLoop_fresh.
  - intros x Hx.
    destruct (dedupLoop_covers (UltimateApp.images st) ∅ x Hx) as [H|H];
      [set_solver | done].
  - intros l1 x l2 ->. apply dedupLoop_split.
  - done.
Qed.

(** C10 at a gallery the code mishandles.  The pictures "img1" (2048 bytes)
    and "img" (12048 bytes) have different (name, size) identities, so each
    is the first occurrence of its own; but both keys are the string
    "img12048", and duplicate removal drops the second picture. *)
Lemma C10_key_collision_drops_distinct_item :
  UltimateApp.images collidingGallery
  = [ultimateItem "img1" 2048; ultimateItem "img" 12048]
  /\ (Ultimate.name (ultimateItem "img1" 2048), Ultimate.size (ultimateItem "img1" 2048))
     <> (Ultimate.name (ultimateItem "img" 12048), Ultimate.size (ultimateItem "img" 12048))
  /\ UltimateApp.dupKey (ultimateItem "img1" 2048) = ofString "img12048"
  /\ UltimateApp.dupKey (ultimateItem "img" 12048) = ofString "img12048"
  /\ UltimateApp.images (UltimateApp.removeDuplicates collidingGallery)
     = [ultimateItem "img1" 2048].
Proof.
  repeat split; try (vm_compute; congruence).
Qed.

(** ** Vertical combine *)

Section Combine.

Import UltimateApp.

Local Open Scope R_scope.

Lemma floorR_le (x : R) (z : Z) : x <= IZR z -> (floorR x <= z)%Z.
Proof.
  intros H. apply le_IZR. unfold floorR.
  destruct (base_Int_part x) as [Hlo _]. Lra.lra.
Qed.

Lemma needsDownscale_true (maxW totH : Z) :
  (MAX_SAFE_TOTAL_HEIGHT < totH \/ PIXEL_LIMIT < maxW * totH)%Z ->
  needsDownscale maxW totH = true.
Proof.
  intros H. unfold needsDownscale. apply orb_true_iff.
  destruct H; [left | right]; apply Z.gtb_lt; lia.
Qed.

Lemma total_height_pos (maxW totH : Z) :
  (0 <= maxW)%Z ->
  (MAX_SAFE_TOTAL_HEIGHT < totH \/ PIXEL_LIMIT < maxW * totH)%Z ->
  (0 < totH)%Z /\ ((PIXEL_LIMIT < maxW * totH)%Z -> (0 < maxW * totH)%Z).
Proof.
  unfold MAX_SAFE_TOTAL_HEIGHT, PIXEL_LIMIT. intros HW H. split; [nia | lia].
Qed.

Lemma combineScale_bounds (maxW totH : Z) :
  (0 <= maxW)%Z ->
  (MAX_SAFE_TOTAL_HEIGHT < totH \/ PIXEL_LIMIT < maxW * totH)%Z ->
  combineScale maxW totH
  = Rmin (IZR MAX_SAFE_TOTAL_HEIGHT / IZR totH)
         (sqrt (IZR PIXEL_LIMIT / IZR (maxW * totH)))
  /\ IZR totH * combineScale maxW totH <= IZR MAX_SAFE_TOTAL_HEIGHT.
Proof.
  intros HW H. unfold combineScale. rewrite (needsDownscale_true _ _ H).
  split; [done|].
  destruct (total_height_pos maxW totH HW H) as [Hpos _].
  apply IZR_lt in Hpos.
  apply Rle_trans with (IZR totH * (IZR MAX_SAFE_TOTAL_HEIGHT / IZR totH)).
  - apply Rmult_le_compat_l; [Lra.lra | apply Rmin_l].
  - right. field. Lra.lra.
Qed.

End Combine.


(** ** The theorems at concrete inputs *)

Lemma sticky_from (k : nat) : sticky (from k).
Proof.
  intros i j Hij Hi. unfold from in *.
  apply Nat.leb_le. apply Nat.leb_le in Hi. lia.
Defined.

Lemma C1_cancellation_witness :
  sticky afterFirstPage
  /\ UltimateApp.images threePagesUltimate <> []
  /\ IkkoApp.images threePagesIkko <> []
  /\ ultimatePublished threePagesUltimate UltimateApp.Normal encodeAll afterFirstPage
     = Some []
  /\ ikkoPublished decodeAll threePagesIkko IkkoApp.Normal encodeAll afterFirstPage
     = Some []
  /\ (exists k, k < ultimateReads threePagesUltimate UltimateApp.Normal encodeAll afterFirstPage
                /\ afterFirstPage k = true)
  /\ (@nil Blob = [] /\ @nil Blob = []).
Proof.
  assert (sticky afterFirstPage) as Hs by apply sticky_from.
  assert (UltimateApp.images threePagesUltimate <> []) as HU
    by (vm_compute; congruence).
  assert (IkkoApp.images threePagesIkko <> []) as HI
    by (vm_compute; congruence).
  assert (ultimatePublished threePagesUltimate UltimateApp.Normal encodeAll afterFirstPage
          = Some []) as HUp by (vm_compute; reflexivity).
  assert (ikkoPublished decodeAll threePagesIkko IkkoApp.Normal encodeAll afterFirstPage
          = Some []) as HIp by (vm_compute; reflexivity).
  assert (exists k, k < ultimateReads threePagesUltimate UltimateApp.Normal encodeAll afterFirstPage
                    /\ afterFirstPage k = true) as HkU.
  { exists 4. split; [vm_compute; lia | reflexivity]. }
  assert (exists k, k < ikkoReads decodeAll threePagesIkko IkkoApp.Normal encodeAll afterFirstPage
                    /\ afterFirstPage k = true) as HkI.
  { exists 4. split; [vm_compute; lia | reflexivity]. }
  pose proof (C1_cancellation_publishes_nothing
    threePagesUltimate UltimateApp.Normal decodeAll threePagesIkko IkkoApp.Normal
    encodeAll afterFirstPage [] []
    (match ultimateLocal threePagesUltimate UltimateApp.Normal encodeAll afterFirstPage
     with Some l => l | None => [] end)
    (match ikkoLocal decodeAll threePagesIkko IkkoApp.Normal encodeAll afterFirstPage
     with Some l => l | None => [] end)
    Hs HU HI HUp ltac:(vm_compute; reflexivity) HIp ltac:(vm_compute; reflexivity))
    as (T1 & _ & T3 & _).
  repeat split; try assumption.
Defined.

Lemma C2_placement_and_mask_witness :
  (1 <= Ultimate.cols (maskScenario ModeLine))%Z
  /\ (1 <= Ikko.dcols (ikkoMaskOptions 4 IkkoApp.Apply))%Z
  /\ (1 < length (ultimateGallery 4))%nat
  /\ (1 < length (Ikko.images (ikkoMaskOptions 4 IkkoApp.Apply)))%nat
  /\ (existsb isMaskOp
        (Ultimate.drawCell (ultimateGallery 4) (maskScenario ModeLine) 0
           (parseMaskIndices (Ultimate.maskIndices (maskScenario ModeLine))) None 1)
      = true
      <-> In (Ultimate.startNumber (maskScenario ModeLine) + 0 + Z.of_nat 1)%Z
            (parseMaskIndices (Ultimate.maskIndices (maskScenario ModeLine)))
          /\ (Ultimate.maskMode (maskScenario ModeLine) = ModeLine
              \/ @None Bitmap <> None)).
Proof.
  assert (1 <= Ultimate.cols (maskScenario ModeLine))%Z as H1 by (vm_compute; congruence).
  assert (1 <= Ikko.dcols (ikkoMaskOptions 4 IkkoApp.Apply))%Z as H2
    by (vm_compute; congruence).
  assert (1 < length (ultimateGallery 4))%nat as H3 by (vm_compute; lia).
  assert (1 < length (Ikko.images (ikkoMaskOptions 4 IkkoApp.Apply)))%nat as H4
    by (vm_compute; lia).
  repeat (split; [assumption|]).
  exact (proj1 (proj2 (proj2 (proj1
    (C2_placement_and_mask (ultimateGallery 4) (maskScenario ModeLine) 0
       (parseMaskIndices (Ultimate.maskIndices (maskScenario ModeLine)))
       None None decodeAll (ikkoMaskOptions 4 IkkoApp.Apply) 1 H1 H2 H3 H4))))).
Defined.

Lemma C3_batch_partition_witness :
  (1 <= 2)%Z
  /\ (1 <= length (UltimateApp.targetIndices ultimateRepack5 UltimateApp.Normal))%nat
  /\ (1 <= length (IkkoApp.targets ikkoRepack5 IkkoApp.Normal))%nat
  /\ exists t : nat,
       UltimateApp.totalBatches
         (length (UltimateApp.targetIndices ultimateRepack5 UltimateApp.Normal)) 2
       = Some t
       /\ concat (map (UltimateApp.batchImages (UltimateApp.images ultimateRepack5)
                         (UltimateApp.targetIndices ultimateRepack5 UltimateApp.Normal) 2)
                    (seq 0 t))
          = omap (fun i => UltimateApp.images ultimateRepack5 !! i)
              (UltimateApp.targetIndices ultimateRepack5 UltimateApp.Normal).
Proof.
  assert (1 <= 2)%Z as H1 by lia.
  assert (1 <= length (UltimateApp.targetIndices ultimateRepack5 UltimateApp.Normal))%nat
    as H2 by (vm_compute; lia).
  assert (1 <= length (IkkoApp.targets ikkoRepack5 IkkoApp.Normal))%nat as H3
    by (vm_compute; lia).
  repeat (split; [assumption|]).
  destruct (C3_batch_partition ultimateRepack5 UltimateApp.Normal
              ikkoRepack5 IkkoApp.Normal 2 H1 H2 H3)
    as [(t & Ht & _ & _ & _ & Hc) _].
  exists t. split; assumption.
Defined.

Lemma C4_strip_and_repack_witness :
  (1 <= 3)%Z /\ (Z.of_nat 0 < 3)%Z
  /\ Ultimate.currentNum (UltimateApp.settings ultimateRepack5) (Z.of_nat 1 * 3) 0
     = (Ultimate.startNumber (UltimateApp.settings ultimateRepack5)
        + Z.of_nat (1 * Z.to_nat 3 + 0))%Z.
Proof.
  assert (1 <= 3)%Z as H1 by lia.
  assert (Z.of_nat 0 < 3)%Z as H2 by lia.
  repeat (split; [assumption|]).
  exact (proj2 (proj2 (proj2 (proj1
    (C4_strip_and_repack ultimateRepack5 ikkoRepack5 3 1 0 2 H1 H2))))).
Defined.


Lemma C6_page_format_witness :
  ultimateLocal (ultimateState 1 customQuality100) UltimateApp.Normal encodeAll never
  = Some (match ultimateLocal (ultimateState 1 customQuality100)
                  UltimateApp.Normal encodeAll never
          with Some l => l | None => [] end)
  /\ ikkoLocal decodeAll (ikkoState 1 quality150) IkkoApp.Normal encodeAll never
     = Some (match ikkoLocal decodeAll (ikkoState 1 quality150)
                     IkkoApp.Normal encodeAll never
             with Some l => l | None => [] end)
  /\ Forall (ultimateFormatRule customQuality100)
       (match ultimateLocal (ultimateState 1 customQuality100)
                UltimateApp.Normal encodeAll never
        with Some l => l | None => [] end).
Proof.
  assert (ultimateLocal (ultimateState 1 customQuality100) UltimateApp.Normal encodeAll never
          = Some (match ultimateLocal (ultimateState 1 customQuality100)
                          UltimateApp.Normal encodeAll never
                  with Some l => l | None => [] end)) as H1
    by (vm_compute; reflexivity).
  assert (ikkoLocal decodeAll (ikkoState 1 quality150) IkkoApp.Normal encodeAll never
          = Some (match ikkoLocal decodeAll (ikkoState 1 quality150)
                          IkkoApp.Normal encodeAll never
                  with Some l => l | None => [] end)) as H2
    by (vm_compute; reflexivity).
  repeat (split; [assumption|]).
  exact (proj1 (C6_page_format _ _ _ _ _ _ _ _ _ _ _ H1 H2)).
Defined.


Lemma C9_dimension_planner_witness :
  (9 < 10)%Z /\ (0 <= 0)%Z
  /\ (Ikko.MAX_CANVAS_DIMENSION < 9 * 1500)%Z
  /\ (9 * 10 <= Ikko.MAX_CANVAS_DIMENSION * (10 - 9))%Z
  /\ (fst (Ikko.calculateCellDimensions 10 (75 # 100) 0)
      < fst (Ikko.calculateCellDimensions 9 (75 # 100) 0))%Z.
Proof.
  assert (9 < 10)%Z as H1 by lia.
  assert (0 <= 0)%Z as H2 by lia.
  assert (Ikko.MAX_CANVAS_DIMENSION < 9 * 1500)%Z as H3 by (vm_compute; reflexivity).
  assert (9 * 10 <= Ikko.MAX_CANVAS_DIMENSION * (10 - 9))%Z as H4
    by (vm_compute; congruence).
  repeat (split; [assumption|]).
  exact (proj2 (proj1
    (C9_dimension_planner 9 10 0 (75 # 100)
       (ultimateSettings 9 0 0 (75 # 100) "" ModeLine 80 "0.80")
       (ultimateSettings 10 0 0 (75 # 100) "" ModeLine 80 "0.80")
       H1 H2 eq_refl eq_refl eq_refl eq_refl) H3) H4).
Defined.

(* ===================================================================== *)
(** * Part III. Further properties of the code *)
(* ===================================================================== *)

Import Measures Gallery FileImport Downloads Preview StripMeasures Scenes.

(** ** The index parser: general facts *)

Section ParserGeneral.

Local Open Scope N_scope.

Lemma includesChar_app (ch : N) (s1 s2 : jsstr) :
  includesChar ch (s1 ++ s2) = includesChar ch s1 || includesChar ch s2.
Proof. apply existsb_app. Qed.

Lemma includesChar_rev (ch : N) (s : jsstr) :
  includesChar ch (rev s) = includesChar ch s.
Proof.
  induction s as [|c s IH]; [done|]. simpl.
  rewrite includesChar_app, IH. simpl. rewrite orb_false_r. apply orb_comm.
Qed.

Lemma includesChar_trimStart (ch : N) (s : jsstr) :
  includesChar ch s = false -> includesChar ch (trimStart s) = false.
Proof.
  induction s as [|c s IH]; [done|]. simpl. intros H.
  apply orb_false_iff in H as [H1 H2].
  destruct (isWhiteSpace c); [by apply IH|]. simpl. by rewrite H1, H2.
Qed.

(** Without a minus sign in front there is no negative result. *)
Lemma parseInt_nonneg (s : jsstr) (z : Z) :
  includesChar hyphen s = false -> parseInt s = Some z -> (0 <= z)%Z.
Proof.
  intros Hs. apply includesChar_trimStart in Hs. unfold parseInt.
  destruct (trimStart s) as [|c r] eqn:E.
  - simpl. done.
  - simpl in Hs. apply orb_false_iff in Hs as [Hc _].
    apply N.eqb_neq in Hc. unfold hyphen in Hc.
    assert (match c :: r with
            | 45 :: r0 => (true, r0)
            | 43 :: r0 => (false, r0)
            | _ => (false, c :: r)
            end = (false, match c :: r with 43 :: r0 => r0 | _ => c :: r end)) as ->.
    { destruct c as [|p]; [done|].
      repeat (destruct p as [p|p|]; try done). }
    destruct (match _ with 48 :: 120 :: r0 => _ | _ => _ end) as [radix s3].
    destruct (digitsPrefix radix None s3); intros H; inversion H; lia.
Qed.

Lemma splitCharAux_pieces (ch : N) (s acc : jsstr) :
  includesChar ch acc = false ->
  Forall (fun p => includesChar ch p = false) (splitCharAux ch acc s).
Proof.
  revert acc. induction s as [|c s IH]; intros acc Hacc; simpl.
  - constructor; [by rewrite includesChar_rev | constructor].
  - destruct (N.eqb_spec c ch) as [->|Hne].
    + constructor; [by rewrite includesChar_rev | by apply IH].
    + apply IH. simpl. rewrite Hacc, orb_false_r. by apply N.eqb_neq.
Qed.

Lemma pushRange_In (s e k : Z) :
  In k (pushRange s e) <-> (Z.min s e <= k <= Z.max s e)%Z.
Proof.
  unfold pushRange. rewrite in_map_iff. split.
  - intros (i & <- & Hi). apply in_seq in Hi. lia.
  - intros Hk. exists (Z.to_nat (k - Z.min s e)). split; [lia|].
    apply in_seq. lia.
Qed.

Lemma parsePart_nonneg (part : jsstr) (k : Z) :
  In k (parsePart part) -> (0 <= k)%Z.
Proof.
  unfold parsePart. destruct (isEmpty (trim part)); [done|].
  set (sp := replaceAll isDashLike hyphen (trim part)).
  destruct (includesChar hyphen sp) eqn:Hinc.
  - pose proof (splitCharAux_pieces hyphen sp [] eq_refl) as Hp.
    fold (splitChar hyphen sp) in Hp.
    destruct (splitChar hyphen sp) as [|p0 [|p1 [|p2 ps]]]; try done.
    inversion Hp as [|? ? H0 Hp']; subst. inversion Hp' as [|? ? H1 _]; subst.
    destruct (parseInt p0) as [s|] eqn:E0; [|done].
    destruct (parseInt p1) as [e|] eqn:E1; [|done].
    apply parseInt_nonneg in E0; [|done]. apply parseInt_nonneg in E1; [|done].
    intros Hk. apply pushRange_In in Hk. lia.
  - destruct (parseInt sp) as [num|] eqn:E; [|done].
    apply parseInt_nonneg in E; [|done]. intros [<-|[]]. done.
Qed.

End ParserGeneral.

(** X1.  Whatever the text, the index parser never yields a negative
    index: a minus sign is always read as a range separator. *)
Theorem X1_parsed_indices_nonnegative (input : jsstr) (k : Z) :
  In k (parseMaskIndices input) -> (0 <= k)%Z.
Proof.
  unfold parseMaskIndices. rewrite in_flat_map.
  intros (part & _ & Hk). by apply parsePart_nonneg in Hk.
Qed.

Lemma X1_parsed_indices_nonnegative_witness :
  In 2%Z (parseMaskIndices (ofString "1-3")) /\ (0 <= 2)%Z.
Proof.
  assert (In 2%Z (parseMaskIndices (ofString "1-3"))) as H.
  { vm_compute. auto. }
  split; [exact H|].
  exact (X1_parsed_indices_nonnegative (ofString "1-3") 2 H).
Defined.

Section ParserTokens.

Local Open Scope N_scope.

Lemma dash_not_white (c : N) :
  isDashLike c || (c =? hyphen) = true -> isWhiteSpace c = false.
Proof.
  unfold isDashLike, hyphen. rewrite !orb_true_iff, !N.eqb_eq.
  intros [[[->| ->]| ->]| ->]; reflexivity.
Qed.

Lemma plainChar_spec (c : N) :
  plainChar c = true ->
  isWhiteSpace c = false /\ isDashLike c = false /\ (c =? hyphen) = false.
Proof.
  unfold plainChar, isSeparator. rewrite negb_true_iff, !orb_false_iff.
  intros [[[_ Hw] Hd] Hh]. done.
Qed.

Lemma trimStart_id (s : jsstr) :
  forallb (fun c => negb (isWhiteSpace c)) s = true -> trimStart s = s.
Proof. destruct s as [|c s]; [done|]. simpl. by destruct (isWhiteSpace c). Qed.

Lemma trim_id (s : jsstr) :
  forallb (fun c => negb (isWhiteSpace c)) s = true -> trim s = s.
Proof.
  intros H. unfold trim. rewrite (trimStart_id s H).
  rewrite trimStart_id; [apply rev_involutive|].
  rewrite forallb_forall in *. intros c Hc. apply H. by apply in_rev.
Qed.

Lemma splitCharAux_none (ch : N) (s acc : jsstr) :
  includesChar ch s = false -> splitCharAux ch acc s = [rev acc ++ s].
Proof.
  revert acc. induction s as [|c s IH]; intros acc H; simpl.
  - by rewrite app_nil_r.
  - simpl in H. apply orb_false_iff in H as [H1 H2]. rewrite H1.
    rewrite IH by done. simpl. by rewrite <- app_assoc.
Qed.

Lemma splitCharAux_cut (ch : N) (s t acc : jsstr) :
  includesChar ch s = false ->
  splitCharAux ch acc (s ++ ch :: t) = (rev acc ++ s) :: splitCharAux ch [] t.
Proof.
  revert acc. induction s as [|c s IH]; intros acc H; simpl.
  - rewrite N.eqb_refl. by rewrite app_nil_r.
  - simpl in H. apply orb_false_iff in H as [H1 H2]. rewrite H1.
    rewrite IH by done. simpl. by rewrite <- app_assoc.
Qed.

Lemma plain_facts (p : jsstr) :
  forallb plainChar p = true ->
  forallb (fun c => negb (isWhiteSpace c)) p = true
  /\ replaceAll isDashLike hyphen p = p
  /\ includesChar hyphen p = false.
Proof.
  induction p as [|c p IH]; [done|]. simpl. intros H.
  apply andb_true_iff in H as [Hc Hp].
  destruct (plainChar_spec c Hc) as (Hw & Hd & Hh).
  destruct (IH Hp) as (I1 & I2 & I3).
  rewrite Hw, Hh, I1, I3. simpl. split; [done|]. split; [|done].
  unfold replaceAll in *. simpl. by rewrite Hd, I2.
Qed.

End ParserTokens.

(** X2.  A range token [a d b], where [d] is a hyphen or one of the dash
    characters that are normalised to it and [a], [b] are number tokens,
    contributes exactly the integers from [min(a, b)] to [max(a, b)],
    whichever bound is written first. *)
Theorem X2_range_token (p0 p1 : jsstr) (d : N) (s e : Z) :
  forallb plainChar p0 = true -> forallb plainChar p1 = true ->
  d = hyphen \/ isDashLike d = true ->
  parseInt p0 = Some s -> parseInt p1 = Some e ->
  parsePart (p0 ++ d :: p1) = pushRange s e
  /\ (forall k, In k (parsePart (p0 ++ d :: p1))
                <-> (Z.min s e <= k <= Z.max s e)%Z)
  /\ (forall k, In k (pushRange s e) <-> In k (pushRange e s)).
Proof.
  intros H0 H1 Hd E0 E1.
  destruct (plain_facts p0 H0) as (W0 & R0 & I0).
  destruct (plain_facts p1 H1) as (W1 & R1 & I1).
  assert (isDashLike d || (d =? hyphen)%N = true) as Hdash.
  { destruct Hd as [->|Hd]; [done | by rewrite Hd]. }
  assert (parsePart (p0 ++ d :: p1) = pushRange s e) as Hpart.
  { unfold parsePart. rewrite trim_id.
    2:{ rewrite forallb_app. simpl. rewrite W0, W1, (dash_not_white d Hdash). done. }
    assert (p0 <> []) as Hne by (intros ->; done).
    destruct p0 as [|c0 p0'] eqn:Ep0; [done|]. rewrite <- Ep0 in *.
    assert (isEmpty (p0 ++ d :: p1) = false) as -> by (rewrite Ep0; done).
    assert (replaceAll isDashLike hyphen (p0 ++ d :: p1) = p0 ++ hyphen :: p1) as ->.
    { unfold replaceAll in *. rewrite map_app. simpl. rewrite R0, R1.
      destruct Hd as [->|Hd]; [done | by rewrite Hd]. }
    assert (includesChar hyphen (p0 ++ hyphen :: p1) = true) as ->.
    { rewrite includesChar_app. apply orb_true_iff. right. reflexivity. }
    unfold splitChar. rewrite splitCharAux_cut by done.
    rewrite splitCharAux_none by done. simpl. by rewrite E0, E1. }
  split; [done|]. split.
  - intros k. rewrite Hpart. apply pushRange_In.
  - intros k. rewrite !pushRange_In. lia.
Qed.

Lemma X2_range_token_witness :
  forallb plainChar (ofString "12") = true
  /\ forallb plainChar (ofString "9") = true
  /\ (126%N = hyphen \/ isDashLike 126 = true)
  /\ parseInt (ofString "12") = Some 12%Z
  /\ parseInt (ofString "9") = Some 9%Z
  /\ parsePart (ofString "12~9") = pushRange 12 9.
Proof.
  assert (forallb plainChar (ofString "12") = true) as H0 by reflexivity.
  assert (forallb plainChar (ofString "9") = true) as H1 by reflexivity.
  assert (126%N = hyphen \/ isDashLike 126 = true) as Hd by (right; reflexivity).
  assert (parseInt (ofString "12") = Some 12%Z) as E0 by reflexivity.
  assert (parseInt (ofString "9") = Some 9%Z) as E1 by reflexivity.
  repeat (split; [assumption|]).
  exact (proj1 (X2_range_token (ofString "12") (ofString "9") 126 12 9
                  H0 H1 Hd E0 E1)).
Defined.

Section ParserDashes.

Lemma dashes_cons (c : N) (s : jsstr) :
  dashes (c :: s)
  = ((if isDashLike c || (c =? hyphen)%N then 1 else 0) + dashes s)%nat.
Proof.
  unfold dashes. rewrite filter_cons.
  destruct (isDashLike c || (c =? hyphen)%N) eqn:E.
  - by rewrite decide_True.
  - by rewrite decide_False.
Qed.

Lemma dashes_trimStart (s : jsstr) : dashes (trimStart s) = dashes s.
Proof.
  induction s as [|c s IH]; [done|]. simpl.
  destruct (isWhiteSpace c) eqn:Hw; [|done].
  rewrite IH, dashes_cons.
  destruct (isDashLike c || (c =? hyphen)%N) eqn:E; [|done].
  apply dash_not_white in E. congruence.
Qed.

Lemma dashes_rev (s : jsstr) : dashes (rev s) = dashes s.
Proof.
  unfold dashes. apply Permutation_length, filter_Permutation.
  symmetry. apply Permutation_rev.
Qed.

Lemma dashes_trim (s : jsstr) : dashes (trim s) = dashes s.
Proof.
  unfold trim. by rewrite dashes_rev, dashes_trimStart, dashes_rev, dashes_trimStart.
Qed.

(** [split('-')] gives one piece more than there are hyphens. *)
Lemma splitCharAux_length (s acc : jsstr) :
  length (splitCharAux hyphen acc (replaceAll isDashLike hyphen s))
  = S (dashes s).
Proof.
  revert acc. induction s as [|c s IH]; intros acc; [done|].
  rewrite dashes_cons. simpl.
  destruct (isDashLike c) eqn:Hd; simpl.
  - by rewrite IH.
  - destruct (c =? hyphen)%N; simpl; by rewrite IH.
Qed.

End ParserDashes.

(** X3.  A part with two or more dash characters (hyphen, tilde, en dash or
    em dash) contributes no index at all, whatever stands between them. *)
Theorem X3_multi_dash_part_ignored (part : jsstr) :
  2 <= dashes part -> parsePart part = [].
Proof.
  intros H. unfold parsePart. destruct (isEmpty (trim part)); [done|].
  pose proof (splitCharAux_length (trim part) []) as Hlen.
  rewrite dashes_trim in Hlen.
  fold (splitChar hyphen (replaceAll isDashLike hyphen (trim part))) in Hlen.
  destruct (includesChar hyphen (replaceAll isDashLike hyphen (trim part))) eqn:Hinc.
  - destruct (splitChar hyphen _) as [|p0 [|p1 [|p2 ps]]]; simpl in Hlen;
      try lia; done.
  - unfold splitChar in Hlen. rewrite splitCharAux_none in Hlen by done.
    simpl in Hlen. lia.
Qed.

Lemma X3_multi_dash_part_ignored_witness :
  2 <= dashes (ofString "1-2-3") /\ parsePart (ofString "1-2-3") = [].
Proof.
  assert (2 <= dashes (ofString "1-2-3")) as H by (vm_compute; lia).
  split; [exact H|].
  exact (X3_multi_dash_part_ignored (ofString "1-2-3") H).
Defined.

Section ParserJoin.

Variable f : jsstr -> list Z.
Hypothesis f_nil : f [] = [].

Lemma splitRuns_inRun (sep : N -> bool) (s : jsstr) :
  flat_map f (splitRuns sep true [] s) = flat_map f (splitRuns sep false [] s).
Proof.
  destruct s as [|c s]; [done|]. simpl.
  destruct (sep c); [|done]. simpl. by rewrite f_nil.
Qed.

Lemma splitRuns_join (sep : N -> bool) (a b : jsstr) (c : N) :
  sep c = true ->
  forall inRun acc, (inRun = true -> acc = []) ->
    flat_map f (splitRuns sep inRun acc (a ++ c :: b))
    = flat_map f (splitRuns sep inRun acc a)
      ++ flat_map f (splitRuns sep false [] b).
Proof.
  intros Hc. induction a as [|x a IH]; intros inRun acc Hacc.
  - simpl. rewrite Hc. destruct inRun.
    + rewrite (Hacc eq_refl). simpl. rewrite f_nil. simpl.
      apply splitRuns_inRun.
    + simpl. rewrite app_nil_r. f_equal. apply splitRuns_inRun.
  - simpl. destruct (sep x).
    + destruct inRun.
      * apply IH. done.
      * simpl. rewrite <- app_assoc. f_equal. apply IH. done.
    + apply IH. done.
Qed.

Lemma splitRuns_separators (sep : N -> bool) (s : jsstr) :
  forallb sep s = true ->
  forall inRun, flat_map f (splitRuns sep inRun [] s) = [].
Proof.
  induction s as [|c s IH]; intros H inRun.
  - simpl. by rewrite f_nil.
  - simpl in *. apply andb_true_iff in H as [-> Hs].
    destruct inRun; [by apply IH|]. simpl. rewrite f_nil. by apply IH.
Qed.

End ParserJoin.

Lemma parsePart_nil : parsePart [] = [].
Proof. reflexivity. Qed.

(** X4.  Joining two index texts with a separator (comma, full-width comma,
    enumeration comma or white space) gives the indices of the first followed
    by the indices of the second; a text made of separators only gives no
    index. *)
Theorem X4_parser_join (a b : jsstr) (c : N) :
  isSeparator c = true ->
  parseMaskIndices (a ++ c :: b) = parseMaskIndices a ++ parseMaskIndices b
  /\ (forall s, forallb isSeparator s = true -> parseMaskIndices s = []).
Proof.
  intros Hc. unfold parseMaskIndices, splitRegexRuns. split.
  - apply splitRuns_join; [exact parsePart_nil | done | done].
  - intros s Hs. apply splitRuns_separators; [exact parsePart_nil | done].
Qed.

Lemma X4_parser_join_witness :
  isSeparator 12289 = true
  /\ parseMaskIndices (ofString "1-2, " ++ 12289%N :: ofString " 7")
     = parseMaskIndices (ofString "1-2, ") ++ parseMaskIndices (ofString " 7").
Proof.
  assert (isSeparator 12289 = true) as H by reflexivity.
  split; [exact H|].
  exact (proj1 (X4_parser_join (ofString "1-2, ") (ofString " 7") 12289 H)).
Defined.

(** ** Geometry of a cell *)

Section CoverFit.

Local Open Scope Q_scope.

Lemma q_pos (z : Z) : (0 < z)%Z -> 0 < q z.
Proof. intros H. unfold q. change 0 with (inject_Z 0). by rewrite <- Zlt_Qlt. Qed.

Lemma Qdiv_mul_cancel (a b : Q) : ~ b == 0 -> (a / b) * b == a.
Proof. intros H. field. exact H. Qed.

End CoverFit.

(** X5.  Object-cover placement: a picture of positive size is drawn with
    its own aspect ratio, centred on the cell, covering the cell in both
    directions and exactly as large as the cell in one of them. *)
Theorem X5_cover_fit (src : list N) (iw ih x y w h : Z) :
  (0 < iw)%Z -> (0 < ih)%Z -> (0 < w)%Z -> (0 < h)%Z ->
  exists dx dy dw dh : Q,
    coverImage src iw ih x y w h = CoverImage src (mkRect x y w h) dx dy dw dh
    /\ (dw * q ih == dh * q iw)%Q
    /\ (q w <= dw)%Q /\ (q h <= dh)%Q
    /\ (dw == q w \/ dh == q h)%Q
    /\ (dx + dw / 2 == q x + q w / 2)%Q
    /\ (dy + dh / 2 == q y + q h / 2)%Q.
Proof.
  intros Hiw Hih Hw Hh.
  apply q_pos in Hiw, Hih, Hw, Hh.
  assert (~ q ih == 0)%Q as Nih by (intros E; rewrite E in Hih; by apply Qlt_irrefl in Hih).
  assert (~ q h == 0)%Q as Nh by (intros E; rewrite E in Hh; by apply Qlt_irrefl in Hh).
  assert (~ q iw == 0)%Q as Niw by (intros E; rewrite E in Hiw; by apply Qlt_irrefl in Hiw).
  pose proof (Qdiv_mul_cancel (q iw) (q ih) Nih) as HI.
  pose proof (Qdiv_mul_cancel (q w) (q h) Nh) as HC.
  unfold coverImage.
  set (I := (q iw / q ih)%Q) in *. set (C := (q w / q h)%Q) in *.
  assert (0 < I)%Q as HIpos.
  { destruct (Qlt_le_dec 0 I) as [|Hle]; [done|]. exfalso.
    assert (I * q ih <= 0)%Q by Lqa.nra. Lqa.lra. }
  destruct (Qlt_le_dec C I) as [Hlt|Hle].
  - eexists _, _, _, _. split; [reflexivity|].
    split; [|split; [|split; [|split; [|split]]]].
    + rewrite <- Qmult_assoc, HI. reflexivity.
    + rewrite <- HC at 1. Lqa.nra.
    + apply Qle_refl.
    + right. reflexivity.
    + field.
    + field.
  - assert (~ I == 0)%Q as NI by (intros E; rewrite E in HIpos; by apply Qlt_irrefl in HIpos).
    pose proof (Qdiv_mul_cancel (q w) I NI) as HD.
    set (D := (q w / I)%Q) in *.
    eexists _, _, _, _. split; [reflexivity|].
    split; [|split; [|split; [|split; [|split]]]].
    + rewrite <- HD at 1. rewrite <- HI. ring.
    + apply Qle_refl.
    + assert (q h * I <= D * I)%Q by (rewrite HD, <- HC; Lqa.nra).
      Lqa.nra.
    + left. reflexivity.
    + field.
    + field.
Qed.

Lemma X5_cover_fit_witness :
  exists dx dy dw dh : Q,
    coverImage [] 4000 3000 0 0 1500 2000
    = CoverImage [] (mkRect 0 0 1500 2000) dx dy dw dh
    /\ (dw * q 3000 == dh * q 4000)%Q
    /\ (q 1500 <= dw)%Q /\ (q 2000 <= dh)%Q
    /\ (dw == q 1500 \/ dh == q 2000)%Q
    /\ (dx + dw / 2 == q 0 + q 1500 / 2)%Q
    /\ (dy + dh / 2 == q 0 + q 2000 / 2)%Q.
Proof.
  apply (X5_cover_fit [] 4000 3000 0 0 1500 2000); lia.
Defined.

(** ** Shape of a page render *)

Section RenderShape.

Local Open Scope Z_scope.

(** The surface is never set higher than the safe height. *)
Lemma scaled_height_le (totH : Z) :
  Qfloor (q totH * Ultimate.scaleFactor totH) <= Ultimate.MAX_SAFE_HEIGHT.
Proof.
  unfold Ultimate.scaleFactor.
  destruct (Z.gtb_spec totH Ultimate.MAX_SAFE_HEIGHT) as [Hgt|Hle].
  - assert (q totH * (q Ultimate.MAX_SAFE_HEIGHT / q totH)
            == q Ultimate.MAX_SAFE_HEIGHT)%Q as E.
    { field. intros E0. unfold Ultimate.MAX_SAFE_HEIGHT in Hgt.
      assert (0 < q totH)%Q by (apply q_pos; lia).
      rewrite E0 in H. by apply Qlt_irrefl in H. }
    rewrite E. unfold q. rewrite Qfloor_Z. lia.
  - assert (q totH * 1 == q totH)%Q as E by ring.
    rewrite E. unfold q. rewrite Qfloor_Z. lia.
Qed.

(** The cells drawn by the first [j] chunks. *)
Lemma chunks_take (cell : nat -> list DrawOp) (len j : nat) :
  (j <= length (Ultimate.chunkStarts len))%nat ->
  flat_map (fun i => flat_map cell (Ultimate.chunkIndices len i))
    (take j (Ultimate.chunkStarts len))
  = flat_map cell (seq 0 (Nat.min (j * Ultimate.CONCURRENCY) len)).
Proof.
  intros Hj. rewrite <- flat_map_flat_map. f_equal.
  unfold Ultimate.chunkStarts in *. rewrite length_map, length_seq in Hj.
  rewrite firstn_map, take_seq, Nat.min_l by lia.
  rewrite flat_map_concat_map, map_map.
  erewrite map_ext; [|intros k; apply chunkIndices_pageSlice].
  rewrite pageSlices_take, take_seq. done.
Qed.

(** What a chunk loop leaves behind, whatever the flag does: the cells of
    the first [j] chunks; it runs to its end exactly when no read of the flag
    found it set. *)
Lemma drawChunks_shape (cell : nat -> list DrawOp) (len : nat)
    (sigma : nat -> bool) :
  forall starts acc n r n',
    Ultimate.drawChunks cell len starts acc sigma n = (r, n') ->
    (n <= n')%nat
    /\ exists j, (j <= length starts)%nat
       /\ Ultimate.ops r
          = acc ++ flat_map (fun i => flat_map cell (Ultimate.chunkIndices len i))
                     (take j starts)
       /\ (Ultimate.finished r = true ->
           j = length starts /\ forall k, (n <= k < n')%nat -> sigma k = false)
       /\ (Ultimate.finished r = false ->
           (j < length starts)%nat /\ exists k, (n <= k < n')%nat /\ sigma k = true).
Proof.
  induction starts as [|i rest IH]; intros acc n r n' Hrun.
  - simpl in Hrun. poll_step. inversion Hrun; subst. split; [lia|].
    exists 0%nat. simpl. rewrite app_nil_r.
    repeat split; try done; try lia.
  - simpl in Hrun. poll_step.
    destruct (sigma n) eqn:E1.
    { inversion Hrun; subst. split; [lia|]. exists 0%nat. simpl.
      rewrite app_nil_r. repeat split; try done; try lia.
      exists n. split; [lia | done]. }
    destruct (sigma (S n)) eqn:E2.
    { inversion Hrun; subst. split; [lia|]. exists 0%nat. simpl.
      rewrite app_nil_r. repeat split; try done; try lia.
      exists (S n). split; [lia | done]. }
    apply IH in Hrun as (Hle & j & Hj & Hops & Hfin & Hcut).
    split; [lia|]. exists (S j). simpl.
    split; [lia|]. split; [by rewrite Hops, <- app_assoc|]. split.
    + intros Hf. destruct (Hfin Hf) as [-> Hq]. split; [done|].
      intros k Hk.
      destruct (decide (k = n)) as [->|]; [done|].
      destruct (decide (k = S n)) as [->|]; [done|].
      apply Hq. lia.
    + intros Hf. destruct (Hcut Hf) as [Hlt (k & Hk & Ek)]. split; [lia|].
      exists k. split; [lia | done].
Qed.

Lemma ultimate_drawAsync_shape images s off mask sticker overlay sigma n r n' :
  Ultimate.drawAsync images s off mask sticker overlay sigma n = (Some r, n') ->
  exists rows m,
    Ultimate.pageRows (length images) s = Some rows
    /\ (n <= n')%nat /\ (m <= length images)%nat
    /\ Ultimate.ops r
       = [SetSize (Qfloor (q (Ultimate.totalW s) * Ultimate.scaleFactor (Ultimate.totalH rows s)))
                  (Qfloor (q (Ultimate.totalH rows s) * Ultimate.scaleFactor (Ultimate.totalH rows s)));
          Scale (Ultimate.scaleFactor (Ultimate.totalH rows s));
          FillWhite (Ultimate.totalW s) (Ultimate.totalH rows s)]
         ++ flat_map (Ultimate.drawCell images s off mask sticker) (seq 0 m)
         ++ (if Ultimate.finished r
             then match overlay with
                  | Some _ => [Overlay (Ultimate.totalW s) (Ultimate.totalH rows s)
                                 (Ultimate.overlayOpacity s)]
                  | None => []
                  end
             else [])
    /\ (Ultimate.finished r = true ->
        m = length images /\ forall k, (n <= k < n')%nat -> sigma k = false)
    /\ (Ultimate.finished r = false ->
        (m < length images)%nat /\ (m mod Ultimate.CONCURRENCY = 0)%nat
        /\ exists k, (n <= k < n')%nat /\ sigma k = true).
Proof.
  unfold Ultimate.drawAsync. intros Hrun.
  destruct (Ultimate.pageRows (length images) s) as [rows|] eqn:Erows;
    poll_step; [|by inversion Hrun].
  destruct (Ultimate.drawChunks _ _ _ _ sigma n) as [r0 n0] eqn:Echunks.
  apply drawChunks_shape in Echunks as (Hle & j & Hj & Hops & Hfin & Hcut).
  rewrite chunks_take in Hops by done.
  assert (length (Ultimate.chunkStarts (length images))
          = ((length images + 3) / 4)%nat) as Elen.
  { unfold Ultimate.chunkStarts. by rewrite length_map, length_seq. }
  pose proof (Nat.div_mod_eq (length images + 3) 4) as Hdm.
  pose proof (Nat.mod_upper_bound (length images + 3) 4 ltac:(lia)) as Hmb.
  unfold Ultimate.CONCURRENCY in *.
  exists rows, (Nat.min (j * 4) (length images)).
  split; [done|].
  destruct (Ultimate.finished r0) eqn:Ef; inversion Hrun; subst; simpl.
  - destruct (Hfin eq_refl) as [-> Hq].
    split; [lia|]. split; [lia|]. split.
    + rewrite Hops. by rewrite <- app_assoc.
    + split; [|done]. intros _. split; [lia | done].
  - destruct (Hcut eq_refl) as [Hlt Hk].
    split; [lia|]. split; [lia|]. rewrite Ef. split.
    + rewrite Hops, app_nil_r. done.
    + split; [done|]. intros _.
      assert (Nat.min (j * 4) (length images) = (j * 4)%nat) as -> by lia.
      split; [lia|]. split; [|done]. exact (Nat.Div0.mod_mul j 4).
Qed.

(** Every page in the local array of the page loop is the encoding of what a
    call of [drawAsync] on one of the batches left on the surface, and the
    flag was found clear right after that call. *)
Lemma ultimate_batchLoop_pages (P : Blob -> Prop) st targets bsz mask enc sigma :
  (forall b n r n',
      Ultimate.drawAsync (UltimateApp.batchImages (UltimateApp.images st) targets bsz b)
        (UltimateApp.settings st) (Z.of_nat b * bsz) mask
        (UltimateApp.stickerImg st) (UltimateApp.globalOverlayImg st) sigma n
      = (Some r, n') ->
      sigma n' = false ->
      P (UltimateApp.encodePage (UltimateApp.settings st) (Ultimate.ops r))) ->
  forall bs acc n blobs n',
    UltimateApp.batchLoop st targets bsz mask enc bs acc sigma n = (Some blobs, n') ->
    Forall P acc -> Forall P blobs.
Proof.
  intros HP. induction bs as [|b bs IH]; intros acc n blobs n' Hrun Hacc.
  - simpl in Hrun. poll_step. by inversion Hrun; subst.
  - simpl in Hrun. poll_step.
    destruct (sigma n); [by inversion Hrun; subst|].
    destruct (Ultimate.drawAsync _ _ _ _ _ _ sigma (S n)) as [[page|] n1] eqn:Ed;
      [|by inversion Hrun].
    destruct (sigma n1) eqn:E2; [by inversion Hrun; subst|].
    eapply IH; [exact Hrun|].
    destruct (enc b); [|done].
    apply Forall_app. split; [done|]. apply Forall_singleton.
    eapply HP; [exact Ed | exact E2].
Qed.

End RenderShape.

(** X6.  Whatever the gallery, the settings and the cancellation flag do, no
    page that a generation run of engine [Ultimate] encodes is higher than the
    safe height of 16000 pixels. *)
Theorem X6_page_height_bounded
    (st : UltimateApp.AppState) (op : UltimateApp.OpType)
    (enc sigma : nat -> bool) (blobs : list Blob) :
  ultimateLocal st op enc sigma = Some blobs ->
  Forall (fun b => (height b <= Ultimate.MAX_SAFE_HEIGHT)%Z) blobs.
Proof.
  unfold ultimateLocal, run. intros H.
  destruct (UltimateApp.startGeneration st op enc sigma 0) as [[r|] n] eqn:E;
    [|done]. simpl in H. inversion H; subst. clear H.
  apply ultimate_run_inv in E
    as [(_ & -> & _)|(_ & total & blobs & n1 & _ & Hloop & _ & <- & _)].
  - constructor.
  - eapply ultimate_batchLoop_pages; [|exact Hloop|constructor].
    intros b n0 r0 n' Hd _.
    apply ultimate_drawAsync_shape in Hd as (rows & m & _ & _ & _ & -> & _).
    simpl. apply scaled_height_le.
Qed.

Lemma X6_page_height_bounded_witness :
  exists blobs,
    ultimateLocal (ultimateState 40 tallCellSettings) UltimateApp.Normal
      encodeAll never = Some blobs
    /\ Forall (fun b => (height b <= Ultimate.MAX_SAFE_HEIGHT)%Z) blobs.
Proof.
  eexists. split; [vm_compute; reflexivity|].
  apply (X6_page_height_bounded (ultimateState 40 tallCellSettings)
           UltimateApp.Normal encodeAll never).
  vm_compute. reflexivity.
Defined.

(** ** Page geometry *)

Section PageGeometry.

Local Open Scope Z_scope.

Lemma cellH_floor (s : Ultimate.AppSettings) :
  Ultimate.cellH s = Qfloor (UltimateApp.cH s).
Proof. reflexivity. Qed.

(** A page of at most [cols * R] pictures has at most [R] rows. *)
Lemma pageRows_le (len : nat) (s : Ultimate.AppSettings) (R : Z) :
  1 <= Ultimate.cols s -> (1 <= len)%nat ->
  Z.of_nat len <= Ultimate.cols s * R ->
  exists rows, Ultimate.pageRows len s = Some rows /\ 1 <= rows <= R.
Proof.
  intros Hc Hlen Hcap. unfold Ultimate.pageRows.
  destruct (ceilDiv_pos (Z.of_nat len) (Ultimate.cols s) ltac:(lia))
    as (rows & -> & Hr).
  exists rows. split; [done|]. nia.
Qed.

Lemma rows_height_fits (R cellHeight gapPx : Z) (cellQ : Q) :
  (q cellHeight <= cellQ)%Q -> 0 <= gapPx -> 1 <= R ->
  (q R * (cellQ + q gapPx) <= q UltimateApp.SAFE_H + q gapPx)%Q ->
  R * cellHeight + (R - 1) * gapPx <= UltimateApp.SAFE_H.
Proof.
  intros Hcell Hgap HR Hfit. rewrite Zle_Qle.
  rewrite inject_Z_plus, !inject_Z_mult. unfold Z.sub.
  rewrite inject_Z_plus. change (inject_Z (Z.opp 1)) with (-1 # 1)%Q.
  fold (q R) (q cellHeight) (q gapPx) (q UltimateApp.SAFE_H).
  assert (1 <= q R)%Q as HRq.
  { unfold q. change 1%Q with (inject_Z 1). by rewrite <- Zle_Qle. }
  assert (0 <= q gapPx)%Q as Hgq.
  { unfold q. change 0%Q with (inject_Z 0). by rewrite <- Zle_Qle. }
  assert (0 <= q R * (cellQ - q cellHeight))%Q as Hprod
    by (apply Qmult_le_0_compat; Lqa.lra).
  Lqa.nra.
Qed.

End PageGeometry.

(** X7.  With the automatic row count (row setting [<= 0]) and a cell that
    is not taller than the safe height, every page of the partition fits the
    surface unscaled: its height is at most 15500 and the scale factor of
    [drawAsync] is exactly 1. *)
Theorem X7_auto_rows_never_downscale (s : Ultimate.AppSettings) (len : nat) :
  (Ultimate.groupRows s <= 0)%Z -> (1 <= Ultimate.cols s)%Z ->
  (0 <= Ultimate.gap s)%Z ->
  (1 <= UltimateApp.cH s)%Q -> (UltimateApp.cH s <= q UltimateApp.SAFE_H)%Q ->
  (1 <= len)%nat -> (Z.of_nat len <= UltimateApp.batchSize s)%Z ->
  exists rows,
    Ultimate.pageRows len s = Some rows
    /\ (Ultimate.totalH rows s <= UltimateApp.SAFE_H)%Z
    /\ Ultimate.scaleFactor (Ultimate.totalH rows s) = 1%Q.
Proof.
  intros Hauto Hc Hgap Hcell Hsafe Hlen Hcap.
  unfold UltimateApp.batchSize, UltimateApp.effectiveGroupRows in Hcap.
  destruct (Z.leb_spec (Ultimate.groupRows s) 0) as [_|]; [|lia].
  set (R := UltimateApp.autoRows (UltimateApp.cH s) (Ultimate.gap s)) in *.
  destruct (pageRows_le len s R Hc Hlen Hcap) as (rows & Erows & Hrows).
  exists rows. split; [done|].
  pose proof (autoRows_fits _ _ Hcell Hgap Hsafe) as Hfit.
  fold R in Hfit.
  assert (1 <= Ultimate.cellH s)%Z as HcellZ.
  { rewrite cellH_floor. change 1%Z with (Qfloor (inject_Z 1)).
    by apply Qfloor_resp_le. }
  assert (R * Ultimate.cellH s + (R - 1) * Ultimate.gap s <= UltimateApp.SAFE_H)%Z
    as HR.
  { apply (rows_height_fits R _ _ (UltimateApp.cH s)); try done; [|lia].
    rewrite cellH_floor. apply Qfloor_le. }
  assert (Ultimate.totalH rows s <= UltimateApp.SAFE_H)%Z as Hfits.
  { unfold Ultimate.totalH. nia. }
  split; [done|]. unfold Ultimate.scaleFactor.
  destruct (Z.gtb_spec (Ultimate.totalH rows s) Ultimate.MAX_SAFE_HEIGHT) as [Hgt|];
    [|done].
  unfold UltimateApp.SAFE_H, Ultimate.MAX_SAFE_HEIGHT in *. lia.
Qed.

Lemma X7_auto_rows_never_downscale_witness :
  exists rows,
    Ultimate.pageRows 21 ULTIMATE_DEFAULT = Some rows
    /\ (Ultimate.totalH rows ULTIMATE_DEFAULT <= UltimateApp.SAFE_H)%Z
    /\ Ultimate.scaleFactor (Ultimate.totalH rows ULTIMATE_DEFAULT) = 1%Q.
Proof.
  apply (X7_auto_rows_never_downscale ULTIMATE_DEFAULT 21);
    try (vm_compute; congruence); try lia.
Defined.

(** X8.  Once [cols * 1500] exceeds the maximum page width and the cell
    width is shrunk, the composed page is never wider than that maximum, in
    both engines: columns and gaps together take at most [max - gap]. *)
Theorem X8_shrunk_page_width (s : Ultimate.AppSettings) (o : Ikko.DrawOptions)
    (ratio : Q) :
  (0 <= Ultimate.gap s)%Z -> (0 <= Ikko.dgap o)%Z ->
  Ikko.w o = fst (Ikko.calculateCellDimensions (Ikko.dcols o) ratio (Ikko.dgap o)) ->
  ((Ultimate.MAX_CANVAS_DIMENSION < Ultimate.cols s * 1500)%Z ->
   (Ultimate.totalW s <= Ultimate.MAX_CANVAS_DIMENSION - Ultimate.gap s)%Z)
  /\ ((Ikko.MAX_CANVAS_DIMENSION < Ikko.dcols o * 1500)%Z ->
      (Ikko.canvasWidth o <= Ikko.MAX_CANVAS_DIMENSION - Ikko.dgap o)%Z).
Proof.
  intros Hg Hig Hw. split.
  - intros Hbig. unfold Ultimate.totalW.
    rewrite ultimate_cellW_shrunk by done.
    unfold Ultimate.MAX_CANVAS_DIMENSION in *.
    set (c := Ultimate.cols s) in *. set (g := Ultimate.gap s) in *.
    pose proof (Z.mul_div_le (12000 - c * g) c ltac:(lia)). lia.
  - intros Hbig. unfold Ikko.canvasWidth. rewrite Hw.
    rewrite ikko_cellW_shrunk by done.
    unfold Ikko.MAX_CANVAS_DIMENSION in *.
    set (c := Ikko.dcols o) in *. set (g := Ikko.dgap o) in *.
    pose proof (Z.mul_div_le (8192 - c * g) c ltac:(lia)). lia.
Qed.

Lemma X8_shrunk_page_width_witness :
  (Ultimate.MAX_CANVAS_DIMENSION
   < Ultimate.cols (ultimateSettings 9 0 40 (75 # 100) "" ModeLine 80 "0.80") * 1500)%Z
  /\ (Ultimate.totalW (ultimateSettings 9 0 40 (75 # 100) "" ModeLine 80 "0.80")
      <= Ultimate.MAX_CANVAS_DIMENSION - 40)%Z.
Proof.
  assert (Ultimate.MAX_CANVAS_DIMENSION
          < Ultimate.cols (ultimateSettings 9 0 40 (75 # 100) "" ModeLine 80 "0.80") * 1500)%Z
    as H by (vm_compute; reflexivity).
  split; [exact H|].
  refine (proj1 (X8_shrunk_page_width
            (ultimateSettings 9 0 40 (75 # 100) "" ModeLine 80 "0.80")
            (ikkoMaskOptions 4 IkkoApp.Normal) (75 # 100) _ _ _) H).
  - vm_compute. congruence.
  - vm_compute. congruence.
  - vm_compute. reflexivity.
Defined.

(** X9.  A render of engine [Ultimate] that is interrupted returns early:
    the surface then carries the cells of whole chunks of four only (a
    prefix of the page), never the overlay, and some read of the flag found
    it set.  A render that runs to its end found the flag clear at every
    read and has drawn every cell, then the overlay when one is loaded. *)
Theorem X9_ultimate_render_interrupted
    (images : list Ultimate.ImageItem) (s : Ultimate.AppSettings) (off : Z)
    (mask : list Z) (sticker overlay : option Bitmap)
    (sigma : nat -> bool) (n n' : nat) (r : Ultimate.DrawResult) :
  Ultimate.drawAsync images s off mask sticker overlay sigma n = (Some r, n') ->
  exists (rows : Z) (m : nat),
    Ultimate.pageRows (length images) s = Some rows
    /\ take 3 (Ultimate.ops r)
       = [SetSize (Qfloor (q (Ultimate.totalW s)
                           * Ultimate.scaleFactor (Ultimate.totalH rows s)))
                  (Qfloor (q (Ultimate.totalH rows s)
                           * Ultimate.scaleFactor (Ultimate.totalH rows s)));
          Scale (Ultimate.scaleFactor (Ultimate.totalH rows s));
          FillWhite (Ultimate.totalW s) (Ultimate.totalH rows s)]
    /\ drop 3 (Ultimate.ops r)
       = flat_map (Ultimate.drawCell images s off mask sticker) (seq 0 m)
         ++ (if Ultimate.finished r
             then match overlay with
                  | Some _ => [Overlay (Ultimate.totalW s) (Ultimate.totalH rows s)
                                 (Ultimate.overlayOpacity s)]
                  | None => []
                  end
             else [])
    /\ (Ultimate.finished r = true ->
        m = length images /\ forall k, (n <= k < n')%nat -> sigma k = false)
    /\ (Ultimate.finished r = false ->
        (m < length images)%nat /\ (m mod Ultimate.CONCURRENCY = 0)%nat
        /\ exists k, (n <= k < n')%nat /\ sigma k = true).
Proof.
  intros Hrun.
  apply ultimate_drawAsync_shape in Hrun
    as (rows & m & Hrows & _ & _ & Hops & Hfin & Hcut).
  exists rows, m. rewrite Hops. done.
Qed.

Lemma X9_ultimate_render_interrupted_witness :
  interruptedRender = (Some interruptedResult, 4%nat)
  /\ exists (rows : Z) (m : nat),
       Ultimate.pageRows 5 ULTIMATE_DEFAULT = Some rows
       /\ (m < 5)%nat /\ (m mod Ultimate.CONCURRENCY = 0)%nat.
Proof.
  assert (interruptedRender = (Some interruptedResult, 4%nat)) as E
    by (vm_compute; reflexivity).
  split; [exact E|].
  destruct (X9_ultimate_render_interrupted _ _ _ _ _ _ _ _ _ _ E)
    as (rows & m & Hrows & _ & _ & _ & Hcut).
  destruct (Hcut eq_refl) as (Hlt & Hmod & _).
  exists rows, m. split; [exact Hrows|]. split; [exact Hlt | exact Hmod].
Defined.

Section IkkoRenderShape.

Variable decode : list N -> option Bitmap.

(** What the task loop leaves behind, whatever the flag does: the tasks that
    draw are a sublist of the page; all of them draw exactly when every read
    finds the flag clear; under a sticky flag they are a prefix. *)
Lemma runTasks_shape (o : Ikko.DrawOptions) (sigma : nat -> bool) :
  forall idxs acc n l n',
    Ikko.runTasks decode o idxs acc sigma n = (l, n') ->
    n <= n'
    /\ exists ran, ran `sublist_of` idxs
       /\ l = acc ++ flat_map (Ikko.task decode o) ran
       /\ ((forall k, n <= k < n' -> sigma k = false) -> ran = idxs)
       /\ ((exists k, n <= k < n' /\ sigma k = true) -> length ran < length idxs)
       /\ (sigma n = true -> ran = [])
       /\ (sticky sigma ->
           (exists j, ran = take j idxs) /\ (sigma n' = false -> ran = idxs)).
Proof.
  induction idxs as [|i rest IH]; intros acc n l n' Hrun.
  - simpl in Hrun. poll_step. inversion Hrun; subst. split; [lia|].
    exists []. rewrite app_nil_r. repeat split; try done.
    + intros (k & Hk & _). lia.
    + by exists 0.
  - simpl in Hrun. poll_step.
    destruct (sigma n) eqn:E1.
    { inversion Hrun; subst. split; [lia|]. exists []. rewrite app_nil_r.
      split; [apply sublist_nil_l|]. split; [done|].
      split; [|split; [|split]].
      - intros Hq. rewrite Hq in E1 by lia. done.
      - intros _. simpl. lia.
      - done.
      - intros Hs. split; [by exists 0|].
        intros E. rewrite (Hs n (S n)) in E by (done || lia). done. }
    destruct (sigma (S n)) eqn:E2.
    + apply IH in Hrun as (Hle & ran & Hsub & Hl & Hall & Hsome & Hset & Hst).
      split; [lia|]. exists ran. split; [by apply sublist_cons|].
      split; [done|]. split; [|split; [|split]].
      * intros Hq. rewrite Hq in E2 by lia. done.
      * intros _. apply sublist_length in Hsub. simpl. lia.
      * done.
      * intros Hs.
        assert (sigma (S (S n)) = true) as E3 by (apply (Hs (S n)); [lia | done]).
        rewrite (Hset E3). split; [by exists 0|].
        intros E. rewrite (Hs (S n) n') in E by (done || lia). done.
    + apply IH in Hrun as (Hle & ran & Hsub & Hl & Hall & Hsome & Hset & Hst).
      split; [lia|]. exists (i :: ran). split; [by apply sublist_skip|].
      split; [by rewrite Hl, <- app_assoc|]. split; [|split; [|split]].
      * intros Hq. f_equal. apply Hall. intros k Hk. apply Hq. lia.
      * intros (k & Hk & Ek). simpl.
        assert (length ran < length rest); [|lia].
        apply Hsome. exists k. split; [|done].
        destruct (decide (k = n)) as [->|]; [congruence|].
        destruct (decide (k = S n)) as [->|]; [congruence|]. lia.
      * done.
      * intros Hs. destruct (Hst Hs) as [[j Hj] Hclear]. split.
        -- exists (S j). simpl. by rewrite Hj.
        -- intros E. by rewrite Hclear.
Qed.

Lemma ikko_drawAsync_shape (o : Ikko.DrawOptions) (sigma : nat -> bool) (n : nat) :
  n <= snd (Ikko.drawAsync decode o sigma n)
  /\ exists ran : list nat,
    ran `sublist_of` seq 0 (length (Ikko.images o))
    /\ fst (Ikko.drawAsync decode o sigma n)
       = [SetSize (Ikko.canvasWidth o) (Ikko.canvasHeight o);
          FillWhite (Ikko.canvasWidth o) (Ikko.canvasHeight o)]
         ++ flat_map (Ikko.task decode o) ran
         ++ match Ikko.overlayImgEl decode (Ikko.dsettings o) with
            | Some _ => [Overlay (Ikko.canvasWidth o) (Ikko.canvasHeight o)
                           (Ikko.overlayOpacity (Ikko.dsettings o))]
            | None => []
            end
    /\ ((forall k, n <= k < snd (Ikko.drawAsync decode o sigma n) -> sigma k = false) ->
        ran = seq 0 (length (Ikko.images o)))
    /\ ((exists k, n <= k < snd (Ikko.drawAsync decode o sigma n) /\ sigma k = true) ->
        length ran < length (Ikko.images o))
    /\ (sticky sigma ->
        (exists j, ran = seq 0 j)
        /\ (sigma (snd (Ikko.drawAsync decode o sigma n)) = false ->
            ran = seq 0 (length (Ikko.images o)))).
Proof.
  unfold Ikko.drawAsync. poll_step.
  destruct (Ikko.runTasks decode o _ _ sigma n) as [l n'] eqn:Erun. simpl.
  apply runTasks_shape in Erun as (Hle & ran & Hsub & Hl & Hall & Hsome & _ & Hst).
  split; [done|].
  exists ran. split; [done|]. split; [by rewrite Hl, <- app_assoc|].
  split; [done|]. split.
  - intros Hk. apply Hsome in Hk. by rewrite length_seq in Hk.
  - intros Hs. destruct (Hst Hs) as [[j Hj] Hclear]. split; [|done].
    rewrite take_seq in Hj. by eexists.
Qed.

End IkkoRenderShape.


(** ** The local array of an interrupted run *)

Section LocalPrefix.

Lemma never_quiet (k : nat) : never k = false.
Proof. reflexivity. Qed.

(** A render that is followed by a clear read of a sticky flag is the
    complete render of its page. *)
Lemma ultimate_drawAsync_clear images s off mask sticker overlay sigma n r n' m :
  sticky sigma ->
  Ultimate.drawAsync images s off mask sticker overlay sigma n = (Some r, n') ->
  sigma n' = false ->
  fst (Ultimate.drawAsync images s off mask sticker overlay never m) = Some r.
Proof.
  intros Hs Hrun Hclear.
  apply ultimate_drawAsync_shape in Hrun
    as (rows & j & Hrows & Hle & _ & Hops & Hfin & Hcut).
  rewrite (ultimate_drawAsync_quiet _ _ _ _ _ _ never m rows never_quiet Hrows).
  destruct r as [l fin]. simpl in *. destruct fin.
  - destruct (Hfin eq_refl) as [-> _]. by rewrite Hops.
  - destruct (Hcut eq_refl) as (_ & _ & k & Hk & Ek).
    rewrite (Hs k n') in Hclear by (done || lia). done.
Qed.

Lemma ikko_drawAsync_clear decode (o : Ikko.DrawOptions) sigma n m :
  sticky sigma ->
  sigma (snd (Ikko.drawAsync decode o sigma n)) = false ->
  fst (Ikko.drawAsync decode o never m) = fst (Ikko.drawAsync decode o sigma n).
Proof.
  intros Hs Hclear.
  destruct (ikko_drawAsync_shape decode o sigma n)
    as (_ & ran & _ & -> & _ & _ & Hst).
  destruct (Hst Hs) as [_ Hran]. rewrite (Hran Hclear).
  by rewrite (ikko_drawAsync_quiet decode o never m never_quiet).
Qed.

(** The page loop only ever appends to its local array. *)
Lemma ultimate_batchLoop_extends st targets bsz mask enc sigma :
  forall bs acc n blobs n',
    UltimateApp.batchLoop st targets bsz mask enc bs acc sigma n = (Some blobs, n') ->
    acc `prefix_of` blobs.
Proof.
  induction bs as [|b bs IH]; intros acc n blobs n' Hrun.
  - simpl in Hrun. poll_step. by inversion Hrun; subst.
  - simpl in Hrun. poll_step.
    destruct (sigma n); [by inversion Hrun; subst|].
    destruct (Ultimate.drawAsync _ _ _ _ _ _ sigma (S n)) as [[page|] n1];
      [|by inversion Hrun].
    destruct (sigma n1); [by inversion Hrun; subst|].
    apply IH in Hrun. destruct (enc b); [|done].
    etrans; [|exact Hrun]. by apply prefix_app_r.
Qed.

Lemma ikko_batchLoop_extends decode enc st op tg bsz sigma :
  forall bs acc n blobs n',
    IkkoApp.batchLoop decode enc st op tg bsz bs acc sigma n = (Some blobs, n') ->
    acc `prefix_of` blobs.
Proof.
  induction bs as [|b bs IH]; intros acc n blobs n' Hrun.
  - simpl in Hrun. poll_step. by inversion Hrun; subst.
  - simpl in Hrun. poll_step.
    destruct (sigma n); [by inversion Hrun; subst|].
    destruct (ceilDiv _ _) as [rws|]; [|by inversion Hrun].
    destruct (Ikko.drawAsync _ _ sigma (S n)) as [page n1].
    destruct (sigma n1); [by inversion Hrun; subst|].
    apply IH in Hrun. destruct (enc b); [|done].
    etrans; [|exact Hrun]. by apply prefix_app_r.
Qed.

Lemma ultimate_batchLoop_prefix st targets bsz mask enc sigma :
  sticky sigma ->
  forall bs acc n blobs n' m full m',
    UltimateApp.batchLoop st targets bsz mask enc bs acc sigma n = (Some blobs, n') ->
    UltimateApp.batchLoop st targets bsz mask enc bs acc never m = (Some full, m') ->
    blobs `prefix_of` full.
Proof.
  intros Hs. induction bs as [|b bs IH]; intros acc n blobs n' m full m' Hrun Hfull.
  - simpl in *. poll_step. inversion Hrun; inversion Hfull; by subst.
  - pose proof (ultimate_batchLoop_extends _ _ _ _ _ _ _ _ _ _ _ Hfull) as Hext.
    simpl in Hrun, Hfull. poll_step. rewrite never_quiet in Hfull.
    destruct (sigma n); [by inversion Hrun; subst|].
    destruct (Ultimate.drawAsync _ _ _ _ _ _ sigma (S n)) as [[page|] n1] eqn:Ed;
      [|by inversion Hrun].
    destruct (sigma n1) eqn:E2; [by inversion Hrun; subst|].
    pose proof (ultimate_drawAsync_clear _ _ _ _ _ _ _ _ _ _ (S m) Hs Ed E2) as Hq.
    destruct (Ultimate.drawAsync _ _ _ _ _ _ never (S m)) as [pg m1].
    simpl in Hq. subst pg. rewrite never_quiet in Hfull.
    eapply IH; [exact Hrun | exact Hfull].
Qed.

Lemma ikko_batchLoop_prefix decode enc st op tg bsz sigma :
  sticky sigma ->
  forall bs acc n blobs n' m full m',
    IkkoApp.batchLoop decode enc st op tg bsz bs acc sigma n = (Some blobs, n') ->
    IkkoApp.batchLoop decode enc st op tg bsz bs acc never m = (Some full, m') ->
    blobs `prefix_of` full.
Proof.
  intros Hs. induction bs as [|b bs IH]; intros acc n blobs n' m full m' Hrun Hfull.
  - simpl in *. poll_step. inversion Hrun; inversion Hfull; by subst.
  - pose proof (ikko_batchLoop_extends _ _ _ _ _ _ _ _ _ _ _ _ Hfull) as Hext.
    simpl in Hrun, Hfull. poll_step. rewrite never_quiet in Hfull.
    destruct (sigma n); [by inversion Hrun; subst|].
    destruct (ceilDiv _ _) as [rws|]; [|by inversion Hrun].
    pose proof (ikko_drawAsync_clear decode
                  (IkkoApp.drawOptions st op tg bsz b rws) sigma (S n) (S m) Hs) as Hq.
    destruct (Ikko.drawAsync _ _ sigma (S n)) as [page n1].
    destruct (sigma n1) eqn:E2; [by inversion Hrun; subst|].
    simpl in Hq. specialize (Hq E2).
    destruct (Ikko.drawAsync _ _ never (S m)) as [pg m1].
    simpl in Hq. subst pg. rewrite never_quiet in Hfull.
    eapply IH; [exact Hrun | exact Hfull].
Qed.

End LocalPrefix.

(** X11.  Under a sticky cancellation flag the local array of a run is a
    prefix of the pages the same run produces when it is never cancelled:
    each page that is encoded is a complete page, identical to the one of the
    uninterrupted run, and no page carrying a partial render is ever
    encoded.  This holds in both engines. *)
Theorem X11_interrupted_local_prefix
    (st : UltimateApp.AppState) (op : UltimateApp.OpType)
    (decode : list N -> option Bitmap)
    (ist : IkkoApp.AppState) (iop : IkkoApp.OpType)
    (enc sigma : nat -> bool) (uloc ufull iloc ifull : list Blob) :
  sticky sigma ->
  ultimateLocal st op enc sigma = Some uloc ->
  ultimateLocal st op enc never = Some ufull ->
  ikkoLocal decode ist iop enc sigma = Some iloc ->
  ikkoLocal decode ist iop enc never = Some ifull ->
  uloc `prefix_of` ufull /\ iloc `prefix_of` ifull.
Proof.
  unfold ultimateLocal, ikkoLocal, run. intros Hs HU HUf HI HIf. split.
  - destruct (UltimateApp.startGeneration st op enc sigma 0) as [[r|] n] eqn:E;
      [|done].
    destruct (UltimateApp.startGeneration st op enc never 0) as [[rf|] nf] eqn:Ef;
      [|done].
    simpl in *. inversion HU; inversion HUf; subst. clear HU HUf.
    apply ultimate_run_inv in E
      as [(Hnil & -> & _)|(Hne & total & blobs & n1 & Htot & Hloop & _ & <- & _)];
    apply ultimate_run_inv in Ef
      as [(Hnil' & -> & _)|(Hne' & total' & blobs' & n1' & Htot' & Hloop' & _ & <- & _)];
      try done.
    rewrite Htot in Htot'. inversion Htot'; subst.
    eapply ultimate_batchLoop_prefix; [exact Hs | exact Hloop | exact Hloop'].
  - destruct (IkkoApp.generate decode enc ist iop sigma 0) as [[r|] n] eqn:E;
      [|done].
    destruct (IkkoApp.generate decode enc ist iop never 0) as [[rf|] nf] eqn:Ef;
      [|done].
    simpl in *. inversion HI; inversion HIf; subst. clear HI HIf.
    apply ikko_run_inv in E
      as [(Hnil & -> & _)|(Hne & eff & total & blobs & n1 & Heff & Htot & Hloop & _ & <- & _)];
    apply ikko_run_inv in Ef
      as [(Hnil' & -> & _)|(Hne' & eff' & total' & blobs' & n1' & Heff' & Htot' & Hloop' & _ & <- & _)];
      try done.
    rewrite Heff in Heff'. inversion Heff'; subst.
    rewrite Htot in Htot'. inversion Htot'; subst.
    eapply ikko_batchLoop_prefix; [exact Hs | exact Hloop | exact Hloop'].
Qed.

Lemma X11_interrupted_local_prefix_witness :
  sticky afterFirstPage
  /\ default [] (ultimateLocal threePagesUltimate UltimateApp.Normal encodeAll afterFirstPage)
     `prefix_of`
     default [] (ultimateLocal threePagesUltimate UltimateApp.Normal encodeAll never)
  /\ default [] (ikkoLocal decodeAll threePagesIkko IkkoApp.Normal encodeAll afterFirstPage)
     `prefix_of`
     default [] (ikkoLocal decodeAll threePagesIkko IkkoApp.Normal encodeAll never).
Proof.
  assert (sticky afterFirstPage) as Hs by apply sticky_from.
  split; [exact Hs|].
  apply (X11_interrupted_local_prefix threePagesUltimate UltimateApp.Normal
           decodeAll threePagesIkko IkkoApp.Normal encodeAll afterFirstPage);
    [exact Hs | vm_compute; reflexivity ..].
Defined.

(** ** The pages of an uninterrupted run *)

Section WholeRun.

Local Open Scope Z_scope.

Lemma printedNumbers_app (l1 l2 : list DrawOp) :
  printedNumbers (l1 ++ l2) = printedNumbers l1 ++ printedNumbers l2.
Proof. apply omap_app. Qed.

Lemma printedNumbers_drawNumber stroke shadow pos fs num x y w h :
  printedNumbers (drawNumber true stroke shadow pos fs num x y w h) = [num].
Proof.
  unfold drawNumber.
  destruct (if includesLeft pos then _ else _) as [tx al].
  by destruct stroke.
Qed.

Lemma printedNumbers_drawMask mode style sticker ss sx sy x y w h :
  printedNumbers (drawMask mode style sticker ss sx sy x y w h) = [].
Proof. unfold drawMask. destruct mode; [by destruct style | by destruct sticker]. Qed.

Lemma printedNumbers_coverImage src iw ih x y w h :
  printedNumbers [coverImage src iw ih x y w h] = [].
Proof. unfold coverImage. by destruct (Qlt_le_dec _ _). Qed.

(** Every cell of a page prints its own number, once. *)
Lemma ultimate_drawCell_number images s off mask sticker i :
  Ultimate.showNum s = true -> (i < length images)%nat ->
  printedNumbers (Ultimate.drawCell images s off mask sticker i)
  = [Ultimate.currentNum s off i].
Proof.
  intros Hshow Hi. unfold Ultimate.drawCell.
  destruct (lookup_lt_is_Some_2 images i Hi) as [item ->].
  rewrite !printedNumbers_app, Hshow, printedNumbers_drawNumber.
  assert (printedNumbers
            match Ultimate.file item with
            | Some bitmap =>
                if (bw bitmap =? 0) || (bh bitmap =? 0) then []
                else [coverImage (Ultimate.url item) (bw bitmap) (bh bitmap)
                        (Ultimate.cellX s i) (Ultimate.cellY s i)
                        (Ultimate.cellW s) (Ultimate.cellH s)]
            | None => [ErrorTile (mkRect (Ultimate.cellX s i) (Ultimate.cellY s i)
                                    (Ultimate.cellW s) (Ultimate.cellH s))]
            end = []) as ->.
  { destruct (Ultimate.file item) as [bitmap|]; [|done].
    destruct (_ || _); [done|]. apply printedNumbers_coverImage. }
  destruct (includes _ _); [|done]. by rewrite printedNumbers_drawMask.
Qed.

Lemma ikko_task_number decode (o : Ikko.DrawOptions) i :
  Ikko.showNum (Ikko.dsettings o) = true -> (i < length (Ikko.images o))%nat ->
  printedNumbers (Ikko.task decode o i) = [Ikko.currentNum o i].
Proof.
  intros Hshow Hi. unfold Ikko.task.
  destruct (lookup_lt_is_Some_2 (Ikko.images o) i Hi) as [imgUrl ->].
  rewrite !printedNumbers_app, Hshow, printedNumbers_drawNumber.
  assert (printedNumbers
            match decode imgUrl with
            | Some img => [coverImage imgUrl (bw img) (bh img)
                             (Ikko.cellX o i) (Ikko.cellY o i) (Ikko.w o) (Ikko.h o)]
            | None => [ErrorTile (mkRect (Ikko.cellX o i) (Ikko.cellY o i)
                                    (Ikko.w o) (Ikko.h o))]
            end = []) as ->.
  { destruct (decode imgUrl) as [img|]; [|done]. apply printedNumbers_coverImage. }
  destruct (_ && _); [|done]. by rewrite printedNumbers_drawMask.
Qed.

Lemma flat_map_singletons {A B} (f : A -> list B) (g : A -> B) (l : list A) :
  (forall x, x ∈ l -> f x = [g x]) -> flat_map f l = map g l.
Proof.
  induction l as [|x l IH]; [done|]. intros H. simpl.
  rewrite (H x) by (by left). simpl. f_equal. apply IH.
  intros y Hy. apply H. by right.
Qed.

Lemma omap_flat_map {A B C} (f : B -> option C) (g : A -> list B) (l : list A) :
  omap f (flat_map g l) = flat_map (fun a => omap f (g a)) l.
Proof.
  induction l as [|a l IH]; [done|]. simpl. by rewrite omap_app, IH.
Qed.

(** Going through the positions of a list is going through the list. *)
Lemma flat_map_positions {A B} (l : list A) (f : nat -> list B) (g : A -> B) :
  (forall i x, l !! i = Some x -> f i = [g x]) ->
  flat_map f (seq 0 (length l)) = map g l.
Proof.
  induction l as [|x l IH] using rev_ind; [done|]. intros H.
  rewrite length_app, Nat.add_comm. simpl length.
  rewrite seq_S, flat_map_app, map_app. simpl. rewrite app_nil_r. f_equal.
  - apply IH. intros i y Hi. apply H. rewrite lookup_app_l; [done|].
    by apply lookup_lt_Some in Hi.
  - apply H. rewrite lookup_app_r, Nat.sub_diag by lia. done.
Qed.

(** A page on which every picture decodes shows its pictures in order. *)
Lemma ultimate_cells_sources images s off mask sticker :
  Forall (fun item => exists bitmap, Ultimate.file item = Some bitmap
                        /\ bw bitmap <> 0 /\ bh bitmap <> 0) images ->
  drawnSources (flat_map (Ultimate.drawCell images s off mask sticker)
                  (seq 0 (length images)))
  = map Ultimate.url images.
Proof.
  intros Hgood. unfold drawnSources. rewrite omap_flat_map.
  apply flat_map_positions. intros i item Hi.
  destruct (proj1 (Forall_lookup _ _) Hgood i item Hi) as (bitmap & Hf & Hw & Hh).
  destruct (ultimate_drawCell_spec images s off mask sticker i item Hi)
    as (_ & _ & _ & Hsrc).
  exact (Hsrc bitmap Hf Hw Hh).
Qed.

Lemma ultimate_cells_numbers images s off mask sticker :
  Ultimate.showNum s = true ->
  printedNumbers (flat_map (Ultimate.drawCell images s off mask sticker)
                    (seq 0 (length images)))
  = map (Ultimate.currentNum s off) (seq 0 (length images)).
Proof.
  intros Hshow. unfold printedNumbers. rewrite omap_flat_map.
  apply flat_map_singletons. intros i Hi. apply elem_of_seq in Hi.
  apply ultimate_drawCell_number; [done | lia].
Qed.

Lemma ikko_cells_sources decode (o : Ikko.DrawOptions) :
  Forall (fun u => decode u <> None) (Ikko.images o) ->
  drawnSources (flat_map (Ikko.task decode o) (seq 0 (length (Ikko.images o))))
  = Ikko.images o.
Proof.
  intros Hgood. unfold drawnSources. rewrite omap_flat_map.
  rewrite <- (map_id (Ikko.images o)) at 2.
  apply flat_map_positions. intros i u Hi.
  pose proof (proj1 (Forall_lookup _ _) Hgood i u Hi) as Hdec.
  destruct (ikko_task_spec decode o i u Hi) as (_ & _ & _ & Hsrc).
  exact (Hsrc Hdec).
Qed.

Lemma ikko_cells_numbers decode (o : Ikko.DrawOptions) :
  Ikko.showNum (Ikko.dsettings o) = true ->
  printedNumbers (flat_map (Ikko.task decode o) (seq 0 (length (Ikko.images o))))
  = map (Ikko.currentNum o) (seq 0 (length (Ikko.images o))).
Proof.
  intros Hshow. unfold printedNumbers. rewrite omap_flat_map.
  apply flat_map_singletons. intros i Hi. apply elem_of_seq in Hi.
  apply ikko_task_number; [done | lia].
Qed.

(** The numbers [base + k] over the positions of page [b] of [N] items. *)
Lemma pageSlice_seq (N P b : nat) :
  pageSlice (seq 0 N) P b
  = map (fun i => (b * P + i)%nat) (seq 0 (length (pageSlice (seq 0 N) P b))).
Proof.
  rewrite pageSlice_length, length_seq. unfold pageSlice, slice.
  rewrite drop_seq, take_seq, length_seq.
  rewrite (fmap_add_seq (b * P) 0). f_equal; lia.
Qed.

Lemma pageSlice_length_seq {A} (l : list A) (P b : nat) :
  length (pageSlice l P b) = length (pageSlice (seq 0 (length l)) P b).
Proof. by rewrite !pageSlice_length, length_seq. Qed.

Lemma page_numbers_concat {A} (l : list A) (P t : nat) (start : Z) :
  (length l <= t * P)%nat ->
  concat (map (fun b => map (fun i => start + Z.of_nat b * Z.of_nat P + Z.of_nat i)
                          (seq 0 (length (pageSlice l P b))))
            (seq 0 t))
  = map (fun k => start + Z.of_nat k) (seq 0 (length l)).
Proof.
  intros Hcover.
  transitivity (map (fun k => start + Z.of_nat k)
                  (concat (map (pageSlice (seq 0 (length l)) P) (seq 0 t))));
    [|by rewrite pageSlices_concat by (by rewrite length_seq)].
  rewrite concat_map, map_map. f_equal. apply map_ext. intros b.
  rewrite (pageSlice_seq (length l) P b), map_map, <- pageSlice_length_seq.
  apply map_ext. intros i. lia.
Qed.

Lemma Forall_omap_lookup {A} (P : A -> Prop) (imgs : list A) (l : list nat) :
  Forall P imgs -> Forall P (omap (fun i => imgs !! i) l).
Proof.
  intros H. apply Forall_forall. intros x Hx.
  apply list_elem_of_omap in Hx as (i & _ & Hi).
  exact (proj1 (Forall_lookup _ _) H i x Hi).
Qed.

End WholeRun.

Section WholeRunPages.

Local Open Scope Z_scope.

(** What can be observed on the pages of a page loop that is never
    interrupted and whose pages all encode. *)
Lemma ultimate_batchLoop_never {C} (obs : list DrawOp -> C) (g : nat -> C)
    st targets bsz mask enc :
  (forall b, enc b = true) ->
  (forall b r n,
      fst (Ultimate.drawAsync
             (UltimateApp.batchImages (UltimateApp.images st) targets bsz b)
             (UltimateApp.settings st) (Z.of_nat b * bsz) mask
             (UltimateApp.stickerImg st) (UltimateApp.globalOverlayImg st) never n)
      = Some r ->
      obs (Ultimate.ops r) = g b) ->
  forall bs acc n blobs n',
    UltimateApp.batchLoop st targets bsz mask enc bs acc never n = (Some blobs, n') ->
    map (fun blob => obs (surface blob)) blobs
    = map (fun blob => obs (surface blob)) acc ++ map g bs.
Proof.
  intros Henc Hobs. induction bs as [|b bs IH]; intros acc n blobs n' Hrun.
  - simpl in Hrun. poll_step. inversion Hrun; subst. by rewrite app_nil_r.
  - simpl in Hrun. poll_step. rewrite never_quiet in Hrun.
    specialize (Hobs b).
    destruct (Ultimate.drawAsync _ _ _ _ _ _ never (S n)) as [[page|] n1] eqn:Ed;
      [|by inversion Hrun].
    rewrite never_quiet, Henc in Hrun. apply IH in Hrun. rewrite Hrun.
    rewrite map_app, <- app_assoc. simpl. do 2 f_equal.
    apply (Hobs page (S n)). by rewrite Ed.
Qed.

Lemma ikko_batchLoop_never {C} (obs : list DrawOp -> C) (g : nat -> C)
    decode enc st op tg bsz :
  (forall b, enc b = true) ->
  (forall b rws n,
      ceilDiv (Z.of_nat (length (IkkoApp.currentImgs tg bsz b)))
        (Ikko.cols (IkkoApp.settings st)) = Some rws ->
      obs (fst (Ikko.drawAsync decode (IkkoApp.drawOptions st op tg bsz b rws) never n))
      = g b) ->
  forall bs acc n blobs n',
    IkkoApp.batchLoop decode enc st op tg bsz bs acc never n = (Some blobs, n') ->
    map (fun blob => obs (surface blob)) blobs
    = map (fun blob => obs (surface blob)) acc ++ map g bs.
Proof.
  intros Henc Hobs. induction bs as [|b bs IH]; intros acc n blobs n' Hrun.
  - simpl in Hrun. poll_step. inversion Hrun; subst. by rewrite app_nil_r.
  - simpl in Hrun. poll_step. rewrite never_quiet in Hrun.
    specialize (Hobs b).
    destruct (ceilDiv _ _) as [rws|]; [|by inversion Hrun].
    specialize (Hobs rws (S n) eq_refl).
    destruct (Ikko.drawAsync _ _ never (S n)) as [page n1].
    rewrite never_quiet, Henc in Hrun. apply IH in Hrun. rewrite Hrun.
    rewrite map_app, <- app_assoc. simpl. do 2 f_equal. exact Hobs.
Qed.

(** The complete render of a page, observed. *)
Lemma ultimate_page_observed images s off mask sticker overlay n r :
  fst (Ultimate.drawAsync images s off mask sticker overlay never n) = Some r ->
  (Forall (fun item => exists bitmap, Ultimate.file item = Some bitmap
                         /\ bw bitmap <> 0 /\ bh bitmap <> 0) images ->
   drawnSources (Ultimate.ops r) = map Ultimate.url images)
  /\ (Ultimate.showNum s = true ->
      printedNumbers (Ultimate.ops r)
      = map (Ultimate.currentNum s off) (seq 0 (length images))).
Proof.
  intros Hrun.
  destruct (Ultimate.drawAsync images s off mask sticker overlay never n)
    as [r0 n'] eqn:Ed.
  simpl in Hrun. subst r0.
  apply ultimate_drawAsync_shape in Ed
    as (rows & m & _ & _ & _ & Hops & Hfin & Hcut).
  destruct (Ultimate.finished r).
  - destruct (Hfin eq_refl) as [-> _]. rewrite Hops. split.
    + intros Hgood.
      rewrite !drawnSources_app, ultimate_cells_sources by done.
      by destruct overlay; simpl; rewrite app_nil_r.
    + intros Hshow.
      rewrite !printedNumbers_app, ultimate_cells_numbers by done.
      by destruct overlay; simpl; rewrite app_nil_r.
  - destruct (Hcut eq_refl) as (_ & _ & k & _ & Ek). done.
Qed.

Lemma ikko_page_observed decode (o : Ikko.DrawOptions) n :
  (Forall (fun u => decode u <> None) (Ikko.images o) ->
   drawnSources (fst (Ikko.drawAsync decode o never n)) = Ikko.images o)
  /\ (Ikko.showNum (Ikko.dsettings o) = true ->
      printedNumbers (fst (Ikko.drawAsync decode o never n))
      = map (Ikko.currentNum o) (seq 0 (length (Ikko.images o)))).
Proof.
  rewrite (ikko_drawAsync_quiet decode o never n never_quiet). split.
  - intros Hgood.
    rewrite !drawnSources_app, ikko_cells_sources by done.
    by destruct (Ikko.overlayImgEl _ _); simpl; rewrite app_nil_r.
  - intros Hshow.
    rewrite !printedNumbers_app, ikko_cells_numbers by done.
    by destruct (Ikko.overlayImgEl _ _); simpl; rewrite app_nil_r.
Qed.

Lemma ultimate_batchSize_pos (s : Ultimate.AppSettings) :
  1 <= Ultimate.cols s -> 1 <= UltimateApp.batchSize s.
Proof.
  intros Hc. unfold UltimateApp.batchSize, UltimateApp.effectiveGroupRows.
  destruct (Z.leb_spec (Ultimate.groupRows s) 0) as [_|Hg]; [|nia].
  pose proof (autoRows_min (UltimateApp.cH s) (Ultimate.gap s)). nia.
Qed.

End WholeRunPages.

(** X12.  An uninterrupted run of engine [Ultimate] whose pages all encode
    shows every target picture exactly once: read page after page, the
    pictures drawn are the target pictures in gallery order (when each one
    decodes to a picture of non-zero size), and the numbers printed are
    [start, start + 1, ...] without a gap or a restart at a page break. *)
Theorem X12_ultimate_every_picture_once
    (st : UltimateApp.AppState) (op : UltimateApp.OpType)
    (enc : nat -> bool) (blobs : list Blob) :
  (1 <= Ultimate.cols (UltimateApp.settings st))%Z ->
  (forall b, enc b = true) ->
  ultimateLocal st op enc never = Some blobs ->
  (Forall (fun item => exists bitmap, Ultimate.file item = Some bitmap
                         /\ bw bitmap <> 0%Z /\ bh bitmap <> 0%Z)
     (UltimateApp.images st) ->
   concat (map (fun blob => drawnSources (surface blob)) blobs)
   = omap (fun i => Ultimate.url <$> UltimateApp.images st !! i)
       (UltimateApp.targetIndices st op))
  /\ (Ultimate.showNum (UltimateApp.settings st) = true ->
      concat (map (fun blob => printedNumbers (surface blob)) blobs)
      = map (fun k => (Ultimate.startNumber (UltimateApp.settings st) + Z.of_nat k)%Z)
          (seq 0 (length (UltimateApp.targetIndices st op)))).
Proof.
  intros Hcols Henc Hloc. unfold ultimateLocal, run in Hloc.
  destruct (UltimateApp.startGeneration st op enc never 0) as [[r|] n] eqn:E;
    [|done]. simpl in Hloc. inversion Hloc; subst. clear Hloc.
  apply ultimate_run_inv in E
    as [(Hnil & -> & _)|(_ & total & blobs & n1 & Htot & Hloop & _ & <- & _)].
  { assert (UltimateApp.targetIndices st op = []) as ->.
    { unfold UltimateApp.targetIndices. rewrite Hnil. by destruct op. }
    done. }
  set (s := UltimateApp.settings st) in *.
  set (targets := UltimateApp.targetIndices st op) in *.
  set (bsz := UltimateApp.batchSize s) in *.
  pose proof (ultimate_batchSize_pos s Hcols) as Hbsz. fold bsz in Hbsz.
  destruct (totalBatches_pos (length targets) bsz Hbsz) as (t & Et & _ & _ & Eb).
  rewrite Et in Htot. inversion Htot; subst t. clear Htot.
  assert (length targets <= total * Z.to_nat bsz)%nat as Hcover by nia.
  assert (forall b, length (UltimateApp.batchImages (UltimateApp.images st) targets bsz b)
                    = length (pageSlice targets (Z.to_nat bsz) b)) as Hlen.
  { intros b. unfold UltimateApp.batchImages.
    rewrite batchIndices_pageSlice by lia.
    apply omap_lookup_length, pageSlice_Forall, targetIndices_valid. }
  split.
  - intros Hgood.
    rewrite (ultimate_batchLoop_never drawnSources
               (fun b => map Ultimate.url
                           (UltimateApp.batchImages (UltimateApp.images st) targets bsz b))
               st targets bsz (parseMaskIndices (Ultimate.maskIndices s)) enc Henc)
               with (bs := seq 0 total) (acc := [])
               (n := 0%nat) (n' := n1); [| |exact Hloop].
    2:{ intros b r0 n0 Hr. apply (ultimate_page_observed _ _ _ _ _ _ _ _ Hr).
        by apply Forall_omap_lookup. }
    simpl. rewrite <- (map_map _ (map Ultimate.url)), <- concat_map.
    unfold UltimateApp.batchImages.
    transitivity (map Ultimate.url
                    (omap (fun i => UltimateApp.images st !! i)
                       (concat (map (pageSlice targets (Z.to_nat bsz)) (seq 0 total))))).
    + f_equal. rewrite omap_concat, map_map. f_equal.
      apply map_ext. intros b. by rewrite batchIndices_pageSlice by lia.
    + rewrite pageSlices_concat by done. apply list_fmap_omap.
  - intros Hshow.
    rewrite (ultimate_batchLoop_never printedNumbers
               (fun b => map (Ultimate.currentNum s (Z.of_nat b * bsz))
                           (seq 0 (length (pageSlice targets (Z.to_nat bsz) b))))
               st targets bsz (parseMaskIndices (Ultimate.maskIndices s)) enc Henc)
               with (bs := seq 0 total) (acc := [])
               (n := 0%nat) (n' := n1); [| |exact Hloop].
    2:{ intros b r0 n0 Hr. rewrite <- Hlen.
        by apply (ultimate_page_observed _ _ _ _ _ _ _ _ Hr). }
    simpl. rewrite <- (page_numbers_concat targets (Z.to_nat bsz) total) by done.
    f_equal. apply map_ext. intros b. apply map_ext. intros i.
    unfold Ultimate.currentNum. rewrite Z2Nat.id by lia. done.
Qed.

Lemma X12_ultimate_every_picture_once_witness :
  concat (map (fun blob => printedNumbers (surface blob))
            (default [] (ultimateLocal threePagesUltimate UltimateApp.Normal
                           encodeAll never)))
  = map (fun k => (1 + Z.of_nat k)%Z) (seq 0 3).
Proof.
  refine (proj2 (X12_ultimate_every_picture_once threePagesUltimate
                   UltimateApp.Normal encodeAll _ _ _ _) _).
  - vm_compute. congruence.
  - intros b. reflexivity.
  - vm_compute. reflexivity.
  - reflexivity.
Defined.

Section IkkoWholeRun.

Local Open Scope Z_scope.

Lemma ikko_drawOptions_fields decode st op tg bsz b rws :
  Ikko.images (IkkoApp.drawOptions st op tg bsz b rws) = IkkoApp.currentImgs tg bsz b
  /\ Ikko.dsettings (IkkoApp.drawOptions st op tg bsz b rws) = IkkoApp.settings st
  /\ (forall i, Ikko.currentNum (IkkoApp.drawOptions st op tg bsz b rws) i
              = Ikko.startNumber (IkkoApp.settings st) + Z.of_nat b * bsz + Z.of_nat i)
  /\ Ikko.overlayImgEl decode (Ikko.dsettings (IkkoApp.drawOptions st op tg bsz b rws))
     = Ikko.overlayImgEl decode (IkkoApp.settings st).
Proof.
  unfold IkkoApp.drawOptions.
  destruct (Ikko.calculateCellDimensions _ _ _) as [cw ch]. done.
Qed.

Lemma ikko_batchSize_pos (s : Ikko.AppSettings) (len : nat) (eff : Z) :
  1 <= Ikko.cols s -> (1 <= len)%nat ->
  IkkoApp.effectiveGroupRows s len = Some eff ->
  1 <= Ikko.cols s * eff.
Proof.
  intros Hc Hlen. unfold IkkoApp.effectiveGroupRows.
  destruct (Z.gtb_spec (Ikko.groupRows s) 0) as [Hg|_].
  - intros [= <-]. nia.
  - destruct (ceilDiv_pos (Z.of_nat len) (Ikko.cols s) ltac:(lia)) as (t & -> & Ht).
    intros [= <-]. nia.
Qed.

Lemma ikko_no_targets_no_batches (bsz : Z) :
  IkkoApp.totalBatches 0 bsz = Some 0%nat.
Proof.
  unfold IkkoApp.totalBatches, ceilDiv.
  destruct (bsz =? 0); [done|]. simpl. by rewrite Zdiv_0_l.
Qed.

End IkkoWholeRun.



(** ** The combined picture *)

Section CombineTiling.

Import UltimateApp.

Lemma sumHeights_from (blobs : list Blob) (a : Z) :
  fold_left (fun acc b => (acc + height b)%Z) blobs a
  = (a + sumHeights blobs)%Z.
Proof.
  unfold sumHeights. revert a. induction blobs as [|b l IH]; intros a; simpl.
  - lia.
  - rewrite (IH (a + height b)%Z), (IH (0 + height b)%Z). lia.
Qed.

Lemma sumHeights_cons (b : Blob) (l : list Blob) :
  sumHeights (b :: l) = (height b + sumHeights l)%Z.
Proof. unfold sumHeights at 1. simpl. apply sumHeights_from. Qed.

Lemma sumHeights_nonneg (blobs : list Blob) :
  Forall (fun b => (0 <= height b)%Z) blobs -> (0 <= sumHeights blobs)%Z.
Proof.
  induction 1 as [|b l Hb _ IH]; [done|]. rewrite sumHeights_cons. lia.
Qed.

Lemma drawStrips_contiguous (sc : R) (blobs : list Blob) (y : Z) :
  contiguous y (drawStrips sc blobs y).
Proof.
  revert y. induction blobs as [|b l IH]; intros y; simpl; [done|].
  split; [done | apply IH].
Qed.

Lemma drawStrips_length (sc : R) (blobs : list Blob) (y : Z) :
  length (drawStrips sc blobs y) = length blobs.
Proof.
  revert y. induction blobs as [|b l IH]; intros y; simpl; [done|].
  by rewrite IH.
Qed.

Local Open Scope R_scope.

Lemma floorR_bounds (x : R) : IZR (floorR x) <= x < IZR (floorR x) + 1.
Proof. unfold floorR. destruct (base_Int_part x). Lra.lra. Qed.

Lemma floorR_IZR (z : Z) : floorR (IZR z) = z.
Proof.
  pose proof (floorR_bounds (IZR z)) as [H1 H2].
  apply le_IZR in H1. rewrite <- plus_IZR in H2. apply lt_IZR in H2. lia.
Qed.

Lemma floorR_ge (x : R) (z : Z) : IZR z <= x -> (z <= floorR x)%Z.
Proof.
  intros H. pose proof (floorR_bounds x) as [_ H2].
  assert (IZR z < IZR (floorR x + 1)) as Hlt by (rewrite plus_IZR; Lra.lra).
  apply lt_IZR in Hlt. lia.
Qed.

(** The strips are as high together as the scaled sum, up to the rounding of
    each of them. *)
Lemma drawStrips_height (sc : R) (blobs : list Blob) (y : Z) :
  IZR (stripsHeight (drawStrips sc blobs y)) <= IZR (sumHeights blobs) * sc
  /\ IZR (sumHeights blobs) * sc
     <= IZR (stripsHeight (drawStrips sc blobs y)) + INR (length blobs)
  /\ (blobs <> [] ->
      IZR (sumHeights blobs) * sc
      < IZR (stripsHeight (drawStrips sc blobs y)) + INR (length blobs)).
Proof.
  revert y. induction blobs as [|b l IH]; intros y.
  - unfold sumHeights. simpl. split; [Lra.lra|]. split; [Lra.lra | done].
  - rewrite sumHeights_cons. cbn [drawStrips stripsHeight fold_right snd length].
    fold (stripsHeight (drawStrips sc l (y + floorR (IZR (height b) * sc)))).
    destruct (IH (y + floorR (IZR (height b) * sc))%Z) as (H1 & H2 & _).
    pose proof (floorR_bounds (IZR (height b) * sc)) as [F1 F2].
    rewrite !plus_IZR, S_INR. split; [Lra.lra|]. split; [Lra.lra|].
    intros _. Lra.lra.
Qed.

End CombineTiling.

Section CombineBudget.

Import UltimateApp.

Lemma needsDownscale_cases (maxW totH : Z) :
  (needsDownscale maxW totH = true
   /\ (MAX_SAFE_TOTAL_HEIGHT < totH \/ PIXEL_LIMIT < maxW * totH)%Z)
  \/ (needsDownscale maxW totH = false
      /\ (totH <= MAX_SAFE_TOTAL_HEIGHT)%Z /\ (maxW * totH <= PIXEL_LIMIT)%Z).
Proof.
  unfold needsDownscale.
  destruct (Z.gtb_spec totH MAX_SAFE_TOTAL_HEIGHT);
    destruct (Z.gtb_spec (maxW * totH) PIXEL_LIMIT); simpl;
    [left | left | left | right]; (split; [done|]); lia || auto.
Qed.

Lemma drawStrips_exact (blobs : list Blob) (y : Z) :
  stripsHeight (drawStrips 1 blobs y) = sumHeights blobs.
Proof.
  revert y. induction blobs as [|b l IH]; intros y; [done|].
  rewrite sumHeights_cons. cbn [drawStrips stripsHeight fold_right snd].
  fold (stripsHeight (drawStrips 1 l (y + floorR (IZR (height b) * 1)))).
  by rewrite IH, Rmult_1_r, floorR_IZR.
Qed.

Local Open Scope R_scope.

(** The scale of a downscaled combine is positive and keeps the picture
    within the pixel budget. *)
Lemma combineScale_budget (maxW totH : Z) :
  (0 < maxW)%Z -> (0 < totH)%Z ->
  needsDownscale maxW totH = true ->
  0 <= combineScale maxW totH
  /\ IZR maxW * combineScale maxW totH * (IZR totH * combineScale maxW totH)
     <= IZR PIXEL_LIMIT.
Proof.
  intros HW HH Hneed. unfold combineScale. rewrite Hneed.
  apply IZR_lt in HW, HH.
  assert (0 < IZR (maxW * totH)) as HWH.
  { rewrite mult_IZR. by apply Rmult_lt_0_compat. }
  assert (0 < IZR PIXEL_LIMIT) as HP by (apply IZR_lt; done).
  assert (0 <= IZR PIXEL_LIMIT / IZR (maxW * totH)) as Hq.
  { apply Rlt_le, Rdiv_lt_0_compat; done. }
  set (sP := sqrt (IZR PIXEL_LIMIT / IZR (maxW * totH))).
  set (sH := IZR MAX_SAFE_TOTAL_HEIGHT / IZR totH).
  assert (0 <= sP) as HsP by apply sqrt_pos.
  assert (0 < sH) as HsH.
  { apply Rdiv_lt_0_compat; [apply IZR_lt; done | done]. }
  assert (0 <= Rmin sH sP) as Hmin by (apply Rmin_glb; Lra.lra).
  split; [done|].
  assert (Rmin sH sP <= sP) as Hle by apply Rmin_r.
  assert (Rmin sH sP * Rmin sH sP <= sP * sP) as Hsq
    by (apply Rmult_le_compat; done).
  assert (sP * sP = IZR PIXEL_LIMIT / IZR (maxW * totH)) as EsP
    by (by apply sqrt_sqrt).
  rewrite EsP in Hsq. clear EsP.
  rewrite mult_IZR in *.
  apply Rle_trans with
    (IZR maxW * IZR totH * (IZR PIXEL_LIMIT / (IZR maxW * IZR totH))).
  - replace (IZR maxW * Rmin sH sP * (IZR totH * Rmin sH sP))
      with (IZR maxW * IZR totH * (Rmin sH sP * Rmin sH sP)) by ring.
    apply Rmult_le_compat_l; [Lra.nra | done].
  - right. field. Lra.nra.
Qed.

Lemma combine_inv (first : Blob) (rest : list Blob) (c : Combined) :
  combine (first :: rest) = Some c ->
  strips c
  = drawStrips (combineScale (width first) (sumHeights (first :: rest)))
      (first :: rest) 0
  /\ (needsDownscale (width first) (sumHeights (first :: rest)) = true ->
      finalW c
      = floorR (IZR (width first)
                * combineScale (width first) (sumHeights (first :: rest)))
      /\ finalH c
         = floorR (IZR (sumHeights (first :: rest))
                   * combineScale (width first) (sumHeights (first :: rest))))
  /\ (needsDownscale (width first) (sumHeights (first :: rest)) = false ->
      finalW c = width first /\ finalH c = sumHeights (first :: rest)).
Proof.
  unfold combine. intros [= <-].
  destruct (needsDownscale _ _); repeat split; intros; done.
Qed.

End CombineBudget.

(** X14.  The combined picture always fits the limits of the surface and the
    pages always fit the combined picture: for pages of non-negative height
    and a positive width, the output is at most 28000 pixels high and holds
    at most 80 million pixels, whether a downscale was needed or not; the
    strips are stacked without a gap from the top; together they are never
    higher than the output and leave fewer blank rows at the bottom than
    there are pages.  Without a downscale the output is exactly the width of
    the first page by the summed heights and the strips fill it. *)
Theorem X14_combined_picture_fits
    (first : Blob) (rest : list Blob) (c : UltimateApp.Combined) :
  (0 < width first)%Z ->
  Forall (fun b => (0 <= height b)%Z) (first :: rest) ->
  UltimateApp.combine (first :: rest) = Some c ->
  (UltimateApp.finalH c <= UltimateApp.MAX_SAFE_TOTAL_HEIGHT)%Z
  /\ (UltimateApp.finalW c * UltimateApp.finalH c <= UltimateApp.PIXEL_LIMIT)%Z
  /\ contiguous 0 (UltimateApp.strips c)
  /\ length (UltimateApp.strips c) = length (first :: rest)
  /\ (stripsHeight (UltimateApp.strips c) <= UltimateApp.finalH c
      < stripsHeight (UltimateApp.strips c) + Z.of_nat (length (first :: rest)))%Z
  /\ (UltimateApp.needsDownscale (width first)
        (UltimateApp.sumHeights (first :: rest)) = false ->
      UltimateApp.finalW c = width first
      /\ UltimateApp.finalH c = UltimateApp.sumHeights (first :: rest)
      /\ stripsHeight (UltimateApp.strips c) = UltimateApp.finalH c).
Proof.
  intros HW Hh Hc.
  destruct (combine_inv first rest c Hc) as (Hstr & Hdown & Hplain).
  rewrite Hstr. clear Hc Hstr.
  set (blobs := first :: rest) in *.
  set (W := width first) in *.
  set (H := UltimateApp.sumHeights blobs) in *.
  pose proof (sumHeights_nonneg blobs Hh) as HH. fold H in HH.
  destruct (needsDownscale_cases W H) as [[Hneed Hbig]|[Hneed [Hfit1 Hfit2]]].
  - destruct (Hdown Hneed) as [-> ->]. clear Hdown Hplain.
    destruct (total_height_pos W H ltac:(lia) Hbig) as [Hpos _].
    destruct (combineScale_bounds W H ltac:(lia) Hbig) as [_ Hle].
    destruct (combineScale_budget W H HW Hpos Hneed) as [Hsc Hbud].
    set (sc := UltimateApp.combineScale W H) in *.
    pose proof (floorR_bounds (IZR W * sc)) as [FW1 FW2].
    pose proof (floorR_bounds (IZR H * sc)) as [FH1 FH2].
    assert (0 <= IZR W * sc)%R as HWs.
    { apply Rmult_le_pos; [apply IZR_le; lia | done]. }
    assert (0 <= IZR H * sc)%R as HHs.
    { apply Rmult_le_pos; [apply IZR_le; lia | done]. }
    pose proof (floorR_ge _ 0 HWs) as FW0. pose proof (floorR_ge _ 0 HHs) as FH0.
    destruct (drawStrips_height sc blobs 0) as (S1 & _ & S3).
    specialize (S3 ltac:(done)). fold H in S1, S3.
    split; [by apply floorR_le|]. split; [|split; [|split; [|split]]].
    + apply le_IZR. rewrite mult_IZR.
      apply Rle_trans with (IZR W * sc * (IZR H * sc))%R; [|done].
      apply Rmult_le_compat; try done; apply IZR_le; done.
    + apply drawStrips_contiguous.
    + apply drawStrips_length.
    + split.
      * by apply floorR_ge.
      * apply lt_IZR. rewrite plus_IZR, <- INR_IZR_INZ. Lra.lra.
    + intros E. rewrite E in Hneed. done.
  - destruct (Hplain Hneed) as [-> ->]. clear Hdown Hplain.
    assert (UltimateApp.combineScale W H = 1%R) as ->.
    { unfold UltimateApp.combineScale. by rewrite Hneed. }
    rewrite drawStrips_exact. fold H.
    split; [done|]. split; [done|].
    split; [apply drawStrips_contiguous|].
    split; [apply drawStrips_length|].
    split; [subst blobs; simpl length; lia|]. done.
Qed.

Lemma X14_combined_picture_fits_witness :
  (UltimateApp.finalH
     (default (UltimateApp.mkCombined 0 0 0 []) (UltimateApp.combine [tallPage; tallPage]))
   <= UltimateApp.MAX_SAFE_TOTAL_HEIGHT)%Z.
Proof.
  refine (proj1 (X14_combined_picture_fits tallPage [tallPage] _ _ _ _)).
  - vm_compute. reflexivity.
  - repeat constructor; vm_compute; congruence.
  - reflexivity.
Defined.

(** ** Reordering the gallery *)

Section Reorder.

Context {A : Type}.
Implicit Types (l : list A) (i j : nat).

Lemma spliceIn_Permutation l j (x : A) : spliceIn l j x ≡ₚ x :: l.
Proof.
  unfold spliceIn. rewrite <- Permutation_middle.
  by rewrite take_drop.
Qed.

Lemma spliceIn_lookup l j (x : A) :
  spliceIn l j x !! Nat.min j (length l) = Some x.
Proof.
  unfold spliceIn. rewrite lookup_app_r by (rewrite length_take; lia).
  rewrite length_take, Nat.sub_diag. done.
Qed.

Lemma spliceIn_delete l j (x : A) :
  delete (Nat.min j (length l)) (spliceIn l j x) = l.
Proof.
  unfold spliceIn. rewrite <- (length_take l j) at 1.
  rewrite delete_middle. apply take_drop.
Qed.

Lemma spliceIn_spliceOut l i (x : A) :
  l !! i = Some x -> spliceIn (delete i l) i x = l.
Proof.
  intros Hi. unfold spliceIn. rewrite delete_take_drop.
  assert (i < length l) as Hlt by (by apply lookup_lt_Some in Hi).
  rewrite take_app_length', drop_app_length' by (rewrite length_take; lia).
  by apply take_drop_middle.
Qed.

End Reorder.

(** X15.  Dragging the picture at [oldIndex] to [newIndex] rearranges the
    gallery and nothing else: the result is a permutation of the gallery,
    the dragged picture lands at [newIndex] (at the end when [newIndex] is
    beyond it), the other pictures keep their order, dragging it back
    restores the gallery, and both engines do the same (the shortcut of
    engine [Ikko] for a drop in place changes nothing). *)
Theorem X15_drag_reorder {A : Type} (l : list A) (oldIndex newIndex : nat) :
  oldIndex < length l ->
  exists (moved : A) (l' : list A),
    l !! oldIndex = Some moved
    /\ ultimateOnEnd l oldIndex newIndex = Some l'
    /\ ikkoOnEnd l oldIndex newIndex = Some l'
    /\ l' ≡ₚ l
    /\ l' !! Nat.min newIndex (length l - 1) = Some moved
    /\ delete (Nat.min newIndex (length l - 1)) l' = delete oldIndex l
    /\ ultimateOnEnd l' (Nat.min newIndex (length l - 1)) oldIndex = Some l.
Proof.
  intros Hlt. destruct (lookup_lt_is_Some_2 l oldIndex Hlt) as [moved Hm].
  exists moved, (spliceIn (delete oldIndex l) newIndex moved).
  assert (length (delete oldIndex l) = length l - 1) as Hlen.
  { rewrite length_delete; [done | by exists moved]. }
  split; [done|]. split; [|split; [|split; [|split; [|split]]]].
  - unfold ultimateOnEnd, spliceOut. by rewrite Hm.
  - unfold ikkoOnEnd, spliceOut. rewrite Hm.
    destruct (Nat.eqb_spec oldIndex newIndex) as [<-|]; [|done].
    by rewrite spliceIn_spliceOut.
  - rewrite spliceIn_Permutation. symmetry. by apply delete_Permutation.
  - rewrite <- Hlen. apply spliceIn_lookup.
  - rewrite <- Hlen. apply spliceIn_delete.
  - unfold ultimateOnEnd, spliceOut. rewrite <- Hlen.
    rewrite spliceIn_lookup, spliceIn_delete.
    by rewrite spliceIn_spliceOut.
Qed.

Lemma X15_drag_reorder_witness :
  exists (moved : nat) (l' : list nat),
    [10; 20; 30; 40] !! 0 = Some moved
    /\ ultimateOnEnd [10; 20; 30; 40] 0 2 = Some l'
    /\ l' = [20; 30; 10; 40].
Proof.
  destruct (X15_drag_reorder [10; 20; 30; 40] 0 2 ltac:(simpl; lia))
    as (moved & l' & Hm & Hu & _).
  exists moved, l'. split; [exact Hm|]. split; [exact Hu|].
  vm_compute in Hu. by inversion Hu.
Defined.

(** ** Restoring the gallery of the last session *)

Section Restore.

Implicit Types (m : list (jsstr * Ultimate.ImageItem)) (k : jsstr)
  (saved : list Ultimate.ImageItem) (ids : list jsstr).

Lemma mapSet_fresh m k v :
  k ∉ map fst m -> mapSet m k v = m ++ [(k, v)].
Proof.
  induction m as [|[k' v'] m IH]; intros Hk; [done|]. simpl in *.
  apply not_elem_of_cons in Hk as [Hne Hk].
  rewrite decide_False by done. by rewrite IH.
Qed.

Lemma newMap_from saved m :
  NoDup (map fst m ++ map Ultimate.id saved) ->
  fold_left (fun m img => mapSet m (Ultimate.id img) img) saved m
  = m ++ map (fun img => (Ultimate.id img, img)) saved.
Proof.
  revert m. induction saved as [|x saved IH]; intros m Hnd; simpl.
  - by rewrite app_nil_r.
  - simpl in Hnd. apply NoDup_app in Hnd as (H1 & H2 & H3).
    apply NoDup_cons in H3 as [H3 H4].
    rewrite mapSet_fresh by (intros Hin; apply (H2 _ Hin); by left).
    rewrite IH.
    + by rewrite <- app_assoc.
    + rewrite map_app. simpl. apply NoDup_app. split; [|split; [|done]].
      * apply NoDup_app. split; [done|]. split; [|apply NoDup_singleton].
        intros y Hy Hy'. apply list_elem_of_singleton in Hy'. subst y.
        apply (H2 _ Hy). by left.
      * intros y Hy Hy'. apply elem_of_app in Hy as [Hy|Hy].
        -- apply (H2 _ Hy). by right.
        -- apply list_elem_of_singleton in Hy. by subst y.
Qed.

Lemma newMap_NoDup saved :
  NoDup (map Ultimate.id saved) ->
  newMap saved = map (fun img => (Ultimate.id img, img)) saved.
Proof. intros Hnd. unfold newMap. by rewrite newMap_from. Qed.

Lemma mapGet_Some saved k x :
  mapGet (map (fun img => (Ultimate.id img, img)) saved) k = Some x ->
  x ∈ saved /\ Ultimate.id x = k.
Proof.
  induction saved as [|y saved IH]; [done|]. simpl.
  destruct (decide (Ultimate.id y = k)) as [E|_].
  - intros [= <-]. split; [by left | done].
  - intros H. destruct (IH H). split; [by right | done].
Qed.

Lemma mapGet_elem saved x :
  NoDup (map Ultimate.id saved) -> x ∈ saved ->
  mapGet (map (fun img => (Ultimate.id img, img)) saved) (Ultimate.id x) = Some x.
Proof.
  induction saved as [|y saved IH]; intros Hnd Hx.
  - by apply elem_of_nil in Hx.
  - simpl in *. apply NoDup_cons in Hnd as [Hy Hnd].
    apply elem_of_cons in Hx as [->|Hx].
    + by rewrite decide_True.
    + rewrite decide_False; [by apply IH|].
      intros E. apply Hy. rewrite E. by apply list_elem_of_fmap_2.
Qed.

Lemma mapGet_None m k : mapGet m k = None -> k ∉ map fst m.
Proof.
  induction m as [|[k' v] m IH]; simpl; [intros _; apply not_elem_of_nil|].
  destruct (decide (k' = k)); [done|]. intros H.
  apply not_elem_of_cons. split; [done | by apply IH].
Qed.

Lemma mapGet_mapDelete m i k :
  k <> i -> mapGet (mapDelete m i) k = mapGet m k.
Proof.
  intros Hne. unfold mapDelete. induction m as [|[k' v] m IH]; [done|].
  rewrite filter_cons. simpl. destruct (decide (k' <> i)) as [Hk|Hk].
  - simpl. by rewrite IH.
  - destruct (decide (k' = k)) as [->|_]; [|done].
    exfalso. apply Hk. done.
Qed.

Lemma filter_all {A} (P : A -> Prop) `{!forall x, Decision (P x)} (l : list A) :
  (forall x, x ∈ l -> P x) -> filter P l = l.
Proof.
  induction l as [|x l IH]; intros HP; [done|].
  rewrite filter_cons, decide_True by (apply HP; by left).
  rewrite IH; [done|]. intros y Hy. apply HP. by right.
Qed.

Lemma filter_none {A} (P : A -> Prop) `{!forall x, Decision (P x)} (l : list A) :
  (forall x, x ∈ l -> ~ P x) -> filter P l = [].
Proof.
  induction l as [|x l IH]; intros HP; [done|].
  rewrite filter_cons, decide_False by (apply HP; by left).
  apply IH. intros y Hy. apply HP. by right.
Qed.

(** What the order loop makes of an order list without repetition. *)
Lemma orderLoop_spec ids :
  NoDup ids ->
  forall m ordered,
    orderLoop ids m ordered
    = (ordered ++ omap (mapGet m) ids, filter (fun p => fst p ∉ ids) m).
Proof.
  induction 1 as [|i rest Hi Hnd IH]; intros m ordered.
  - simpl. rewrite app_nil_r. f_equal. symmetry.
    apply filter_all. intros p _. apply not_elem_of_nil.
  - assert (omap (mapGet m) (i :: rest)
            = match mapGet m i with Some x => [x] | None => [] end
              ++ omap (mapGet m) rest) as ->
      by (simpl; by destruct (mapGet m i)).
    cbn [orderLoop].
    destruct (mapGet m i) as [img|] eqn:Eg.
    + rewrite IH, <- app_assoc. simpl. f_equal.
      * f_equal. f_equal. apply omap_ext_in. intros k Hk.
        apply mapGet_mapDelete. intros ->. done.
      * unfold mapDelete. rewrite list_filter_filter.
        apply list_filter_iff. intros p. rewrite not_elem_of_cons. tauto.
    + rewrite IH. f_equal. apply mapGet_None in Eg.
      induction m as [|[k' v] m IHm]; [done|].
      simpl in Eg. apply not_elem_of_cons in Eg as [Hne Eg].
      rewrite !filter_cons. simpl.
      destruct (decide (k' ∉ rest)) as [Hr|Hr].
      * rewrite decide_True by (apply not_elem_of_cons; split; [congruence | done]).
        by rewrite IHm.
      * rewrite decide_False by (rewrite not_elem_of_cons; tauto).
        by apply IHm.
Qed.

Lemma restored_ids saved ids :
  NoDup (map Ultimate.id saved) ->
  map Ultimate.id
    (omap (mapGet (map (fun img => (Ultimate.id img, img)) saved)) ids)
  = filter (fun i => i ∈ map Ultimate.id saved) ids.
Proof.
  intros Hnd. induction ids as [|i ids IH]; [done|].
  change (i :: ids) with ([i] ++ ids). rewrite omap_app, map_app, filter_app, IH.
  f_equal. simpl. rewrite filter_cons, filter_nil.
  destruct (mapGet _ i) as [x|] eqn:Eg.
  - apply mapGet_Some in Eg as [Hx <-].
    rewrite decide_True by (by apply list_elem_of_fmap_2). done.
  - apply mapGet_None in Eg. rewrite map_map in Eg. simpl in Eg.
    by rewrite decide_False.
Qed.

Lemma remaining_entries saved ids :
  map snd (filter (fun p => fst p ∉ ids)
             (map (fun img => (Ultimate.id img, img)) saved))
  = filter (fun img => Ultimate.id img ∉ ids) saved.
Proof.
  induction saved as [|x saved IH]; [done|]. simpl.
  rewrite !filter_cons. simpl.
  destruct (decide (Ultimate.id x ∉ ids)); simpl; by rewrite IH.
Qed.

Lemma restored_images (st : UltimateApp.AppState) saved ids :
  saved <> [] -> NoDup (map Ultimate.id saved) -> NoDup ids ->
  UltimateApp.images (restoreSession st saved (Some ids))
  = omap (mapGet (map (fun img => (Ultimate.id img, img)) saved)) ids
    ++ filter (fun img => Ultimate.id img ∉ ids) saved.
Proof.
  intros Hne Hnd Hids. unfold restoreSession.
  assert ((0 <? length saved)%nat = true) as ->
    by (destruct saved; [done | reflexivity]).
  rewrite newMap_NoDup by done. rewrite orderLoop_spec by done.
  cbv beta iota delta [UltimateApp.setImages UltimateApp.images].
  by rewrite remaining_entries.
Qed.

Lemma restored_Permutation (st : UltimateApp.AppState) saved ids :
  saved <> [] -> NoDup (map Ultimate.id saved) -> NoDup ids ->
  UltimateApp.images (restoreSession st saved (Some ids)) ≡ₚ saved.
Proof.
  intros Hne Hnd Hids. rewrite restored_images by done.
  transitivity (filter (fun img => Ultimate.id img ∈ ids) saved
                ++ filter (fun img => Ultimate.id img ∉ ids) saved);
    [|apply (filter_app_complement (fun img => Ultimate.id img ∈ ids))].
  apply Permutation_app_tail. apply NoDup_Permutation.
  - apply (NoDup_fmap_1 Ultimate.id).
    change (NoDup (map Ultimate.id
              (omap (mapGet (map (fun img => (Ultimate.id img, img)) saved)) ids))).
    rewrite restored_ids by done. by apply NoDup_filter.
  - apply NoDup_filter. by apply (NoDup_fmap_1 Ultimate.id).
  - intros x. rewrite list_elem_of_omap, list_elem_of_filter. split.
    + intros (i & Hi & Hg). apply mapGet_Some in Hg as [Hx <-]. done.
    + intros [Hi Hx]. exists (Ultimate.id x). split; [done|].
      by apply mapGet_elem.
Qed.

End Restore.



(** ** The duplicate counter *)

Section DuplicateCount.

Import UltimateApp.

Lemma dedupLoop_lengths (l : list Ultimate.ImageItem) (seen : gset (list N)) :
  length (fst (dedupLoop l seen)) + length (snd (dedupLoop l seen)) = length l.
Proof.
  revert seen. induction l as [|x l IH]; intros seen; [done|]. simpl.
  destruct (decide (dupKey x ∈ seen)).
  - specialize (IH seen). destruct (dedupLoop l seen). simpl in *. lia.
  - specialize (IH ({[dupKey x]} ∪ seen)).
    destruct (dedupLoop l ({[dupKey x]} ∪ seen)). simpl in *. lia.
Qed.

(** The keys met grow by one with every picture that is kept. *)
Lemma dedupLoop_size (l : list Ultimate.ImageItem) (seen : gset (list N)) :
  size (seen ∪ keysOf l) = size seen + length (fst (dedupLoop l seen)).
Proof.
  revert seen. induction l as [|x l IH]; intros seen.
  - unfold keysOf. simpl. rewrite (right_id_L ∅ (∪)). lia.
  - simpl. destruct (decide (dupKey x ∈ seen)) as [Hin|Hout].
    + specialize (IH seen). destruct (dedupLoop l seen) as [keep ids].
      simpl in *. rewrite <- IH. f_equal. unfold keysOf. simpl. set_solver.
    + specialize (IH ({[dupKey x]} ∪ seen)).
      destruct (dedupLoop l ({[dupKey x]} ∪ seen)) as [keep ids].
      simpl in *.
      replace (seen ∪ keysOf (x :: l)) with ({[dupKey x]} ∪ seen ∪ keysOf l)
        by (unfold keysOf; simpl; set_solver).
      rewrite IH, size_union, size_singleton by set_solver. lia.
Qed.

(** Nothing is removed from a gallery whose keys are distinct and new. *)
Lemma dedupLoop_distinct (l : list Ultimate.ImageItem) (seen : gset (list N)) :
  NoDup (map dupKey l) -> (forall x, x ∈ l -> dupKey x ∉ seen) ->
  dedupLoop l seen = (l, []).
Proof.
  revert seen. induction l as [|x l IH]; intros seen Hnd Hfresh; [done|].
  simpl in *. apply NoDup_cons in Hnd as [Hx Hnd].
  rewrite decide_False by (apply Hfresh; by left).
  rewrite IH; [done | done |].
  intros y Hy. apply not_elem_of_union. split.
  - intros E. apply elem_of_singleton in E. apply Hx. rewrite <- E.
    by apply list_elem_of_fmap_2.
  - apply Hfresh. by right.
Qed.

Lemma removeIds_sublist (l : list Ultimate.ImageItem) (seen : gset (list N)) :
  snd (dedupLoop l seen) `sublist_of` map Ultimate.id l.
Proof.
  revert seen. induction l as [|x l IH]; intros seen; [done|]. simpl.
  destruct (decide (dupKey x ∈ seen)).
  - specialize (IH seen). destruct (dedupLoop l seen). simpl in *.
    by apply sublist_skip.
  - specialize (IH ({[dupKey x]} ∪ seen)).
    destruct (dedupLoop l ({[dupKey x]} ∪ seen)). simpl in *.
    by apply sublist_cons.
Qed.

End DuplicateCount.

(** X17.  The duplicate counter shown to the user is exactly the number of
    pictures that duplicate removal takes out (and deletes from the store);
    kept and removed pictures together are the gallery; after the removal
    the counter is 0, and removing duplicates a second time changes
    nothing. *)
Theorem X17_duplicate_counter (st : UltimateApp.AppState) :
  duplicateCount st = Z.of_nat (length (removeIds st))
  /\ length (UltimateApp.images (UltimateApp.removeDuplicates st))
     + length (removeIds st) = length (UltimateApp.images st)
  /\ removeIds st `sublist_of` map Ultimate.id (UltimateApp.images st)
  /\ duplicateCount (UltimateApp.removeDuplicates st) = 0%Z
  /\ removeIds (UltimateApp.removeDuplicates st) = []
  /\ UltimateApp.removeDuplicates (UltimateApp.removeDuplicates st)
     = UltimateApp.removeDuplicates st.
Proof.
  pose proof (dedupLoop_lengths (UltimateApp.images st) ∅) as Hlen.
  pose proof (dedupLoop_size (UltimateApp.images st) ∅) as Hsize.
  rewrite (left_id_L ∅ (∪)), size_empty in Hsize. simpl in Hsize.
  destruct (dedupLoop_fresh (UltimateApp.images st) ∅) as [Hnd Hfresh].
  assert (UltimateApp.dedupLoop (fst (UltimateApp.dedupLoop (UltimateApp.images st) ∅)) ∅
          = (fst (UltimateApp.dedupLoop (UltimateApp.images st) ∅), [])) as Hagain.
  { apply dedupLoop_distinct; [done|]. intros x _. set_solver. }
  assert (forall s : UltimateApp.AppState,
             duplicateCount s = Z.of_nat (length (removeIds s))) as Hcount.
  { intros s. unfold duplicateCount, removeIds.
    pose proof (dedupLoop_lengths (UltimateApp.images s) ∅).
    pose proof (dedupLoop_size (UltimateApp.images s) ∅) as Hs.
    rewrite (left_id_L ∅ (∪)), size_empty in Hs. unfold keysOf in Hs.
    rewrite Hs. lia. }
  assert (removeIds (UltimateApp.removeDuplicates st) = []) as Hnone.
  { unfold removeIds, UltimateApp.removeDuplicates. simpl. by rewrite Hagain. }
  split; [apply Hcount|]. split; [exact Hlen|].
  split; [apply removeIds_sublist|].
  split; [by rewrite Hcount, Hnone|]. split; [done|].
  unfold UltimateApp.removeDuplicates, UltimateApp.setImages. simpl.
  by rewrite Hagain.
Qed.

(** ** Importing a selection of files *)

Section ImportFacts.

Variable freshId : nat -> jsstr.
Variable objectUrl : nat -> jsstr.

Lemma import_chunk_pageSlice (len k : nat) :
  seq (k * CHUNK_SIZE) (Nat.min (k * CHUNK_SIZE + CHUNK_SIZE) len - k * CHUNK_SIZE)
  = pageSlice (seq 0 len) CHUNK_SIZE k.
Proof.
  unfold pageSlice, slice.
  rewrite drop_seq, take_seq, length_seq. simpl. f_equal; lia.
Qed.

(** The pictures made by the first [j] chunks. *)
Lemma import_chunks_take (files : list File) (j : nat) :
  j <= length (FileImport.chunkStarts (length files)) ->
  flat_map (chunkImages freshId objectUrl files)
    (take j (FileImport.chunkStarts (length files)))
  = flat_map (ikkoItemAt freshId objectUrl files)
      (seq 0 (Nat.min (j * CHUNK_SIZE) (length files))).
Proof.
  intros Hj. unfold FileImport.chunkStarts in *.
  rewrite length_map, length_seq in Hj.
  rewrite firstn_map, take_seq, Nat.min_l by lia.
  unfold chunkImages.
  rewrite <- (flat_map_flat_map (ikkoItemAt freshId objectUrl files)
                (fun s => seq s (Nat.min (s + CHUNK_SIZE) (length files) - s))).
  f_equal. rewrite flat_map_concat_map, map_map.
  erewrite map_ext; [|intros k; apply import_chunk_pageSlice].
  by rewrite pageSlices_take, take_seq.
Qed.

Lemma processNextChunk_shape (files : list File) (sigma : nat -> bool) :
  forall starts images n,
    exists j,
      j <= length starts
      /\ fst (processNextChunk freshId objectUrl files starts images sigma n)
         = images ++ flat_map (chunkImages freshId objectUrl files) (take j starts)
      /\ n < snd (processNextChunk freshId objectUrl files starts images sigma n)
      /\ ((forall k, n <= k < snd (processNextChunk freshId objectUrl files
                                     starts images sigma n) -> sigma k = false) ->
          j = length starts).
Proof.
  induction starts as [|s rest IH]; intros images n.
  - exists 0. simpl. poll_step. simpl. rewrite app_nil_r.
    repeat split; try done; lia.
  - simpl. poll_step. destruct (sigma n) eqn:E.
    + exists 0. simpl. rewrite app_nil_r. split; [lia|]. split; [done|].
      split; [lia|]. intros Hq. rewrite Hq in E by lia. done.
    + destruct (IH (images ++ chunkImages freshId objectUrl files s) (S n))
        as (j & Hj & Hfst & Hsnd & Hq).
      exists (S j). simpl. split; [lia|].
      split; [by rewrite Hfst, <- app_assoc|]. split; [lia|].
      intros Hall. f_equal. apply Hq. intros k Hk. apply Hall. lia.
Qed.

Lemma flat_map_positions_gen {A B} (l : list A) (f : nat -> list B)
    (g : A -> list B) :
  (forall i x, l !! i = Some x -> f i = g x) ->
  flat_map f (seq 0 (length l)) = flat_map g l.
Proof.
  induction l as [|x l IH] using rev_ind; [done|]. intros H.
  rewrite length_app, Nat.add_comm. simpl length.
  rewrite seq_S, !flat_map_app. simpl. rewrite !app_nil_r. f_equal.
  - apply IH. intros i y Hi. apply H. rewrite lookup_app_l; [done|].
    by apply lookup_lt_Some in Hi.
  - apply H. rewrite lookup_app_r, Nat.sub_diag by lia. done.
Qed.

Lemma map_flat_map {A B C} (h : B -> C) (f : A -> list B) (l : list A) :
  map h (flat_map f l) = flat_map (fun a => map h (f a)) l.
Proof.
  induction l as [|a l IH]; [done|]. simpl. by rewrite map_app, IH.
Qed.

(** The imported pictures carry the names and sizes of the accepted files,
    in the order of the selection. *)
Lemma ikko_import_names (files : list File) :
  map (fun d => (Ikko.name d, Ikko.size d))
    (flat_map (ikkoItemAt freshId objectUrl files) (seq 0 (length files)))
  = map (fun f => (fname f, fsize f))
      (filter (fun f => ikkoAccepts f = true) files).
Proof.
  rewrite map_flat_map.
  rewrite (flat_map_positions_gen files _
             (fun f => if ikkoAccepts f then [(fname f, fsize f)] else [])).
  - induction files as [|f files IH]; [done|]. simpl.
    rewrite filter_cons. destruct (ikkoAccepts f); simpl; by rewrite IH.
  - intros i f Hi. unfold ikkoItemAt. rewrite Hi. by destruct (ikkoAccepts f).
Qed.

Lemma ultimate_import_names (files : list File) :
  map (fun d => (Ultimate.name d, Ultimate.size d))
    (flat_map (ultimateItemAt freshId objectUrl files) (seq 0 (length files)))
  = map (fun f => (fname f, fsize f))
      (filter (fun f => ultimateAccepts f = true) files).
Proof.
  rewrite map_flat_map.
  rewrite (flat_map_positions_gen files _
             (fun f => if ultimateAccepts f then [(fname f, fsize f)] else [])).
  - induction files as [|f files IH]; [done|]. simpl.
    rewrite filter_cons. destruct (ultimateAccepts f); simpl; by rewrite IH.
  - intros i f Hi. unfold ultimateItemAt. rewrite Hi.
    by destruct (ultimateAccepts f).
Qed.

Lemma handleFiles_nonempty (st : IkkoApp.AppState) (files : list File)
    (sigma : nat -> bool) (n : nat) :
  files <> [] ->
  handleFiles freshId objectUrl st files sigma n
  = (IkkoApp.mkAppState
       (fst (processNextChunk freshId objectUrl files
               (FileImport.chunkStarts (length files)) (IkkoApp.images st) sigma n))
       (IkkoApp.settings st) (IkkoApp.generatedBlobs st),
     snd (processNextChunk freshId objectUrl files
            (FileImport.chunkStarts (length files)) (IkkoApp.images st) sigma n)).
Proof.
  intros Hne. destruct files as [|f files']; [done|].
  unfold handleFiles. poll_step.
  by destruct (processNextChunk _ _ _ _ _ sigma n).
Qed.

Lemma handleFileSelect_nonempty (st : UltimateApp.AppState) (files : list File) :
  files <> [] ->
  handleFileSelect freshId objectUrl st files
  = UltimateApp.setImages st
      (UltimateApp.images st
       ++ flat_map (ultimateItemAt freshId objectUrl files) (seq 0 (length files))).
Proof. intros Hne. by destruct files. Qed.

End ImportFacts.

(** X18.  Importing a selection in engine [Ikko] does not depend on the
    chunking: when no read of the flag finds it set, the gallery grows by
    the accepted files of the whole selection, in selection order, each
    with the name and size of its file.  A cancellation only cuts the import
    short at a chunk boundary (a multiple of 40 files); the settings and the
    generated pages are not touched.  Engine [Ultimate] imports in one step
    the files whose type starts with ["image/"]; every file it accepts is
    accepted by engine [Ikko] as well. *)
Theorem X18_chunked_import
    (freshId objectUrl : nat -> jsstr)
    (st : IkkoApp.AppState) (ust : UltimateApp.AppState)
    (files : list File) (sigma : nat -> bool) (n : nat) :
  (exists k,
      k <= length files
      /\ (k = length files \/ k mod CHUNK_SIZE = 0)
      /\ IkkoApp.images (fst (handleFiles freshId objectUrl st files sigma n))
         = IkkoApp.images st
           ++ flat_map (ikkoItemAt freshId objectUrl files) (seq 0 k)
      /\ ((forall j, n <= j < snd (handleFiles freshId objectUrl st files sigma n) ->
                     sigma j = false) ->
          k = length files
          /\ map (fun d => (Ikko.name d, Ikko.size d))
               (drop (length (IkkoApp.images st))
                  (IkkoApp.images (fst (handleFiles freshId objectUrl st files sigma n))))
             = map (fun f => (fname f, fsize f))
                 (filter (fun f => ikkoAccepts f = true) files)))
  /\ IkkoApp.settings (fst (handleFiles freshId objectUrl st files sigma n))
     = IkkoApp.settings st
  /\ IkkoApp.generatedBlobs (fst (handleFiles freshId objectUrl st files sigma n))
     = IkkoApp.generatedBlobs st
  /\ map (fun d => (Ultimate.name d, Ultimate.size d))
       (drop (length (UltimateApp.images ust))
          (UltimateApp.images (handleFileSelect freshId objectUrl ust files)))
     = map (fun f => (fname f, fsize f))
         (filter (fun f => ultimateAccepts f = true) files)
  /\ (forall f, ultimateAccepts f = true -> ikkoAccepts f = true).
Proof.
  split; [|split; [|split; [|split]]].
  - destruct (decide (files = [])) as [->|Hne].
    { exists 0. simpl. rewrite app_nil_r. split; [lia|]. split; [by left|].
      split; [done|]. intros _. split; [done|]. by rewrite drop_all. }
    rewrite (handleFiles_nonempty freshId objectUrl st files sigma n Hne).
    destruct (processNextChunk_shape freshId objectUrl files sigma
                (FileImport.chunkStarts (length files)) (IkkoApp.images st) n)
      as (j & Hj & Hfst & Hsnd & Hq).
    destruct (processNextChunk freshId objectUrl files _ _ sigma n)
      as [imgs n'] eqn:E.
    simpl in Hfst, Hsnd, Hq. simpl fst. simpl snd. simpl IkkoApp.images.
    rewrite import_chunks_take in Hfst by done.
    assert (length (FileImport.chunkStarts (length files))
            = (length files + 39) / 40) as Elen.
    { unfold FileImport.chunkStarts. by rewrite length_map, length_seq. }
    pose proof (Nat.div_mod_eq (length files + 39) 40) as Hdm.
    pose proof (Nat.mod_upper_bound (length files + 39) 40 ltac:(lia)) as Hmb.
    unfold CHUNK_SIZE in *.
    exists (Nat.min (j * 40) (length files)).
    split; [lia|]. split; [|split; [done|]].
    + destruct (decide (j * 40 <= length files)) as [Hle|Hgt].
      * right. rewrite Nat.min_l by done. exact (Nat.Div0.mod_mul j 40).
      * left. lia.
    + intros Hall. specialize (Hq Hall).
      assert (Nat.min (j * 40) (length files) = length files) as Ek by lia.
      split; [done|]. rewrite Hfst, Ek, drop_app_length.
      apply ikko_import_names.
  - destruct (decide (files = [])) as [->|Hne]; [done|].
    rewrite (handleFiles_nonempty freshId objectUrl st files sigma n Hne).
    by destruct (processNextChunk _ _ _ _ _ sigma n).
  - destruct (decide (files = [])) as [->|Hne]; [done|].
    rewrite (handleFiles_nonempty freshId objectUrl st files sigma n Hne).
    by destruct (processNextChunk _ _ _ _ _ sigma n).
  - destruct (decide (files = [])) as [->|Hne]; [by rewrite drop_all|].
    rewrite (handleFileSelect_nonempty freshId objectUrl ust files Hne).
    simpl UltimateApp.images. rewrite drop_app_length.
    apply ultimate_import_names.
  - intros f Hf. unfold ikkoAccepts. unfold ultimateAccepts in Hf.
    by rewrite Hf.
Qed.

Section Acceptance.

Lemma endsWithFold_spec (s suffix : jsstr) :
  endsWithFold s suffix = true
  <-> exists stem tail, s = stem ++ tail /\ map foldCase tail = suffix.
Proof.
  unfold endsWithFold. rewrite andb_true_iff, bool_decide_eq_true, Nat.leb_le.
  split.
  - intros [E Hlen]. exists (take (length s - length suffix) s),
      (drop (length s - length suffix) s).
    split; [by rewrite take_drop | done].
  - intros (stem & tail & -> & <-). rewrite length_map, length_app.
    split; [|lia].
    replace (length stem + length tail - length tail) with (length stem) by lia.
    by rewrite drop_app_length.
Qed.

Lemma startsWith_spec (s p : jsstr) :
  startsWith s p = true <-> exists rest, s = p ++ rest.
Proof.
  unfold startsWith. rewrite bool_decide_eq_true. split.
  - intros E. exists (drop (length p) s). by rewrite <- E at 1; rewrite take_drop.
  - intros [rest ->]. by rewrite take_app_length.
Qed.

End Acceptance.

(** Which files engine [Ikko] imports: those whose type starts with
    ["image/"] and those whose name ends in [.jpg], [.jpeg], [.png], [.gif]
    or [.webp], whatever the case of the letters of the extension and
    whatever comes before it. *)
Lemma ikkoAccepts_spec (f : File) :
  ikkoAccepts f = true
  <-> (exists rest, ftype f = ofString "image/" ++ rest)
      \/ (exists stem tail,
             fname f = stem ++ tail
             /\ In (map foldCase tail)
                  (map ofString [".jpg"; ".jpeg"; ".png"; ".gif"; ".webp"]%string)).
Proof.
  unfold ikkoAccepts, imageExtension.
  rewrite orb_true_iff, startsWith_spec, existsb_exists.
  apply or_iff_compat_l. split.
  - intros (ext & Hext & Hends). apply endsWithFold_spec in Hends
      as (stem & tail & E & Hfold).
    exists stem, tail. split; [done|]. rewrite Hfold. by apply in_map.
  - intros (stem & tail & E & Hin). apply in_map_iff in Hin as (ext & Hext & Hin).
    exists ext. split; [done|]. apply endsWithFold_spec.
    exists stem, tail. done.
Qed.

(** ** File names of the downloads *)

Section DownloadNames.

Lemma ultimate_run_settings st op enc sigma n r n' :
  UltimateApp.startGeneration st op enc sigma n = (Some r, n') ->
  UltimateApp.settings (UltimateApp.after r) = UltimateApp.settings st.
Proof.
  unfold UltimateApp.startGeneration.
  destruct (length (UltimateApp.images st) =? 0)%nat; poll_step.
  { by intros [= <- _]. }
  destruct (UltimateApp.totalBatches _ _); poll_step; [|done].
  destruct (UltimateApp.batchLoop _ _ _ _ _ _ _ sigma n) as [[blobs|] n1];
    [|done].
  destruct (sigma n1); by intros [= <- _].
Qed.

Lemma ikko_run_settings decode enc st op sigma n r n' :
  IkkoApp.generate decode enc st op sigma n = (Some r, n') ->
  IkkoApp.settings (IkkoApp.after r) = IkkoApp.settings st.
Proof.
  unfold IkkoApp.generate.
  destruct (length (IkkoApp.images st) =? 0)%nat; poll_step.
  { by intros [= <- _]. }
  destruct (IkkoApp.effectiveGroupRows _ _); poll_step; [|done].
  destruct (IkkoApp.totalBatches _ _); poll_step; [|done].
  destruct (IkkoApp.batchLoop _ _ _ _ _ _ _ _ sigma n) as [[blobs|] n1];
    [|done].
  destruct (sigma n1); by intros [= <- _].
Qed.

(** The pages a run over a non-empty gallery publishes obey the format rule
    of the settings the run was started with. *)
Lemma ultimate_published_rule st op enc sigma n r n' :
  UltimateApp.images st <> [] ->
  UltimateApp.startGeneration st op enc sigma n = (Some r, n') ->
  Forall (ultimateFormatRule (UltimateApp.settings st))
    (UltimateApp.generatedBlobs (UltimateApp.after r)).
Proof.
  intros Hne Hrun.
  apply ultimate_run_inv in Hrun
    as [(Hnil & _)|(_ & total & blobs & n1 & _ & Hloop & _ & _ & ->)]; [done|].
  destruct (sigma n1); [constructor|].
  eapply ultimate_batchLoop_Forall; [|exact Hloop|constructor].
  apply ultimate_encodePage_rule.
Qed.

Lemma ikko_published_rule decode enc st op sigma n r n' :
  IkkoApp.images st <> [] ->
  IkkoApp.generate decode enc st op sigma n = (Some r, n') ->
  Forall (ikkoFormatRule (IkkoApp.settings st))
    (IkkoApp.generatedBlobs (IkkoApp.after r)).
Proof.
  intros Hne Hrun.
  apply ikko_run_inv in Hrun
    as [(Hnil & _)|(_ & eff & total & blobs & n1 & _ & _ & Hloop & _ & _ & ->)];
    [done|].
  destruct (sigma n1); [constructor|].
  eapply ikko_batchLoop_Forall; [|exact Hloop|constructor].
  apply ikko_toBlob_rule.
Qed.

Lemma ultimate_rule_ext (s : Ultimate.AppSettings) (b : Blob) :
  ultimateFormatRule s b -> extOfBlob b = ultimateExt s.
Proof.
  unfold ultimateFormatRule, extOfBlob, ultimateExt, UltimateApp.isPng.
  case_decide as E.
  - intros [-> _]. by rewrite bool_decide_eq_true_2.
  - intros [-> _]. by rewrite bool_decide_eq_false_2.
Qed.

Lemma ikko_rule_ext (s : Ikko.AppSettings) (b : Blob) :
  ikkoFormatRule s b ->
  (extOfBlob b = ikkoExt s <-> (Ikko.exportQuality s <= 100)%Z).
Proof.
  unfold ikkoFormatRule, extOfBlob, ikkoExt.
  case_decide as E; intros [-> _];
    destruct (Z.eqb_spec (Ikko.exportQuality s) 100); split; intros; try done; lia.
Qed.

End DownloadNames.

(** X19.  File extensions of the downloaded pages.  In engine [Ultimate],
    right after a run the archive names every page with the extension of its
    real format, exactly as the one-by-one download does (which reads the
    format off each page); but the archive takes the extension from the
    current preset, so once the preset is switched between lossless and
    lossy with pages still published, every page in the archive is
    mislabelled.  In engine [Ikko] archive and one-by-one download name the
    pages after [exportQuality === 100], while the pages are PNG from 100
    upwards: the names are right exactly when no page was published or the
    quality is at most 100. *)
Theorem X19_download_extensions
    (st : UltimateApp.AppState) (op : UltimateApp.OpType)
    (decode : list N -> option Bitmap)
    (ist : IkkoApp.AppState) (iop : IkkoApp.OpType)
    (enc sigma : nat -> bool) (n n' m m' : nat)
    (r : UltimateApp.Run) (ir : IkkoApp.Run) :
  UltimateApp.images st <> [] -> IkkoApp.images ist <> [] ->
  UltimateApp.startGeneration st op enc sigma n = (Some r, n') ->
  IkkoApp.generate decode enc ist iop sigma m = (Some ir, m') ->
  ultimateZipNames (UltimateApp.after r) = ultimatePartsNames (UltimateApp.after r)
  /\ (forall s' : Ultimate.AppSettings,
        UltimateApp.isPng s' <> UltimateApp.isPng (UltimateApp.settings st) ->
        Forall (fun e => snd (fst e) <> extOfBlob (snd e))
          (ultimateZipNames
             (UltimateApp.mkAppState (UltimateApp.images st) s'
                (UltimateApp.generatedBlobs (UltimateApp.after r))
                (UltimateApp.stickerImg st) (UltimateApp.globalOverlayImg st))))
  /\ (Forall (fun e => snd (fst e) = extOfBlob (snd e))
        (ikkoPartNames (IkkoApp.after ir))
      <-> IkkoApp.generatedBlobs (IkkoApp.after ir) = []
          \/ (Ikko.exportQuality (IkkoApp.settings ist) <= 100)%Z).
Proof.
  intros HU HI Hrun Hirun.
  pose proof (ultimate_published_rule _ _ _ _ _ _ _ HU Hrun) as Hrule.
  pose proof (ultimate_run_settings _ _ _ _ _ _ _ Hrun) as Hset.
  pose proof (ikko_published_rule _ _ _ _ _ _ _ _ HI Hirun) as Hirule.
  pose proof (ikko_run_settings _ _ _ _ _ _ _ _ Hirun) as Hiset.
  split; [|split].
  - unfold ultimateZipNames, ultimatePartsNames. apply imap_ext.
    intros i b Hb. rewrite Hset.
    by rewrite (ultimate_rule_ext _ b (proj1 (Forall_lookup _ _) Hrule i b Hb)).
  - intros s' Hdiff. unfold ultimateZipNames. simpl.
    apply Forall_forall. intros e He.
    apply elem_of_lookup_imap in He as (i & b & -> & Hb). simpl.
    rewrite (ultimate_rule_ext _ b (proj1 (Forall_lookup _ _) Hrule i b Hb)).
    unfold ultimateExt.
    destruct (UltimateApp.isPng s'), (UltimateApp.isPng (UltimateApp.settings st));
      done.
  - unfold ikkoPartNames. rewrite Hiset.
    set (blobs := IkkoApp.generatedBlobs (IkkoApp.after ir)) in *.
    split.
    + intros Hall. destruct blobs as [|b blobs'] eqn:Eb; [by left|]. right.
      apply (ikko_rule_ext _ b); [by inversion Hirule|].
      apply Forall_inv in Hall. simpl in Hall. done.
    + intros Hok. apply Forall_forall. intros e He.
      apply elem_of_lookup_imap in He as (i & b & -> & Hb). simpl.
      destruct Hok as [Hnil|Hq]; [by rewrite Hnil in Hb|].
      symmetry.
      by apply (ikko_rule_ext _ b (proj1 (Forall_lookup _ _) Hirule i b Hb)).
Qed.

Lemma X19_download_extensions_witness :
  UltimateApp.images threePagesUltimate <> []
  /\ ultimateZipNames (UltimateApp.after wholeRunUltimate)
     = ultimatePartsNames (UltimateApp.after wholeRunUltimate).
Proof.
  assert (UltimateApp.images threePagesUltimate <> []) as HU
    by (vm_compute; congruence).
  assert (IkkoApp.images threePagesIkko <> []) as HI
    by (vm_compute; congruence).
  split; [exact HU|].
  refine (proj1 (X19_download_extensions threePagesUltimate UltimateApp.Normal
                   decodeAll threePagesIkko IkkoApp.Normal encodeAll never
                   0 13 0 13 wholeRunUltimate wholeRunIkko HU HI _ _)).
  - vm_compute. reflexivity.
  - vm_compute. reflexivity.
Defined.

(** ** Printing a number and reading it back *)

Section RoundTrip.

Local Open Scope N_scope.

Ltac eval_digit :=
  match goal with
  | |- context [digitValue 10 ?c] =>
      let v := eval vm_compute in (digitValue 10 c) in
      change (digitValue 10 c) with v; cbv beta iota
  end.

Lemma digitsPrefix_acc (d : Decimal.uint) (p : positive) :
  digitsPrefix 10 (Some (N.pos p)) (ofString (NilEmpty.string_of_uint d))
  = Some (N.pos (Pos.of_uint_acc d p)).
Proof.
  revert p. induction d; intros p; [done|..];
    cbn [NilEmpty.string_of_uint Pos.of_uint_acc];
    unfold ofString in *; cbn [list_ascii_of_string map digitsPrefix];
    eval_digit; rewrite <- IHd; do 2 f_equal; lia.
Qed.

Lemma digitsPrefix_zero (d : Decimal.uint) :
  digitsPrefix 10 (Some 0) (ofString (NilEmpty.string_of_uint d))
  = Some (Pos.of_uint d).
Proof.
  induction d; [done|..];
    cbn [NilEmpty.string_of_uint Pos.of_uint];
    unfold ofString in *; cbn [list_ascii_of_string map digitsPrefix];
    eval_digit; [exact IHd|..];
    exact (digitsPrefix_acc d _).
Qed.

Lemma digitsPrefix_none (d : Decimal.uint) :
  d <> Decimal.Nil ->
  digitsPrefix 10 None (ofString (NilEmpty.string_of_uint d))
  = Some (Pos.of_uint d).
Proof.
  destruct d; [done|..]; intros _;
    cbn [NilEmpty.string_of_uint Pos.of_uint];
    unfold ofString; cbn [list_ascii_of_string map digitsPrefix];
    eval_digit; [exact (digitsPrefix_zero d)|..];
    exact (digitsPrefix_acc d _).
Qed.

(** Decimal digits are plain characters. *)
Lemma digits_plain (d : Decimal.uint) :
  forallb plainChar (ofString (NilEmpty.string_of_uint d)) = true.
Proof.
  induction d; [done|..]; cbn [NilEmpty.string_of_uint];
    unfold ofString in *; cbn [list_ascii_of_string map forallb];
    rewrite IHd; reflexivity.
Qed.

Ltac eval_chars :=
  repeat match goal with
  | |- context [N_of_ascii ?c] =>
      let v := eval vm_compute in (N_of_ascii c) in
      change (N_of_ascii c) with v
  end.

Ltac eval_arith :=
  repeat match goal with
  | |- context [N.sub ?a ?b] =>
      let v := eval vm_compute in (N.sub a b) in change (N.sub a b) with v
  | |- context [N.ltb ?a ?b] =>
      let v := eval vm_compute in (N.ltb a b) in change (N.ltb a b) with v
  | |- context [N.add (N.mul ?a ?b) ?c] =>
      let v := eval vm_compute in (N.add (N.mul a b) c) in
      change (N.add (N.mul a b) c) with v
  end.

Ltac finish_digits d :=
  cbn [NilEmpty.string_of_uint Pos.of_uint]; unfold ofString;
  cbn [list_ascii_of_string map];
  let H0 := fresh in let H1 := fresh in
  pose proof (digitsPrefix_zero d) as H0;
  pose proof (fun p => digitsPrefix_acc d p) as H1;
  unfold ofString in H0, H1;
  set (rest := map N_of_ascii (list_ascii_of_string (NilEmpty.string_of_uint d))) in *;
  eval_chars; cbn; eval_arith; cbv beta iota; eval_arith; cbv beta iota;
  first [rewrite H0 | rewrite H1]; reflexivity.

Lemma parseInt_digits (d : Decimal.uint) :
  d <> Decimal.Nil ->
  parseInt (ofString (NilEmpty.string_of_uint d)) = Some (Z.of_N (Pos.of_uint d)).
Proof.
  intros Hd. unfold parseInt.
  destruct d as [|d|d|d|d|d|d|d|d|d|d]; [done|..]; try finish_digits d.
  destruct d as [|d|d|d|d|d|d|d|d|d|d]; [reflexivity|..]; finish_digits d.
Qed.

Lemma digits_nonempty (d : Decimal.uint) :
  d <> Decimal.Nil -> isEmpty (ofString (NilEmpty.string_of_uint d)) = false.
Proof. by destruct d. Qed.

Lemma splitRuns_plain (sep : N -> bool) (s acc : jsstr) :
  forallb (fun c => negb (sep c)) s = true ->
  splitRuns sep false acc s = [rev acc ++ s].
Proof.
  revert acc. induction s as [|c s IH]; intros acc H; simpl.
  - by rewrite app_nil_r.
  - simpl in H. apply andb_true_iff in H as [Hc Hs].
    apply negb_true_iff in Hc. rewrite Hc, IH by done.
    simpl. by rewrite <- app_assoc.
Qed.

Lemma plain_not_separator (s : jsstr) :
  forallb plainChar s = true ->
  forallb (fun c => negb (isSeparator c)) s = true.
Proof.
  induction s as [|c s IH]; [done|]. simpl. intros H.
  apply andb_true_iff in H as [Hc Hs]. rewrite IH by done.
  unfold plainChar in Hc. rewrite !negb_orb in Hc.
  apply andb_true_iff in Hc as [Hc _]. apply andb_true_iff in Hc as [Hc _].
  by rewrite Hc.
Qed.

(** A token made of plain characters is read by [parseInt] alone. *)
Lemma parsePart_plain (p : jsstr) :
  forallb plainChar p = true -> isEmpty p = false ->
  parsePart p = match parseInt p with Some num => [num] | None => [] end.
Proof.
  intros Hp Hne. destruct (plain_facts p Hp) as (Hw & Hr & Hh).
  unfold parsePart. rewrite (trim_id p Hw), Hne, Hr, Hh. done.
Qed.

Lemma parseMaskIndices_plain (p : jsstr) :
  forallb plainChar p = true -> isEmpty p = false ->
  parseMaskIndices p = match parseInt p with Some num => [num] | None => [] end.
Proof.
  intros Hp Hne. unfold parseMaskIndices, splitRegexRuns.
  rewrite splitRuns_plain by (by apply plain_not_separator).
  simpl. rewrite app_nil_r. by apply parsePart_plain.
Qed.

Lemma numberToString_digits (n : N) :
  N.to_uint n <> Decimal.Nil
  /\ numberToString n = ofString (NilEmpty.string_of_uint (N.to_uint n)).
Proof.
  assert (N.to_uint n <> Decimal.Nil) as Hne.
  { destruct n as [|p]; [done|]. apply Unsigned.to_uint_nonnil. }
  split; [done|]. unfold numberToString, NilZero.string_of_uint.
  by destruct (N.to_uint n).
Qed.

End RoundTrip.



(** ** The combined picture of engine [Ikko] *)

Section IkkoCombine.

Local Open Scope Z_scope.

Lemma stack_spec (blobs : list Blob) (y : Z) :
  contiguous y (stack blobs y)
  /\ map snd (stack blobs y) = map height blobs
  /\ stripsHeight (stack blobs y) = UltimateApp.sumHeights blobs.
Proof.
  revert y. induction blobs as [|b l IH]; intros y; [done|].
  destruct (IH (y + height b)) as (H1 & H2 & H3).
  rewrite sumHeights_cons. cbn [stack contiguous map snd stripsHeight fold_right].
  fold (stripsHeight (stack l (y + height b))).
  rewrite H2, H3. done.
Qed.

End IkkoCombine.

(** X21.  The combined download of engine [Ikko] never scales: when it
    makes a picture, the gallery holds at most 100 pictures, there is at
    least one page, the surface is as wide as the first page and as high as
    all pages together, holds at most 50 million pixels, and the pages are
    stacked from the top without a gap at their own heights, filling it
    exactly; file extension and encoding agree with each other (PNG exactly
    for quality 100).  It makes no picture exactly when the gallery is
    larger, no page is published or the pixel count is exceeded. *)
Theorem X21_ikko_combined_picture (st : IkkoApp.AppState) :
  (forall c, combineAndDownload st = Some c ->
     (length (IkkoApp.images st) <= 100)%nat
     /\ IkkoApp.generatedBlobs st <> []
     /\ Some (cWidth c) = width <$> head (IkkoApp.generatedBlobs st)
     /\ cHeight c = UltimateApp.sumHeights (IkkoApp.generatedBlobs st)
     /\ (cWidth c * cHeight c <= 50000000)%Z
     /\ contiguous 0 (cStrips c)
     /\ map snd (cStrips c) = map height (IkkoApp.generatedBlobs st)
     /\ stripsHeight (cStrips c) = cHeight c
     /\ (cMime c = ImagePng <-> cExt c = ExtPng)
     /\ (cMime c = ImagePng <-> Ikko.exportQuality (IkkoApp.settings st) = 100%Z))
  /\ (combineAndDownload st = None
      <-> (100 < length (IkkoApp.images st))%nat
          \/ IkkoApp.generatedBlobs st = []
          \/ exists first rest,
               IkkoApp.generatedBlobs st = first :: rest
               /\ (50000000
                   < width first * UltimateApp.sumHeights (IkkoApp.generatedBlobs st))%Z).
Proof.
  unfold combineAndDownload, COMBINE_MAX_IMAGES, COMBINE_PIXELS.
  fold (UltimateApp.sumHeights (IkkoApp.generatedBlobs st)).
  destruct (Nat.ltb_spec 100 (length (IkkoApp.images st))) as [Hbig|Hsmall].
  { split; [done|]. split; [by left | done]. }
  destruct (IkkoApp.generatedBlobs st) as [|first rest] eqn:Eb.
  { split; [done|]. split; [by right; left | done]. }
  set (blobs := first :: rest) in *.
  destruct (Z.gtb_spec (width first * UltimateApp.sumHeights blobs) 50000000)
    as [Hpix|Hpix].
  { split; [done|]. split; [|done]. intros _. right. right.
    exists first, rest. done. }
  split.
  - intros c [= <-]. simpl.
    destruct (stack_spec blobs 0) as (H1 & H2 & H3).
    split; [lia|]. split; [done|]. split; [done|]. split; [done|].
    split; [done|]. split; [done|]. split; [done|]. split; [done|].
    unfold ikkoExt.
    destruct (Z.eqb_spec (Ikko.exportQuality (IkkoApp.settings st)) 100);
      split; split; intros; done.
  - split; [done|]. intros [H|[H|(f & r & E & H)]]; [lia | done |].
    inversion E; subst. lia.
Qed.

(** ** Ids in the gallery *)

Section UniqueIds.

Variable freshId : nat -> jsstr.
Variable objectUrl : nat -> jsstr.

Lemma imported_ids_sublist (files : list File) (ks : list nat) :
  map Ultimate.id (flat_map (ultimateItemAt freshId objectUrl files) ks)
    `sublist_of` map freshId ks.
Proof.
  induction ks as [|k ks IH]; [done|]. simpl. rewrite map_app.
  unfold ultimateItemAt at 1.
  destruct (files !! k) as [f|]; [destruct (ultimateAccepts f)|]; simpl;
    by (apply sublist_skip || apply sublist_cons).
Qed.

Lemma onEnd_Permutation {A} (l l' : list A) (i j : nat) :
  ultimateOnEnd l i j = Some l' -> l' ≡ₚ l.
Proof.
  unfold ultimateOnEnd, spliceOut. destruct (l !! i) as [m|] eqn:Hm; [|done].
  intros [= <-]. rewrite spliceIn_Permutation. symmetry.
  by apply delete_Permutation.
Qed.

End UniqueIds.

(** X22.  The pictures of the gallery keep distinct ids, which is what the
    store and the saved order rely on: starting from distinct ids, a drag
    and drop, a deletion, a replacement (which keeps the id of the replaced
    picture, so the list of ids and with it the saved order do not change),
    duplicate removal and restoring a session all leave the ids distinct;
    so does an import, provided the ids it draws are new and distinct. *)
Theorem X22_ids_stay_unique (st : UltimateApp.AppState) :
  NoDup (map Ultimate.id (UltimateApp.images st)) ->
  (forall i j l', ultimateOnEnd (UltimateApp.images st) i j = Some l' ->
                  NoDup (map Ultimate.id l'))
  /\ (forall i, NoDup (map Ultimate.id (UltimateApp.images (deleteImage st i))))
  /\ (forall i newUrl file fileName fileSize,
        map Ultimate.id
          (UltimateApp.images (replaceImage st i newUrl file fileName fileSize))
        = map Ultimate.id (UltimateApp.images st)
        /\ savedOrder (UltimateApp.images
                         (replaceImage st i newUrl file fileName fileSize))
           = savedOrder (UltimateApp.images st))
  /\ NoDup (map Ultimate.id (UltimateApp.images (UltimateApp.removeDuplicates st)))
  /\ (forall st0 ids, NoDup ids -> UltimateApp.images st <> [] ->
        NoDup (map Ultimate.id
                 (UltimateApp.images
                    (restoreSession st0 (UltimateApp.images st) (Some ids)))))
  /\ (forall (freshId objectUrl : nat -> jsstr) (files : list File),
        (forall a b, freshId a = freshId b -> a = b) ->
        (forall k, freshId k ∉ map Ultimate.id (UltimateApp.images st)) ->
        NoDup (map Ultimate.id
                 (UltimateApp.images (handleFileSelect freshId objectUrl st files)))).
Proof.
  intros Hnd. split; [|split; [|split; [|split; [|split]]]].
  - intros i j l' Hl'. apply onEnd_Permutation in Hl'.
    by rewrite Hl'.
  - intros [i|]; [|done]. unfold deleteImage.
    destruct (UltimateApp.images st !! i); [|done]. simpl.
    eapply sublist_NoDup; [exact Hnd|].
    apply fmap_sublist, sublist_delete.
  - intros i newUrl file fileName fileSize.
    assert (map Ultimate.id
              (UltimateApp.images (replaceImage st i newUrl file fileName fileSize))
            = map Ultimate.id (UltimateApp.images st)) as E.
    { destruct i as [i|]; [|done]. unfold replaceImage.
      destruct (UltimateApp.images st !! i) as [old|] eqn:Hi; [|done]. simpl.
      change (map Ultimate.id ?l) with (Ultimate.id <$> l).
      rewrite list_fmap_insert. simpl. apply list_insert_id.
      by rewrite list_lookup_fmap, Hi. }
    split; [done|]. unfold savedOrder.
    destruct (UltimateApp.images (replaceImage st i newUrl file fileName fileSize))
      as [|x l] eqn:E1; destruct (UltimateApp.images st) as [|y l0] eqn:E2;
      try done. by rewrite E.
  - eapply sublist_NoDup; [exact Hnd|].
    apply fmap_sublist. unfold UltimateApp.removeDuplicates. simpl.
    apply dedupLoop_sublist.
  - intros st0 ids Hids Hne.
    by rewrite (restored_Permutation st0 _ ids Hne Hnd Hids).
  - intros freshId objectUrl files Hinj Hfresh.
    destruct (decide (files = [])) as [->|Hne]; [done|].
    rewrite (handleFileSelect_nonempty freshId objectUrl st files Hne).
    simpl. rewrite map_app.
    pose proof (imported_ids_sublist freshId objectUrl files
                  (seq 0 (length files))) as Hsub.
    apply NoDup_app. split; [done|]. split.
    + intros x Hx Hx'. apply (elem_of_sublist _ _ _ Hx') in Hsub as Hx''.
      apply list_elem_of_fmap in Hx'' as (k & -> & _). by apply (Hfresh k).
    + eapply sublist_NoDup; [|exact Hsub].
      apply NoDup_fmap_2; [exact Hinj | apply NoDup_seq].
Qed.

Lemma X22_ids_stay_unique_witness :
  NoDup (map Ultimate.id (UltimateApp.images (ultimateState 3 ULTIMATE_DEFAULT)))
  /\ NoDup (map Ultimate.id
              (UltimateApp.images
                 (deleteImage (ultimateState 3 ULTIMATE_DEFAULT) (Some 1)))).
Proof.
  assert (NoDup (map Ultimate.id
                   (UltimateApp.images (ultimateState 3 ULTIMATE_DEFAULT)))) as H.
  { vm_compute. repeat constructor; set_solver. }
  split; [exact H|].
  exact (proj1 (proj2 (X22_ids_stay_unique _ H)) (Some 1)).
Defined.

(** ** The sticker in the preview and on the page *)

Section StickerPreview.

Local Open Scope Q_scope.

Lemma q_nonzero (z : Z) : z <> 0%Z -> ~ q z == 0.
Proof.
  intros Hz E. apply Hz. unfold q, Qeq in E. simpl in E. lia.
Qed.

End StickerPreview.

(** X23.  The sticker preview is true to the page: for the same sticker
    settings, the sticker sits in a masked cell at the same relative place
    as on the preview surface (its centre at [stickerX] percent of the width
    and [stickerY] percent of the height), takes the same share of the width
    ([stickerSize] percent) and has the same proportions, whatever the sizes
    of the cell and of the preview.  This holds in both engines. *)
Theorem X23_sticker_preview_agrees
    (st : Bitmap) (us : Ultimate.AppSettings) (iset : Ikko.AppSettings)
    (style : LineStyle) (x y w h W H : Z) :
  bw st <> 0%Z -> (0 < w)%Z -> (0 < h)%Z -> (0 < W)%Z -> (0 < H)%Z ->
  (exists dx dy sw sh px py pw ph : Q,
      drawMask ModeImage style (Some st) (Ultimate.stickerSize us)
        (Ultimate.stickerX us) (Ultimate.stickerY us) x y w h
      = [MaskSticker (mkRect x y w h) dx dy sw sh]
      /\ ultimatePreviewSticker (Some st) us W H = Some (px, py, pw, ph)
      /\ ((dx + sw / 2 - q x) / q w == (px + pw / 2) / q W)%Q
      /\ ((dy + sh / 2 - q y) / q h == (py + ph / 2) / q H)%Q
      /\ ((dx + sw / 2 - q x) / q w == q (Ultimate.stickerX us) / 100)%Q
      /\ ((dy + sh / 2 - q y) / q h == q (Ultimate.stickerY us) / 100)%Q
      /\ (sw / q w == pw / q W)%Q
      /\ (sh * pw == ph * sw)%Q)
  /\ (exists dx dy sw sh px py pw ph : Q,
      drawMask ModeImage style (Some st) (Ikko.stickerSize iset)
        (Ikko.stickerX iset) (Ikko.stickerY iset) x y w h
      = [MaskSticker (mkRect x y w h) dx dy sw sh]
      /\ ikkoPreviewSticker (Some st) iset W H = Some (px, py, pw, ph)
      /\ ((dx + sw / 2 - q x) / q w == (px + pw / 2) / q W)%Q
      /\ ((dy + sh / 2 - q y) / q h == (py + ph / 2) / q H)%Q
      /\ ((dx + sw / 2 - q x) / q w == q (Ikko.stickerX iset) / 100)%Q
      /\ ((dy + sh / 2 - q y) / q h == q (Ikko.stickerY iset) / 100)%Q
      /\ (sw / q w == pw / q W)%Q
      /\ (sh * pw == ph * sw)%Q).
Proof.
  intros Hbw Hw Hh HW HH.
  pose proof (q_nonzero (bw st) Hbw) as Nb.
  pose proof (q_nonzero w ltac:(lia)) as Nw.
  pose proof (q_nonzero h ltac:(lia)) as Nh.
  pose proof (q_nonzero W ltac:(lia)) as NW.
  pose proof (q_nonzero H ltac:(lia)) as NH.
  split.
  - unfold drawMask, ultimatePreviewSticker.
    destruct (Z.eqb_spec (bw st) 0) as [E|_]; [done|].
    do 8 eexists. split; [reflexivity|]. split; [reflexivity|].
    repeat split; field; auto.
  - unfold drawMask, ikkoPreviewSticker.
    do 8 eexists. split; [reflexivity|]. split; [reflexivity|].
    repeat split; field; auto.
Qed.

Lemma X23_sticker_preview_agrees_witness :
  exists dx dy sw sh : Q,
    drawMask ModeImage Cross (Some (mkBitmap 200 100)) 50 50 50 0 0 1500 2000
    = [MaskSticker (mkRect 0 0 1500 2000) dx dy sw sh]
    /\ ((dx + sw / 2 - q 0) / q 1500 == q 50 / 100)%Q.
Proof.
  destruct (X23_sticker_preview_agrees (mkBitmap 200 100) ULTIMATE_DEFAULT
              (ikkoSettings 3 0 0 (75 # 100) "" ModeLine 80) Cross
              0 0 1500 2000 300 300)
    as [(dx & dy & sw & sh & px & py & pw & ph & Hm & _ & _ & _ & Hx & _) _];
    [simpl; lia | lia | lia | lia | lia |].
  exists dx, dy, sw, sh. split; [exact Hm | exact Hx].
Defined.

(** ** The overlay preview *)

Section OverlayPreview.

Lemma previewImgs_length (images : list Ikko.ImageData) :
  images <> [] -> length (previewImgs images) = 9.
Proof.
  intros Hne. unfold previewImgs. destruct images as [|img0 rest]; [done|].
  rewrite length_app, length_replicate, length_map.
  pose proof (length_take_le (img0 :: rest) 9). 
  rewrite length_take. lia.
Qed.

Lemma previewImgs_lookup (images : list Ikko.ImageData) (img0 : Ikko.ImageData)
    (i : nat) :
  head images = Some img0 -> i < 9 ->
  previewImgs images !! i
  = Some (Ikko.url (default img0 (images !! i))).
Proof.
  intros Hhead Hi. unfold previewImgs.
  destruct images as [|x rest]; [done|]. injection Hhead as ->.
  set (images := img0 :: rest).
  destruct (decide (i < length images)) as [Hin|Hout].
  - rewrite lookup_app_l by (rewrite length_map, length_take; lia).
    change (map Ikko.url ?l) with (Ikko.url <$> l).
    rewrite list_lookup_fmap, lookup_take_lt by lia.
    by destruct (lookup_lt_is_Some_2 images i Hin) as [y ->].
  - rewrite lookup_app_r by (rewrite length_map, length_take; lia).
    rewrite lookup_replicate_2 by (rewrite length_map, length_take; lia).
    by rewrite lookup_ge_None_2 by lia.
Qed.

Lemma ikko_task_plain decode (o : Ikko.DrawOptions) (i : nat) :
  Ikko.showNum (Ikko.dsettings o) = false -> Ikko.applyMask o = false ->
  printedNumbers (Ikko.task decode o i) = []
  /\ existsb isMaskOp (Ikko.task decode o i) = false.
Proof.
  intros Hshow Hmask. unfold Ikko.task.
  destruct (Ikko.images o !! i) as [u|]; [|done].
  rewrite Hshow, Hmask. simpl. rewrite !app_nil_r.
  destruct (decode u) as [img|]; [|done]. split.
  - apply printedNumbers_coverImage.
  - simpl. by rewrite (proj1 (coverImage_cell _ _ _ _ _ _ _)).
Qed.

Lemma flat_map_all_nil {A B C} (obs : list B -> list C) (f : A -> list B)
    (l : list A) :
  (forall l1 l2, obs (l1 ++ l2) = obs l1 ++ obs l2) -> obs [] = [] ->
  (forall a, obs (f a) = []) -> obs (flat_map f l) = [].
Proof.
  intros Happ Hnil Hf. induction l as [|a l IH]; [done|].
  simpl. by rewrite Happ, Hf, IH.
Qed.

End OverlayPreview.



(** ** Engine [Ikko]: one page when the row count is automatic *)

Section IkkoSinglePage.

Local Open Scope Z_scope.

Lemma ikko_auto_rows (s : Ikko.AppSettings) (len : nat) :
  Ikko.groupRows s <= 0 -> 1 <= Ikko.cols s -> (1 <= len)%nat ->
  exists rows,
    ceilDiv (Z.of_nat len) (Ikko.cols s) = Some rows
    /\ IkkoApp.effectiveGroupRows s len = Some rows
    /\ Z.of_nat len <= Ikko.cols s * rows < Z.of_nat len + Ikko.cols s
    /\ IkkoApp.totalBatches len (Ikko.cols s * rows) = Some 1%nat.
Proof.
  intros Hauto Hc Hlen. unfold IkkoApp.effectiveGroupRows.
  destruct (Z.gtb_spec (Ikko.groupRows s) 0) as [|_]; [lia|].
  destruct (ceilDiv_pos (Z.of_nat len) (Ikko.cols s) ltac:(lia)) as (rows & E & B).
  exists rows. split; [done|]. split; [done|]. split; [lia|].
  unfold IkkoApp.totalBatches.
  destruct (ceilDiv_pos (Z.of_nat len) (Ikko.cols s * rows) ltac:(nia))
    as (t & -> & Bt).
  f_equal. assert (t = 1) by nia. by subst t.
Qed.

Lemma ikko_toBlob_size (m : Mime) (r : option Q) (l : list DrawOp) :
  (width (toBlob m r l), height (toBlob m r l)) = surfaceSize l
  /\ surface (toBlob m r l) = l.
Proof. unfold toBlob. simpl. by destruct (surfaceSize l). Qed.

End IkkoSinglePage.


